(** * Verification of the Translog / TPR-DB preparation scripts

    Shallow embedding of the scripts of predict-translate-annotation that
    rewrite XML trees (xml.etree.ElementTree), of the segId re-indexing
    script and of the TMX text extraction.  Python strings are modelled by
    [string] (one [ascii] per character), dictionaries by stdpp's [gmap]
    where their order does not matter and by association lists where it
    does, and Python exceptions by the result type [res]. *)

From Stdlib Require Import ZArith Ascii String List Lia.
From Stdlib Require Import DecimalString DecimalZ DecimalPos.
From Stdlib Require Import Sorted.
From stdpp Require Import base gmap list strings.

Import ListNotations.
Open Scope string_scope.

(** ** Python run-time: exceptions, [int()], [str()], slicing *)

Inductive py_exc : Type :=
  | KeyError
  | TypeError
  | ValueError
  | AttributeError
  | StopIteration.

(** A Python computation either returns a value or raises. *)
Inductive res (A : Type) : Type :=
  | Ok (a : A)
  | Throw (e : py_exc).
Arguments Ok {A} a.
Arguments Throw {A} e.

Definition res_bind {A B} (m : res A) (k : A -> res B) : res B :=
  match m with
  | Ok a => k a
  | Throw e => Throw e
  end.

Notation "'let!' x := m 'in' k" := (res_bind m (fun x => k))
  (at level 200, x name, m at level 100, k at level 200).

(** [d[k]] on a dictionary: [KeyError] when the key is absent. *)
Definition getitem {V} (o : option V) : res V :=
  match o with
  | Some v => Ok v
  | None => Throw KeyError
  end.

(** [int(s)] on a string of an optional sign and decimal digits; any other
    string raises [ValueError] (Python also strips surrounding white space
    and accepts '_' between digits, which no identifier here contains). *)
Definition py_int (s : string) : option Z :=
  match s with
  | String "+"%char s' => option_map (fun d => Z.of_int (Decimal.Pos d))
                                     (NilZero.uint_of_string s')
  | _ => option_map Z.of_int (NilZero.int_of_string s)
  end.

(** [str(z)] on an int. *)
Definition str_Z (z : Z) : string := NilZero.string_of_int (Z.to_int z).

(** [str(n)] on a non-negative counter. *)
Definition str_nat (n : nat) : string := str_Z (Z.of_nat n).

(** f-string formatting of a value that may be [None]. *)
Definition py_str (o : option string) : string :=
  match o with
  | Some s => s
  | None => "None"
  end.

(** [s[1:]] *)
Definition drop1 (s : string) : string :=
  match s with
  | EmptyString => EmptyString
  | String _ s' => s'
  end.

(** ** ElementTree elements *)

Local Unset Elimination Schemes.

(** An [xml.etree.ElementTree.Element]: tag, attribute dictionary, text,
    tail and the list of children. *)
Inductive Element : Type := mkEl {
  tag : string;
  attrib : gmap string string;
  text : option string;
  tail : option string;
  children : list Element
}.

Local Set Elimination Schemes.

(** Induction on elements, with the hypothesis on every child. *)
Section Element_ind.
Variable P : Element -> Prop.
Hypothesis P_el : forall tg ats tx tl cs,
  Forall P cs -> P (mkEl tg ats tx tl cs).

Fixpoint Element_ind (e : Element) : P e :=
  match e with
  | mkEl tg ats tx tl cs =>
      P_el tg ats tx tl cs
        ((fix go (l : list Element) : Forall P l :=
            match l with
            | [] => @List.Forall_nil _ P
            | c :: l' => @List.Forall_cons _ P c l' (Element_ind c) (go l')
            end) cs)
  end.
End Element_ind.
Register Scheme Element_ind as ind_dep for Element.

(** [el.get(k)] *)
Definition get (k : string) (e : Element) : option string := attrib e !! k.

(** [el.get(k, default)] *)
Definition get_default (k d : string) (e : Element) : string :=
  default d (get k e).

(** [el.set(k, v)] *)
Definition set (k v : string) (e : Element) : Element :=
  mkEl (tag e) (<[k := v]> (attrib e)) (text e) (tail e) (children e).

(** ** atag_fix.py: [AtagFixer.elements_equal] *)

(** [all(f(c1, c2) for c1, c2 in zip(l1, l2))] *)
Fixpoint all_zip {A} (f : A -> A -> bool) (l1 l2 : list A) : bool :=
  match l1, l2 with
  | c1 :: l1', c2 :: l2' => f c1 c2 && all_zip f l1' l2'
  | _, _ => true
  end.

Fixpoint elements_equal (e1 e2 : Element) : bool :=
  if negb (bool_decide (text e1 = text e2)) then false
  else if negb (Nat.eqb (length (children e1)) (length (children e2))) then false
  else all_zip elements_equal (children e1) (children e2).

(** The same tree with every attribute and tail erased. *)
Fixpoint strip (e : Element) : Element :=
  mkEl (tag e) ∅ (text e) None (map strip (children e)).

(** ** Paths into a tree

    An element of a tree is designated by the path of child indices that
    leads to it from the root; this is how the model keeps track of which
    Python object a loop variable refers to. *)

(** All descendants of [e] (the root excluded), in document order: the
    elements visited by [e.iter()] after [e] itself. *)
Fixpoint desc_go (dp : Element -> list (list nat)) (i : nat) (cs : list Element)
    : list (list nat) :=
  match cs with
  | [] => []
  | c :: cs' => (([i] :: map (cons i) (dp c)) ++ desc_go dp (S i) cs')%list
  end.

Fixpoint desc_paths (e : Element) : list (list nat) :=
  desc_go desc_paths 0 (children e).

Fixpoint get_at (p : list nat) (e : Element) : option Element :=
  match p with
  | [] => Some e
  | i :: p' => match children e !! i with
               | Some c => get_at p' c
               | None => None
               end
  end.

(** Mutating the element at path [p] with [f]. *)
Fixpoint upd_at (p : list nat) (f : Element -> Element) (e : Element) : Element :=
  match p with
  | [] => f e
  | i :: p' => mkEl (tag e) (attrib e) (text e) (tail e)
                    (alter (upd_at p' f) i (children e))
  end.

(** What an element holds apart from its children. *)
Definition loc (e : Element) : string * gmap string string * option string * option string :=
  (tag e, attrib e, text e, tail e).

Definition loc_at (p : list nat) (e : Element) :=
  option_map loc (get_at p e).

Definition has_tag (tg : string) (e : Element) (p : list nat) : bool :=
  match get_at p e with
  | Some x => String.eqb (tag x) tg
  | None => false
  end.

(** [e.findall(".//tg")] *)
Definition findall_desc (tg : string) (e : Element) : list (list nat) :=
  filter (fun p => has_tag tg e p = true) (desc_paths e).

(** [e.find(".//tg")] *)
Definition find_desc (tg : string) (e : Element) : option (list nat) :=
  head (findall_desc tg e).

(** ** decrease_segid.py *)

Definition dq : ascii := "034"%char.

(** The pattern [segId="(\d+)"] up to and including its first quote. *)
Definition segid_open : string := "segId=" ++ String dq EmptyString.

Definition is_digit (c : ascii) : bool :=
  let n := nat_of_ascii c in Nat.leb 48 n && Nat.leb n 57.

(** Greedy [\d*]: the longest prefix of digits and the rest. *)
Fixpoint span_digits (s : string) : string * string :=
  match s with
  | String c s' => if is_digit c
                   then let '(ds, r) := span_digits s' in (String c ds, r)
                   else (EmptyString, s)
  | EmptyString => (EmptyString, EmptyString)
  end.

(** A match of [segId="(\d+)"] starting at the beginning of [s]: the
    group and the text after the match.  A digit is never a quote, so the
    greedy run of digits is the only candidate for the group. *)
Definition match_here (s : string) : option (string * string) :=
  if String.prefix segid_open s then
    let '(ds, r) := span_digits (substring (String.length segid_open)
                                            (String.length s) s) in
    match ds, r with
    | EmptyString, _ => None
    | _, String c r' => if Ascii.eqb c dq then Some (ds, r') else None
    | _, EmptyString => None
    end
  else None.

(** [re.search(pattern, s).group(1)]: the leftmost match. *)
Fixpoint re_search (s : string) : option string :=
  match match_here s with
  | Some (ds, _) => Some ds
  | None => match s with
            | String _ s' => re_search s'
            | EmptyString => None
            end
  end.

(** [re.sub(pattern, repl, s)]: every non-overlapping match, scanned from
    the left, replaced by [repl]; [fuel] bounds the scan by [len(s)]. *)
Fixpoint re_sub_fuel (fuel : nat) (repl s : string) : string :=
  match fuel with
  | O => s
  | S fuel' =>
      match match_here s with
      | Some (_, r) => repl ++ re_sub_fuel fuel' repl r
      | None => match s with
                | String c s' => String c (re_sub_fuel fuel' repl s')
                | EmptyString => EmptyString
                end
      end
  end.

Definition re_sub (repl s : string) : string :=
  re_sub_fuel (S (String.length s)) repl s.

(** The body of the loop of [main] for one line. *)
Definition process_line (start_idx : Z) (end_idx : option Z) (do_increase : bool)
    (line : string) : string :=
  match re_search line with
  | Some ds =>
      match py_int ds with
      | Some matched_idx =>
          if Z.geb matched_idx start_idx then
            if match end_idx with
               | None => true
               | Some e => Z.ltb e matched_idx
               end
            then
              let v := if do_increase then (matched_idx + 1)%Z else (matched_idx - 1)%Z in
              re_sub (segid_open ++ str_Z v ++ String dq EmptyString) line
            else line
          else line
      | None => line
      end
  | None => line
  end.

(** [verify_order_lines]: only printing, but [max(idxs)] raises
    [ValueError] when no line carries a segId. *)
Definition verify_order_lines (lines : list string) : res unit :=
  match omap re_search lines with
  | [] => Throw ValueError
  | _ => Ok tt
  end.

(** [main]: the lines written back to the file. *)
Definition decrease_segid_main (start_idx : Z) (end_idx : option Z)
    (do_increase : bool) (lines : list string) : res (list string) :=
  let mod_lines := map (process_line start_idx end_idx do_increase) lines in
  let! _ := verify_order_lines mod_lines in
  Ok mod_lines.

(** ** fix_tokenization.py: [process_man_file] *)

Definition sum_Z (l : list Z) : Z := fold_right Z.add 0%Z l.

Section fix_tokenization.

(** [html.unescape], whose entity table is outside the model. *)
Variable unescape : string -> string.

(** [len(word.get("space")) if "space" in word.attrib else 0] *)
Definition space_len (w : Element) : Z :=
  match get "space" w with
  | Some sp => Z.of_nat (String.length sp)
  | None => 0%Z
  end.

(** The body of the loop over the W elements; the state is
    [(curr_cursor, curr_id, char_diff)] and the tree. *)
Fixpoint process_words (ps : list (list nat)) (curr_cursor : Z) (curr_id : nat)
    (char_diff : Z) (t : Element) : res (Element * Z) :=
  match ps with
  | [] => Ok (t, char_diff)
  | p :: ps' =>
      match get_at p t with
      | None => Ok (t, char_diff)
      | Some w =>
          let sl := space_len w in
          let ats := <["id" := str_nat curr_id]>
                       (<["cur" := str_Z (curr_cursor + sl)]> (attrib w)) in
          match text w with
          | None => Throw TypeError
          | Some tx =>
              let tx' := unescape tx in
              let t' := upd_at p (fun x => mkEl (tag x) ats (Some tx') (tail x)
                                                (children x)) t in
              process_words ps' (curr_cursor + sl + Z.of_nat (String.length tx'))
                (S curr_id)
                (char_diff + (Z.of_nat (String.length tx)
                              - Z.of_nat (String.length tx'))) t'
          end
      end
  end.

(** What a word adds to the cursor, and what unescaping removes. *)
Definition advance (w : Element) : Z :=
  space_len w + Z.of_nat (String.length (unescape (default EmptyString (text w)))).

Definition removed (w : Element) : Z :=
  Z.of_nat (String.length (default EmptyString (text w)))
  - Z.of_nat (String.length (unescape (default EmptyString (text w)))).

(** [process_man_file]: the tree written back and the returned
    [char_diff].  Sorting the attributes does not change the dictionary
    (an unordered [gmap] here). *)
Definition process_man_file (t : Element) : res (Element * Z) :=
  process_words (findall_desc "W" t) 0 1 0 t.

End fix_tokenization.

(** ** atag_fix.py: [AtagFixer.update_atag] *)

(** A Python dict where insertion order matters: an association list in
    which [d[k] = v] keeps the position of an existing key. *)
Fixpoint dict_set {K V} `{EqDecision K} (k : K) (v : V) (d : list (K * V))
    : list (K * V) :=
  match d with
  | [] => [(k, v)]
  | (k', v') :: d' => if decide (k = k') then (k, v) :: d'
                      else (k', v') :: dict_set k v d'
  end.

Fixpoint dict_get {K V} `{EqDecision K} (k : K) (d : list (K * V)) : option V :=
  match d with
  | [] => None
  | (k', v') :: d' => if decide (k = k') then Some v' else dict_get k d'
  end.

Inductive direction := Src | Tgt.

(** [{"src": tree, "tgt": tree}]: either key may be missing. *)
Record seg_entry := mkSeg { seg_src : option Element; seg_tgt : option Element }.

Definition seg_dir (d : direction) (se : seg_entry) : option Element :=
  match d with Src => seg_src se | Tgt => seg_tgt se end.

(** [self.sents_orig[identifier]] and [self.sents_man[identifier]]: segment
    id (the [segId] attribute, possibly absent) to its sentence trees. *)
Abbreviation sents := (gmap (option string) seg_entry).

(** [sents[seg_id][direction]] *)
Definition seg_tree (ss : sents) (seg : option string) (d : direction) : res Element :=
  let! se := getitem (ss !! seg) in getitem (seg_dir d se).

(** [orig_man_mapping]: original word id to manual word id, over
    [zip(orig_tree, man_tree)]. *)
Definition orig_man_mapping (so sm : sents) (seg : option string) (d : direction)
    : res (list (option string * option string)) :=
  let! orig_tree := seg_tree so seg d in
  let! man_tree := seg_tree sm seg d in
  Ok (fold_left (fun mp '(oe, me) => dict_set (get "id" oe) (get "id" me) mp)
                (zip (children orig_tree) (children man_tree)) []).

(** [Path(href).name]: what follows the last '/'. *)
Definition path_name (cs : list ascii) : list ascii :=
  fold_left (fun acc c => if Ascii.eqb c "/" then [] else (acc ++ [c])%list) cs [].

(** [name.rfind(".")] *)
Fixpoint rfind_dot (i : nat) (cs : list ascii) (best : option nat) : option nat :=
  match cs with
  | [] => best
  | c :: cs' => rfind_dot (S i) cs' (if Ascii.eqb c "." then Some i else best)
  end.

(** [Path(href).suffix] with its dots removed ([.replace(".", ...)] with the empty string). *)
Definition path_suffix_key (href : string) : string :=
  let name := path_name (list_ascii_of_string href) in
  match rfind_dot 0 name None with
  | Some i =>
      if Nat.ltb 0 i && Nat.ltb i (length name - 1)
      then string_of_list_ascii (filter (fun c => Ascii.eqb c "." = false) (drop i name))
      else EmptyString
  | None => EmptyString
  end.

(** [a_keyfiles]: from every alignFile element of the tree. *)
Definition a_keyfiles (root : Element) : res (list (string * option string)) :=
  fold_left (fun acc p =>
               let! akf := acc in
               match get_at p root with
               | Some el =>
                   match get "href" el with
                   | Some href => Ok (dict_set (path_suffix_key href) (get "key" el) akf)
                   | None => Throw TypeError
                   end
               | None => Ok akf
               end)
            (findall_desc "alignFile" root) (Ok []).

(** The children of [tree_root] and of [valid_tree_root]; each child
    carries the identity of the Python object, its position in the parsed
    file (the copies made by [deepcopy] carry the identity of their
    original). *)
Abbreviation atag_children := (list (nat * Element)).

Definition atag_state := (atag_children * atag_children)%type.

(** Outcome of a part of the loop: go on, [return has_error] with
    [has_error = True], or an uncaught exception. *)
Inductive loop_res :=
  | Next (st : atag_state)
  | Stop
  | Raise (e : py_exc).

(** [align[@out='v']] on a child. *)
Definition is_align_out (v : string) (ue : nat * Element) : bool :=
  String.eqb (tag ue.2) "align" && bool_decide (get "out" ue.2 = Some v).

(** [tree_root.remove(el)]: the first child that is [el]. *)
Fixpoint remove_uid (u : nat) (l : atag_children) : atag_children :=
  match l with
  | [] => []
  | ue :: l' => if Nat.eqb ue.1 u then l' else ue :: remove_uid u l'
  end.

(** The body of the innermost loop, for one matched element. *)
Definition remap_el (akf : list (string * option string))
    (tgt_map : list (option string * option string)) (ksrc : option string)
    (man_src : option string) (ue : nat * Element) (st : atag_state) : loop_res :=
  let el1 := set "out" (py_str ksrc ++ py_str man_src) ue.2 in
  match get "in" el1 with
  | None => Raise TypeError
  | Some i =>
      let prev_out := drop1 i in
      match dict_get "tgt" akf with
      | None => Stop
      | Some ktgt =>
          match dict_get (Some prev_out) tgt_map with
          | None => Stop
          | Some m =>
              let el2 := set "in" (py_str ktgt ++ py_str m) el1 in
              Next (remove_uid ue.1 st.1, (st.2 ++ [(ue.1, el2)])%list)
          end
      end
  end.

Fixpoint remap_all akf tgt_map ksrc man_src (els : atag_children) (st : atag_state)
    : loop_res :=
  match els with
  | [] => Next st
  | ue :: els' =>
      match remap_el akf tgt_map ksrc man_src ue st with
      | Next st' => remap_all akf tgt_map ksrc man_src els' st'
      | r => r
      end
  end.

(** The loop over [idx_maps["src"].items()]. *)
Fixpoint remap_tokens akf tgt_map (items : list (option string * option string))
    (st : atag_state) : loop_res :=
  match items with
  | [] => Next st
  | (o, m) :: items' =>
      match dict_get "src" akf with
      | None => Raise KeyError
      | Some ksrc =>
          let src_xml_id := py_str ksrc ++ py_str o in
          match remap_all akf tgt_map ksrc m (filter (fun ue => is_align_out src_xml_id ue = true) st.1) st with
          | Next st' => remap_tokens akf tgt_map items' st'
          | r => r
          end
      end
  end.

(** The loop over [valid_segs]. *)
Fixpoint remap_segs (so sm : sents) (sa : gmap (option string) (option string))
    akf (segs : list (option string)) (st : atag_state) : loop_res :=
  match segs with
  | [] => Next st
  | s :: segs' =>
      match sa !! s with
      | None => Raise KeyError
      | Some tgt_seg =>
          match orig_man_mapping so sm s Src with
          | Throw e => Raise e
          | Ok src_map =>
              match orig_man_mapping so sm tgt_seg Tgt with
              | Throw e => Raise e
              | Ok tgt_map =>
                  match remap_tokens akf tgt_map src_map st with
                  | Next st' => remap_segs so sm sa akf segs' st'
                  | r => r
                  end
              end
          end
      end
  end.

(** [(int(node.get("in", "b0")[1:]), int(node.get("out", "a0")[1:]))] *)
Definition sort_key (e : Element) : option (Z * Z) :=
  match py_int (drop1 (get_default "in" "b0" e)),
        py_int (drop1 (get_default "out" "a0" e)) with
  | Some a, Some b => Some (a, b)
  | _, _ => None
  end.

Definition key_lt (k1 k2 : Z * Z) : bool :=
  Z.ltb k1.1 k2.1 || (Z.eqb k1.1 k2.1 && Z.ltb k1.2 k2.2).

Fixpoint insert_by_key {A} (x : (Z * Z) * A) (l : list ((Z * Z) * A)) : list ((Z * Z) * A) :=
  match l with
  | [] => [x]
  | y :: l' => if key_lt x.1 y.1 then x :: l else y :: insert_by_key x l'
  end.

(** [sorted(..., key=...)]: a stable sort, here insertion sort. *)
Definition sort_by_key {A} (l : list ((Z * Z) * A)) : list ((Z * Z) * A) :=
  fold_left (fun acc x => insert_by_key x acc) l [].

(** The children of the original root and their identities. *)
Definition with_ids (cs : list Element) : atag_children :=
  zip (seq 0 (length cs)) cs.

(** [update_atag] on the parsed atag file [root] of the identifier whose
    tables are [so], [sm] and [sa]: [has_error] and, when the file is
    written, the children of the written root. *)
Definition update_atag (so sm : sents) (sa : gmap (option string) (option string))
    (root : Element) (valid_segs : list (option string))
    : res (bool * option atag_children) :=
  let tree := with_ids (children root) in
  if existsb (fun c => negb (bool_decide (findall_desc "align" c = []))) (children root)
  then Throw ValueError
  else
    let valid0 := filter (fun ue => String.eqb (tag ue.2) "align" = false) tree in
    let! akf := a_keyfiles root in
    match remap_segs so sm sa akf valid_segs (tree, valid0) with
    | Raise e => Throw e
    | Stop => Ok (true, None)
    | Next (_, valid) =>
        match mapM (fun ue => sort_key ue.2) valid with
        | None => Throw ValueError
        | Some keys => Ok (false, Some (map snd (sort_by_key (zip keys valid))))
        end
    end.

(** ** Auxiliary notions for the proofs about [update_atag] *)

(** [a_keyfiles['src']] as the query strings use it. *)
Definition akf_src (akf : list (string * option string)) : option string :=
  default None (dict_get "src" akf).

(** The [out] values queried for the items of a source mapping. *)
Definition qvals (akf : list (string * option string))
    (items : list (option string * option string)) : list string :=
  map (fun om => py_str (akf_src akf) ++ py_str om.1) items.

(** The [out] values queried for a list of segments. *)
Definition seg_queries (so sm : sents) akf (segs : list (option string)) : list string :=
  concat (map (fun s => match orig_man_mapping so sm s Src with
                        | Ok mp => qvals akf mp
                        | Throw _ => []
                        end) segs).

(** A child no query of [Q] matches (the children left in [tree_root]). *)
Definition unqueried (Q : list string) (ue : nat * Element) : bool :=
  forallb (fun v => negb (is_align_out v ue)) Q.

(** [e2] is [e] with [out] and then [in] set by one run of the loop body,
    [in] computed from [e]'s own previous [in]. *)
Definition remap_spec (akf : list (string * option string))
    (tgt_map : list (option string * option string)) (ksrc man_src : option string)
    (e e2 : Element) : Prop :=
  exists i ktgt m,
    get "in" e = Some i /\ dict_get "tgt" akf = Some ktgt /\
    dict_get (Some (drop1 i)) tgt_map = Some m /\
    e2 = set "in" (py_str ktgt ++ py_str m) (set "out" (py_str ksrc ++ py_str man_src) e).

(** The ids of the original source words of a segment. *)
Definition orig_src_ids (so : sents) (s : option string) : list (option string) :=
  match seg_tree so s Src with
  | Ok t => map (get "id") (children t)
  | Throw _ => []
  end.

(** The children of the root that [update_atag] copies into [valid_tree]
    before the loop: all but the align elements, with their positions. *)
Definition non_align_children (root : Element) : atag_children :=
  filter (fun ue => String.eqb (tag ue.2) "align" = false) (with_ids (children root)).

(** A string without a minus sign. *)
Fixpoint no_minus (s : string) : bool :=
  match s with
  | EmptyString => true
  | String c s' => negb (Ascii.eqb c "-"%char) && no_minus s'
  end.

(** Format of the atag files and of the word trees that [update_atag]
    relies on for the order of the written children. *)

(** The non-align children of the root (salign, alignFile) carry no [in]
    or [out] attribute. *)
Definition non_aligns_unkeyed (root : Element) : bool :=
  forallb (fun c => String.eqb (tag c) "align" ||
                    (bool_decide (get "in" c = None) && bool_decide (get "out" c = None)))
          (children root).

(** The keys of the alignFile elements have no minus sign. *)
Definition align_keys_ok (root : Element) : bool :=
  forallb (fun p => match get_at p root with
                    | Some el => no_minus (py_str (get "key" el))
                    | None => true
                    end) (findall_desc "alignFile" root).

(** The word ids of the manual sentence trees have no minus sign. *)
Definition seg_ids_ok (se : seg_entry) : bool :=
  forallb (fun d => match seg_dir d se with
                    | Some t => forallb (fun w => no_minus (py_str (get "id" w))) (children t)
                    | None => true
                    end) [Src; Tgt].

Definition man_ids_ok (sm : sents) : bool :=
  forallb (fun kv => seg_ids_ok kv.2) (map_to_list sm).

(** ** A small atag file *)

Definition ex_el (tg : string) (ats : list (string * string)) (cs : list Element) : Element :=
  mkEl tg (list_to_map ats) None None cs.

Definition ex_word (i t : string) : Element :=
  mkEl "W" (list_to_map [("id", i)]) (Some t) None [].

(** Two alignFile keys, a sentence alignment and three word alignments;
    the last one belongs to no segment. *)
Definition ex_root : Element :=
  ex_el "DTAGalign" [] [
    ex_el "alignFile" [("key", "a"); ("href", "P01_T01.src")] [];
    ex_el "alignFile" [("key", "b"); ("href", "/x/P01_T01.tgt")] [];
    ex_el "salign" [("src", "1"); ("tgt", "1")] [];
    ex_el "align" [("in", "b2"); ("out", "a2")] [];
    ex_el "align" [("in", "b1"); ("out", "a1")] [];
    ex_el "align" [("in", "b3"); ("out", "a5")] []].

(** The same file where the first word alignment points to the target
    word 9, which the target sentence does not have. *)
Definition ex_root_bad : Element :=
  ex_el "DTAGalign" [] [
    ex_el "alignFile" [("key", "a"); ("href", "P01_T01.src")] [];
    ex_el "alignFile" [("key", "b"); ("href", "/x/P01_T01.tgt")] [];
    ex_el "salign" [("src", "1"); ("tgt", "1")] [];
    ex_el "align" [("in", "b9"); ("out", "a2")] [];
    ex_el "align" [("in", "b1"); ("out", "a1")] []].

(** Original and manual segment 1: the same words, renumbered. *)
Definition ex_src_orig : Element := ex_el "tree" [] [ex_word "1" "de"; ex_word "2" "kat"].
Definition ex_tgt_orig : Element := ex_el "tree" [] [ex_word "1" "the"; ex_word "2" "cat"].
Definition ex_src_man : Element := ex_el "tree" [] [ex_word "2" "de"; ex_word "3" "kat"].
Definition ex_tgt_man : Element := ex_el "tree" [] [ex_word "1" "the"; ex_word "4" "cat"].

Definition ex_so : sents := {[ Some "1" := mkSeg (Some ex_src_orig) (Some ex_tgt_orig) ]}.

Definition ex_sm : sents := {[ Some "1" := mkSeg (Some ex_src_man) (Some ex_tgt_man) ]}.

Definition ex_sa : gmap (option string) (option string) := {[ Some "1" := Some "1" ]}.

Definition ex_out : atag_children :=
  match update_atag ex_so ex_sm ex_sa ex_root [Some "1"] with
  | Ok (_, Some l) => l
  | _ => []
  end.

(** The atag file with one word alignment, from source word 1 to target
    word 1. *)
Definition ex_root_one : Element :=
  ex_el "DTAGalign" [] [
    ex_el "alignFile" [("key", "a"); ("href", "P01_T01.src")] [];
    ex_el "alignFile" [("key", "b"); ("href", "/x/P01_T01.tgt")] [];
    ex_el "salign" [("src", "1"); ("tgt", "1")] [];
    ex_el "align" [("in", "b1"); ("out", "a1")] []].

(** An original source sentence whose two words share the id 1. *)
Definition ex_dup_src_orig : Element := ex_el "tree" [] [ex_word "1" "de"; ex_word "1" "kat"].

Definition ex_dup_so : sents := {[ Some "1" := mkSeg (Some ex_dup_src_orig) (Some ex_tgt_orig) ]}.

(** Two one-word segments whose original source words both have the id
    1; the manual ids are 5 and 7. *)
Definition ex_two_so : sents :=
  {[ Some "1" := mkSeg (Some (ex_el "tree" [] [ex_word "1" "de"])) (Some (ex_el "tree" [] [ex_word "1" "the"]));
     Some "2" := mkSeg (Some (ex_el "tree" [] [ex_word "1" "kat"])) (Some (ex_el "tree" [] [ex_word "1" "cat"])) ]}.

Definition ex_two_sm : sents :=
  {[ Some "1" := mkSeg (Some (ex_el "tree" [] [ex_word "5" "de"])) (Some (ex_el "tree" [] [ex_word "1" "the"]));
     Some "2" := mkSeg (Some (ex_el "tree" [] [ex_word "7" "kat"])) (Some (ex_el "tree" [] [ex_word "1" "cat"])) ]}.

Definition ex_two_sa : gmap (option string) (option string) := {[ Some "1" := Some "1"; Some "2" := Some "2" ]}.

(** The position, [out] and [in] of the children a run of [update_atag]
    writes, when it writes the file. *)
Definition written_links (r : res (bool * option atag_children))
    : option (list (nat * option string * option string)) :=
  match r with
  | Ok (false, Some l) => Some (map (fun ue => (ue.1, get "out" ue.2, get "in" ue.2)) l)
  | _ => None
  end.

(** A manually corrected word file: a word with an entity and a spaced word. *)
Definition ex_wtree : Element :=
  ex_el "Words" [] [
    ex_word "7" "A&amp;B";
    mkEl "W" (list_to_map [("id", "9"); ("space", " ")]) (Some "kat") None []].

(** [html.unescape] on the one entity of [ex_wtree]. *)
Definition ex_unescape (s : string) : string :=
  if String.eqb s "A&amp;B" then "A&B" else s.

Definition ex_pm_out : Element * Z :=
  match process_man_file ex_unescape ex_wtree with
  | Ok r => r
  | Throw _ => (ex_wtree, 0%Z)
  end.

(** ** add_lang_tag.py *)

(** [lst.insert(i, x)] *)
Definition py_insert {A} (i : nat) (x : A) (l : list A) : list A :=
  (take i l ++ x :: drop i l)%list.

(** [ET.Element("Languages", attrib=...)] with its tail set. *)
Definition languages_el (src_lang tgt_lang task : string) (tl : option string) : Element :=
  mkEl "Languages"
       (list_to_map [("source", src_lang); ("target", tgt_lang); ("task", task)])
       None tl [].

Module add_lang_tag.

(** [process_file]: [Ok None] when the file is skipped, [Ok (Some t)] when
    the tree [t] is written back to the input file.  [parent_map] maps every
    element but the root to its parent: the parent of the element at path
    [p ++ [i]] is the element at [p], and [list(parent).index] is [i]. *)
Definition process_file (src_lang tgt_lang task : string) (tree : Element)
    : res (option Element) :=
  match find_desc "Languages" tree with
  | Some _ => Ok None
  | None =>
      match find_desc "lockWindows" tree with
      | None => Throw KeyError
      | Some [] => Throw KeyError
      | Some p =>
          match get_at p tree with
          | None => Throw KeyError
          | Some lock_windows =>
              let languages := languages_el src_lang tgt_lang task (tail lock_windows) in
              Ok (Some (upd_at (removelast p)
                          (fun parent => mkEl (tag parent) (attrib parent) (text parent)
                                              (tail parent)
                                              (py_insert (S (List.last p 0)) languages
                                                         (children parent)))
                          tree))
          end
      end
  end.

End add_lang_tag.

(** ** The batch loops of the [main] functions *)

(** [for x in xs: f(x)]: an exception raised by [f] ends the loop. *)
Fixpoint py_for {A B} (f : A -> res B) (l : list A) : res (list B) :=
  match l with
  | [] => Ok []
  | x :: l' => let! y := f x in let! ys := py_for f l' in Ok (y :: ys)
  end.

(** [s.endswith(suf)] *)
Definition ends_with (s suf : string) : bool :=
  Nat.leb (String.length suf) (String.length s) &&
  String.eqb (substring (String.length s - String.length suf) (String.length suf) s) suf.

(** The input of a [main] that loops over a directory: the trees of its
    files, in [glob] order. *)
Definition add_lang_main (src_lang tgt_lang task : string) (files : list Element)
    : res (list (option Element)) :=
  py_for (add_lang_tag.process_file src_lang tgt_lang task) files.

Module replace_multiling_src.

(** One iteration of the loop of [main]: the file [pfin] is overwritten with
    the bytes of [prepl] (the pair [(pfin, prepl)]); [next] on an empty
    generator raises [StopIteration].  Directories are lists of
    [(p.name, p)] in [glob] order. *)
Definition replace_one (repl_files : list (string * string)) (np : string * string)
    : res (string * string) :=
  match List.find (fun rp => ends_with np.1 rp.1) repl_files with
  | Some rp => Ok (np.2, rp.2)
  | None => Throw StopIteration
  end.

Definition main (repl_files data_files : list (string * string))
    : res (list (string * string)) :=
  py_for (replace_one repl_files) data_files.

End replace_multiling_src.

Module reset_xml_counter_main.

Section main.

(** [process_file(pinp, porig)], which may itself raise. *)
Variable process_file : string -> string -> res unit.

Definition affected (inp_name : string) : bool :=
existsb (ends_with inp_name) ["T04.xml"; "T05.xml"; "T06.xml"].

Definition main_one (orig_files : list (string * string)) (np : string * string)
  : res unit :=
if affected np.1 then
  let! porig := getitem (dict_get np.1 orig_files) in
  process_file np.2 porig
else Ok tt.

Definition main (inp_files orig_files : list (string * string)) : res (list unit) :=
py_for (main_one orig_files) inp_files.

End main.

End reset_xml_counter_main.

(** The exception that stops a loop: the [k]-th item raises [e] and every
    earlier item is processed without raising. *)
Definition first_failure {A B} (f : A -> res B) (l : list A) (e : py_exc) : Prop :=
  exists k x, l !! k = Some x /\ f x = Throw e /\
    forall j y, j < k -> l !! j = Some y -> exists r, f y = Ok r.

(** ** tmx2txt.py *)

Definition nl : string := String "010"%char EmptyString.

(** The contents of a file written by successive [write] calls. *)
Fixpoint str_concat (l : list string) : string :=
  match l with
  | [] => EmptyString
  | s :: l' => s ++ str_concat l'
  end.

(** A translation unit as [unit_iter] yields it: [node.source], [node.target]. *)
Definition tmx_unit : Type := option string * option string.

(** [process]: the contents of the source and of the target output file. *)
Definition tmx_process (units : list tmx_unit) : string * string :=
  (str_concat (map (fun node => py_str node.1 ++ nl) units),
   str_concat (map (fun node => py_str node.2 ++ nl) units)).

(** Number of lines of a text file: its newline characters. *)
Fixpoint count_nl (s : string) : nat :=
  match s with
  | EmptyString => 0
  | String c s' => (if Ascii.eqb c "010"%char then 1 else 0) + count_nl s'
  end.

(** ** reset_xml_counter.py: [fix_char_pos] *)

(** The xpath arguments of [fix_char_pos] are ElementPath expressions
    [.//t1/t2/.../tn]: a descendant step followed by child steps. *)

Definition n_children_at (p : list nat) (e : Element) : nat :=
  match get_at p e with
  | Some x => length (children x)
  | None => 0
  end.

(** A child step [/tg]: the children with tag [tg] of each context element,
    context element after context element. *)
Definition child_step (tg : string) (e : Element) (ctx : list (list nat))
    : list (list nat) :=
  concat (map (fun p => filter (fun q => has_tag tg e q = true)
                               (map (fun i => (p ++ [i])%list) (seq 0 (n_children_at p e))))
              ctx).

(** [e.findall(".//t1/t2/.../tn")], and [e.find] is its first element. *)
Definition findall_xpath (t1 : string) (ts : list string) (e : Element) : list (list nat) :=
  fold_left (fun ctx tg => child_step tg e ctx) ts (findall_desc t1 e).

(** [int(inp_tree.find(xpath).get("Cursor"))] *)
Definition first_cursor (ps : list (list nat)) (inp_tree : Element) : res Z :=
  match head ps with
  | None => Throw AttributeError
  | Some p =>
      match get_at p inp_tree with
      | None => Throw AttributeError
      | Some x =>
          match get "Cursor" x with
          | None => Throw TypeError
          | Some c => match py_int c with
                      | Some z => Ok z
                      | None => Throw ValueError
                      end
          end
      end
  end.

(** The body of the loop for the element at path [p]. *)
Definition fix_char_step (first_char_cursor : Z) (p : list nat) (t : Element) : res Element :=
  match get_at p t with
  | Some char_pos =>
      match get "Cursor" char_pos with
      | Some c =>
          match py_int c with
          | Some z => Ok (upd_at p (set "Cursor" (str_Z (z - first_char_cursor))) t)
          | None => Throw ValueError
          end
      | None => Ok t
      end
  | None => Ok t
  end.

Fixpoint fix_char_loop (first_char_cursor : Z) (ps : list (list nat)) (t : Element)
    : res Element :=
  match ps with
  | [] => Ok t
  | p :: ps' => let! t1 := fix_char_step first_char_cursor p t in
                fix_char_loop first_char_cursor ps' t1
  end.

(** [fix_char_pos(inp_tree, ".//t1/.../tn")]: the mutated tree. *)
Definition fix_char_pos (t1 : string) (ts : list string) (inp_tree : Element) : res Element :=
  let ps := findall_xpath t1 ts inp_tree in
  let! first_char_cursor := first_cursor ps inp_tree in
  fix_char_loop first_char_cursor ps inp_tree.

(** ** Small inputs for the scripts above *)

(** A Translog log file with a lockWindows element inside Project. *)
Definition ex_lock : Element := mkEl "lockWindows" ∅ None (Some nl) [].

Definition ex_project : Element :=
  ex_el "Project" [] [ex_el "Interface" [] []; ex_lock; ex_el "Events" [] []].

Definition ex_log : Element := ex_el "LogFile" [] [ex_project].

Definition ex_cursor (c : string) : Element :=
  ex_el "SourceTextChar" [] [ex_el "CharPos" [("Cursor", c)] []].

(** A tree whose first CharPos does not start at position 0. *)
Definition ex_chars : Element :=
  ex_el "LogFile" [] [ex_cursor "+07"; ex_cursor "9"; ex_el "SourceTextChar" [] [ex_el "CharPos" [] []]; ex_cursor "3"].

(** ** fix_tokenization.py: [verify_cursor] *)

(** [lst[-1]] on an empty list raises [IndexError]; the other exceptions
    are those of [res]. *)
Inductive vc_exc := IndexError | Raised (e : py_exc).

(** [tree.findall(".//W")] *)
Definition words (t : Element) : list Element :=
  omap (fun p => get_at p t) (findall_desc "W" t).

(** [int(w.get("cur")) + len(w.text)] *)
Definition last_cursor (w : Element) : res Z :=
  match get "cur" w with
  | None => Throw TypeError
  | Some c =>
      match py_int c with
      | None => Throw ValueError
      | Some z =>
          match text w with
          | None => Throw TypeError
          | Some tx => Ok (z + Z.of_nat (String.length tx))%Z
          end
      end
  end.

(** [verify_cursor(pforig, pfman, char_diff)] on the two parsed trees: the
    returned bool, or the exception raised. *)
Definition verify_cursor (tree_o tree_m : Element) (char_diff : Z) : vc_exc + bool :=
  match last (words tree_o), last (words tree_m) with
  | Some o_last_word, Some m_last_word =>
      match last_cursor o_last_word with
      | Throw e => inl (Raised e)
      | Ok o_last_cursor =>
          match last_cursor m_last_word with
          | Throw e => inl (Raised e)
          | Ok m_last_cursor => inr (Z.eqb o_last_cursor (m_last_cursor + char_diff))
          end
      end
  | _, _ => inl IndexError
  end.

(** ** atag_fix.py: reading the sentences and the sentence alignment *)

(** [ET.fromstring("<tree/>")] *)
Definition empty_tree : Element := mkEl "tree" ∅ None None [].

(** [el.append(w)] *)
Definition el_append (e w : Element) : Element :=
  mkEl (tag e) (attrib e) (text e) (tail e) (children e ++ [w]).

(** [AtagFixer._extract_sents] on a parsed .src or .tgt file: segment id to
    the tree of the W elements of that segment, in insertion order; the
    tree stored under [seg_id] is the object [append] mutates. *)
Definition extract_step (sents : list (option string * Element)) (word : Element)
    : list (option string * Element) :=
  let seg_id := get "segId" word in
  let tr := match dict_get seg_id sents with
            | Some tr => tr
            | None => empty_tree
            end in
  dict_set seg_id (el_append tr word) sents.

Definition extract_sents_file (t : Element) : list (option string * Element) :=
  fold_left extract_step (words t) [].

(** The body of [AtagFixer.extract_sents] for one identifier: the
    [{"src": ..., "tgt": ...}] entry of every segment. *)
Definition extract_sents_pair (src_sents tgt_sents : list (option string * Element))
    : list (option string * seg_entry) :=
  let res0 := fold_left (fun r '(seg_id, sent) => dict_set seg_id (mkSeg (Some sent) None) r)
                        src_sents [] in
  fold_left (fun r '(seg_id, sent) =>
               match dict_get seg_id r with
               | Some se => dict_set seg_id (mkSeg (seg_src se) (Some sent)) r
               | None => dict_set seg_id (mkSeg None (Some sent)) r
               end)
            tgt_sents res0.

(** [AtagFixer.get_sent_align] for one atag file:
    [{el.get("src"): el.get("tgt") for el in tree.findall(".//salign")}]. *)
Definition get_sent_align_file (t : Element) : gmap (option string) (option string) :=
  fold_left (fun al el => <[get "src" el := get "tgt" el]> al)
            (omap (fun p => get_at p t) (findall_desc "salign" t)) ∅.

(** ** atag_fix.py: the loop over the segments in [fix_atag_alignments] *)

(** The valid source segments of one identifier, from [sents_d.items()]
    ([items]) and the tables [so = self.sents_orig[identifier]],
    [sm = self.sents_man[identifier]], [sa = self.sent_aligns[identifier]];
    or the exception that escapes the loop.  A [KeyError] on the original
    src or tgt tree is caught ([continue]); the others are not. *)
Fixpoint valid_src_segs (so sm : sents) (sa : gmap (option string) (option string))
    (valid : list (option string)) (items : list (option string * seg_entry))
    : res (list (option string)) :=
  match items with
  | [] => Ok valid
  | (src_seg_id, direction_d) :: items' =>
      match seg_src direction_d with
      | None => valid_src_segs so sm sa valid items'
      | Some src_orig_tree =>
          let! src_man_tree := seg_tree sm src_seg_id Src in
          let! tgt_seg_id := getitem (sa !! src_seg_id) in
          match seg_tree so tgt_seg_id Tgt with
          | Throw KeyError => valid_src_segs so sm sa valid items'
          | Throw e => Throw e
          | Ok tgt_orig_tree =>
              let! tgt_man_tree := seg_tree sm tgt_seg_id Tgt in
              if elements_equal src_orig_tree src_man_tree &&
                 elements_equal tgt_orig_tree tgt_man_tree
              then valid_src_segs so sm sa (valid ++ [src_seg_id]) items'
              else valid_src_segs so sm sa valid items'
          end
      end
  end.

(** The original word file of [ex_wtree]: its last W element ends at
    cursor 11. *)
Definition ex_orig_last : Element :=
  mkEl "W" (list_to_map [("cur", "8"); ("id", "2"); ("space", " ")]) (Some "kat") None [].

Definition ex_orig_words : Element :=
  ex_el "Words" [] [
    mkEl "W" (list_to_map [("cur", "0"); ("id", "1")]) (Some "A&amp;B") None [];
    ex_orig_last].

(** ** add_lang_tag.py: [main] *)

(** What [fin] resolves to: a directory (the trees of the files [glob] or
    [rglob] yields), a file, or neither. *)
Inductive fs_path :=
  | Dir (files : list Element)
  | File (t : Element)
  | NoPath.

(** [main(fin, src_lang, tgt_lang, task, recursive)]: for a single file,
    [process_file(pin)] is called with its default arguments. *)
Definition add_lang_main_path (fin : fs_path) (src_lang tgt_lang task : string)
    : res (list (option Element)) :=
  match fin with
  | Dir files => add_lang_main src_lang tgt_lang task files
  | File t => let! r := add_lang_tag.process_file "en" "nl" "translating" t in Ok [r]
  | NoPath => Throw ValueError
  end.

(** ** fix_tokenization.py: [group_files] *)

(** [p.name] of a path given by its string [str(p)]. *)
Definition path_file_name (p : string) : string :=
  string_of_list_ascii (path_name (list_ascii_of_string p)).

(** [group_files(origfs, manfs)], the paths given by their strings:
    [next] over the manual files whose path ends with the name of [pf];
    [StopIteration] is caught and [pf] left out. *)
Definition group_files (origfs manfs : list string) : list (string * string) :=
  fold_left (fun groups pf =>
               match List.find (fun f => ends_with f (path_file_name pf)) manfs with
               | Some f => (groups ++ [(pf, f)])%list
               | None => groups
               end)
            origfs [].

(** ** reset_xml_counter.py: the two [fix_char_pos] calls of [process_file] *)

(** Lines 52-53 of [process_file], on the tree that [fix_events] left. *)
Definition fix_char_both (inp_tree : Element) : res Element :=
  let! t1 := fix_char_pos "SourceTextChar" ["CharPos"] inp_tree in
  fix_char_pos "FinalTextChar" ["CharPos"] t1.

(** A log file with source and final character positions. *)
Definition ex_both_chars : Element :=
  ex_el "LogFile" [] [
    ex_el "SourceTextChar" [] [ex_el "CharPos" [("Cursor", "5")] []; ex_el "CharPos" [("Cursor", "8")] []];
    ex_el "FinalTextChar" [] [ex_el "CharPos" [("Cursor", "2")] []; ex_el "CharPos" [] [];
                              ex_el "CharPos" [("Cursor", "6")] []]].

(* ===================================================================== *)
(** * Proofs *)
(* ===================================================================== *)

(** ** elements_equal *)

Lemma all_zip_Forall2 {A} (f : A -> A -> bool) (l1 l2 : list A) :
  length l1 = length l2 ->
  all_zip f l1 l2 = true <-> Forall2 (fun a b => f a b = true) l1 l2.
Proof.
  revert l2; induction l1 as [|a l1 IH]; intros [|b l2] Hlen; simpl in *;
    try discriminate.
  - split; auto.
  - rewrite andb_true_iff, IH by lia. split.
    + intros [H1 H2]; constructor; auto.
    + intros H; inversion H; subst; auto.
Qed.

Lemma elements_equal_eq (e1 e2 : Element) :
  elements_equal e1 e2 =
  if negb (bool_decide (text e1 = text e2)) then false
  else if negb (Nat.eqb (length (children e1)) (length (children e2))) then false
  else all_zip elements_equal (children e1) (children e2).
Proof. destruct e1, e2; reflexivity. Qed.

Lemma elements_equal_strip (e1 e2 : Element) :
  strip e1 = strip e2 -> elements_equal e1 e2 = true.
Proof.
  revert e2; induction e1 as [tg ats tx tl cs IH]; intros [tg2 ats2 tx2 tl2 cs2] H.
  simpl in H; injection H as -> Htx Hcs; subst tx2.
  rewrite elements_equal_eq; simpl.
  rewrite bool_decide_true by reflexivity; simpl.
  assert (Hlen : length cs = length cs2)
    by (rewrite <- (length_map strip cs), <- (length_map strip cs2), Hcs; reflexivity).
  rewrite Hlen, Nat.eqb_refl; simpl.
  apply all_zip_Forall2; [exact Hlen|].
  revert cs2 Hcs Hlen; induction IH as [|c cs Hc Hcs' IHcs]; intros [|c2 cs2] Hm Hlen;
    simpl in *; try discriminate; constructor.
  - injection Hm as Hm _; auto.
  - injection Hm as _ Hm; auto.
Qed.

Lemma elements_equal_sym (e1 e2 : Element) :
  elements_equal e1 e2 = elements_equal e2 e1.
Proof.
  revert e2; induction e1 as [tg ats tx tl cs IH]; intros [tg2 ats2 tx2 tl2 cs2].
  rewrite !elements_equal_eq; simpl.
  destruct (decide (tx = tx2)) as [->|Hne].
  - rewrite !bool_decide_true by reflexivity; simpl.
    rewrite Nat.eqb_sym.
    destruct (Nat.eqb (length cs2) (length cs)); simpl; [|reflexivity].
    revert cs2; induction IH as [|c cs Hc Hcs IHcs]; intros [|c2 cs2]; simpl; auto.
    rewrite Hc, IHcs; reflexivity.
  - rewrite !bool_decide_false by congruence; reflexivity.
Qed.

(** Claim C10.  [elements_equal] holds exactly when the texts agree, the
    numbers of children agree and corresponding children are recursively
    element-equal; trees that differ only in attributes (for example word
    ids or cursor positions) or tails are judged equal; the relation is
    symmetric. *)
Theorem elements_equal_spec :
  (forall e1 e2 : Element,
     elements_equal e1 e2 = true <->
     text e1 = text e2 /\ length (children e1) = length (children e2) /\
     Forall2 (fun c1 c2 => elements_equal c1 c2 = true) (children e1) (children e2)) /\
  (forall e1 e2 : Element, strip e1 = strip e2 -> elements_equal e1 e2 = true) /\
  (forall e1 e2 : Element, elements_equal e1 e2 = elements_equal e2 e1).
Proof.
  split; [|split; [exact elements_equal_strip | exact elements_equal_sym]].
  intros e1 e2; rewrite elements_equal_eq.
  destruct (decide (text e1 = text e2)) as [Ht|Ht].
  - rewrite bool_decide_true by exact Ht; simpl.
    destruct (Nat.eqb_spec (length (children e1)) (length (children e2))) as [Hl|Hl]; simpl.
    + rewrite all_zip_Forall2 by exact Hl. tauto.
    + split; [discriminate | tauto].
  - rewrite bool_decide_false by exact Ht; simpl. split; [discriminate | tauto].
Qed.

(** ** Paths *)

Definition keeps_shape (f : Element -> Element) : Prop :=
  forall x, tag (f x) = tag x /\ children (f x) = children x.

Lemma desc_go_alter (dp : Element -> list (list nat)) (g : Element -> Element)
    (cs : list Element) (n i : nat) :
  (forall c, dp (g c) = dp c) ->
  desc_go dp n (alter g i cs) = desc_go dp n cs.
Proof.
  intros Hg; revert n i; induction cs as [|c cs IH]; intros n [|i]; simpl;
    try reflexivity.
  - rewrite Hg; reflexivity.
  - f_equal. f_equal. apply IH.
Qed.

Lemma desc_paths_upd (p : list nat) (f : Element -> Element) (e : Element) :
  keeps_shape f -> desc_paths (upd_at p f e) = desc_paths e.
Proof.
  intros Hf; revert e; induction p as [|i p IH]; intros e; simpl.
  - destruct e as [tg ats tx tl cs]; simpl.
    destruct (f _) as [tg' ats' tx' tl' cs'] eqn:E.
    destruct (Hf (mkEl tg ats tx tl cs)) as [_ Hc]; rewrite E in Hc; simpl in Hc.
    subst cs'; reflexivity.
  - destruct e as [tg ats tx tl cs]; simpl.
    apply desc_go_alter; intros c; apply IH.
Qed.

Lemma loc_at_upd (p q : list nat) (f : Element -> Element) (e : Element) :
  keeps_shape f ->
  loc_at q (upd_at p f e) =
  if decide (q = p) then option_map (fun x => loc (f x)) (get_at p e)
  else loc_at q e.
Proof.
  intros Hf; unfold loc_at; revert p e; induction q as [|j q IH]; intros p e.
  - destruct p as [|i p]; simpl; [reflexivity|].
    destruct e; reflexivity.
  - destruct p as [|i p]; simpl.
    + destruct (Hf e) as [_ Hc]; rewrite Hc; reflexivity.
    + destruct e as [tg ats tx tl cs]; simpl.
      destruct (decide (j = i)) as [->|Hji].
      * rewrite list_lookup_alter.
        destruct (cs !! i) as [c|]; simpl; rewrite ?decide_True by reflexivity.
        -- rewrite IH. destruct (decide (q = p)), (decide (i :: q = i :: p));
             congruence.
        -- destruct (decide (i :: q = i :: p)); reflexivity.
      * rewrite list_lookup_alter_ne by congruence.
        destruct (decide (j :: q = i :: p)); [congruence | reflexivity].
Qed.

Lemma get_at_upd_none (p q : list nat) (f : Element -> Element) (e : Element) :
  keeps_shape f ->
  (get_at q (upd_at p f e) = None <-> get_at q e = None).
Proof.
  intros Hf. pose proof (loc_at_upd p q f e Hf) as H; unfold loc_at in H.
  destruct (decide (q = p)) as [->|]; [|].
  - destruct (get_at p (upd_at p f e)), (get_at p e); simpl in H;
      split; congruence.
  - destruct (get_at q (upd_at p f e)), (get_at q e); simpl in H;
      split; congruence.
Qed.

Lemma tag_at_upd (p q : list nat) (f : Element -> Element) (e : Element) :
  keeps_shape f ->
  option_map tag (get_at q (upd_at p f e)) = option_map tag (get_at q e).
Proof.
  intros Hf. pose proof (loc_at_upd p q f e Hf) as H; unfold loc_at in H.
  destruct (decide (q = p)) as [->|].
  - destruct (get_at p (upd_at p f e)) as [x|], (get_at p e) as [y|];
      simpl in H; try discriminate; [|reflexivity].
    injection H as Ht _ _ _; simpl. destruct (Hf y) as [Hy _]. congruence.
  - destruct (get_at q (upd_at p f e)), (get_at q e); simpl in H;
      try discriminate; [|reflexivity].
    injection H as Ht _ _ _; simpl; congruence.
Qed.

Lemma has_tag_upd (tg : string) (p q : list nat) (f : Element -> Element) (e : Element) :
  keeps_shape f -> has_tag tg (upd_at p f e) q = has_tag tg e q.
Proof.
  intros Hf; unfold has_tag. pose proof (tag_at_upd p q f e Hf) as H.
  destruct (get_at q (upd_at p f e)), (get_at q e); simpl in H; congruence.
Qed.

Lemma findall_desc_upd (tg : string) (p : list nat) (f : Element -> Element) (e : Element) :
  keeps_shape f -> findall_desc tg (upd_at p f e) = findall_desc tg e.
Proof.
  intros Hf; unfold findall_desc. rewrite desc_paths_upd by exact Hf.
  apply list_filter_iff; intros q. rewrite has_tag_upd by exact Hf; reflexivity.
Qed.

(** Every path of [desc_go] starts with an index at least [n]. *)
Lemma desc_go_props (dp : Element -> list (list nat)) (n : nat) (cs : list Element) :
  Forall (fun c => NoDup (dp c) /\ forall q, q ∈ dp c -> q <> []) cs ->
  NoDup (desc_go dp n cs) /\
  (forall q, q ∈ desc_go dp n cs -> exists j q', q = j :: q' /\ n <= j).
Proof.
  revert n; induction cs as [|c cs IH]; intros n Hall; simpl.
  - split; [constructor | intros q Hq; inversion Hq].
  - inversion Hall as [|? ? [Hnd Hne] Hrest]; subst.
    destruct (IH (S n) Hrest) as [IHnd IHst].
    split.
    + constructor.
      * intros Hin. apply elem_of_app in Hin as [Hin|Hin].
        -- rewrite list_elem_of_fmap in Hin. destruct Hin as [q [Hq Hin]].
           injection Hq as Hq. exact (Hne q Hin (eq_sym Hq)).
        -- destruct (IHst _ Hin) as [j [q' [Hq Hj]]]. injection Hq as <- _. lia.
      * apply NoDup_app; split; [|split].
        -- apply NoDup_fmap; [intros x y Hxy; injection Hxy; auto | exact Hnd].
        -- intros q Hq Hq2. destruct (IHst q Hq2) as [j [q' [-> Hj]]].
           rewrite list_elem_of_fmap in Hq. destruct Hq as [r [Hr _]].
           injection Hr as Hr _. lia.
        -- exact IHnd.
    + intros q Hq. apply elem_of_cons in Hq as [->|Hq].
      * exists n, []; split; [reflexivity | lia].
      * apply elem_of_app in Hq as [Hq|Hq].
        -- rewrite list_elem_of_fmap in Hq. destruct Hq as [r [-> _]].
           exists n, r; split; [reflexivity | lia].
        -- destruct (IHst q Hq) as [j [q' [-> Hj]]]. exists j, q'; split; [reflexivity | lia].
Qed.

Lemma desc_paths_nodup (e : Element) :
  NoDup (desc_paths e) /\ forall q, q ∈ desc_paths e -> q <> [].
Proof.
  induction e as [tg ats tx tl cs IH]; simpl.
  destruct (desc_go_props desc_paths 0 cs IH) as [Hnd Hst].
  split; [exact Hnd|].
  intros q Hq. destruct (Hst q Hq) as [j [q' [-> _]]]. discriminate.
Qed.

Lemma findall_desc_nodup (tg : string) (e : Element) : NoDup (findall_desc tg e).
Proof. apply NoDup_filter, desc_paths_nodup. Qed.

Lemma findall_desc_valid (tg : string) (e : Element) (p : list nat) :
  p ∈ findall_desc tg e -> exists w, get_at p e = Some w /\ tag w = tg.
Proof.
  unfold findall_desc. rewrite list_elem_of_filter. intros [Ht _].
  unfold has_tag in Ht. destruct (get_at p e) as [w|]; [|discriminate].
  exists w; split; [reflexivity|]. apply String.eqb_eq; exact Ht.
Qed.

(** ** fix_tokenization: the loop over the W elements *)

Lemma keeps_shape_word (ats : gmap string string) (tx : option string) :
  keeps_shape (fun x => mkEl (tag x) ats tx (tail x) (children x)).
Proof. intros x; split; reflexivity. Qed.

Lemma loc_at_some (q : list nat) (e : Element) (l : _) :
  loc_at q e = Some l -> exists w, get_at q e = Some w /\ loc w = l.
Proof.
  unfold loc_at; destruct (get_at q e) as [w|]; simpl; [|discriminate].
  intros H; injection H as <-; eauto.
Qed.

Lemma space_len_loc (w1 w2 : Element) : loc w1 = loc w2 -> space_len w1 = space_len w2.
Proof.
  destruct w1, w2; unfold loc; simpl; intros H; injection H as _ Ha _ _.
  unfold space_len, get; simpl; subst; reflexivity.
Qed.

Lemma process_words_spec (unescape : string -> string) (t : Element) :
  forall (ps : list (list nat)) (cur : Z) (id : nat) (diff : Z) (t0 t' : Element) (d : Z),
  NoDup ps ->
  (forall p, p ∈ ps -> exists w0 w, get_at p t0 = Some w0 /\ get_at p t = Some w /\
                                    loc w0 = loc w) ->
  process_words unescape ps cur id diff t0 = Ok (t', d) ->
  (forall q, q ∉ ps -> loc_at q t' = loc_at q t0) /\
  (forall q, option_map tag (get_at q t') = option_map tag (get_at q t0)) /\
  desc_paths t' = desc_paths t0 /\
  (forall n p w, ps !! n = Some p -> get_at p t = Some w ->
     exists w', get_at p t' = Some w' /\
       get "id" w' = Some (str_nat (id + n)) /\
       get "cur" w' = Some (str_Z (cur + sum_Z (map (advance unescape)
                                     (take n (omap (fun p => get_at p t) ps)))
                                   + space_len w)) /\
       text w' = option_map unescape (text w)) /\
  d = (diff + sum_Z (map (removed unescape) (omap (fun p => get_at p t) ps)))%Z.
Proof.
  induction ps as [|p ps IH]; intros cur id diff t0 t' d Hnd Hval Hrun; simpl in Hrun.
  - injection Hrun as <- <-. split; [auto|split; [auto|split; [auto|split]]].
    + intros n p w Hn; rewrite lookup_nil in Hn; discriminate.
    + simpl; lia.
  - inversion Hnd as [|? ? Hnotin Hnd']; subst.
    destruct (Hval p (list_elem_of_here _ _)) as [w0 [w [Hw0 [Hw Hloc]]]].
    rewrite Hw0 in Hrun.
    destruct (text w0) as [tx|] eqn:Htx; [|discriminate].
    set (ats := <["id" := str_nat id]> (<["cur" := str_Z (cur + space_len w0)]> (attrib w0))) in Hrun.
    set (F := fun x => mkEl (tag x) ats (Some (unescape tx)) (tail x) (children x)) in Hrun.
    assert (HF : keeps_shape F) by apply keeps_shape_word.
    set (t1 := upd_at p F t0) in Hrun.
    assert (Hval1 : forall q, q ∈ ps -> exists w0 w, get_at q t1 = Some w0 /\
                                          get_at q t = Some w /\ loc w0 = loc w).
    { intros q Hq. destruct (Hval q (list_elem_of_further _ _ _ Hq)) as [v0 [v [Hv0 [Hv Hl]]]].
      pose proof (loc_at_upd p q F t0 HF) as E.
      rewrite decide_False in E by (intros ->; contradiction).
      unfold loc_at in E at 2; rewrite Hv0 in E; simpl in E.
      destruct (loc_at_some _ _ _ E) as [v1 [Hv1 Hl1]].
      exists v1, v; repeat split; auto. congruence. }
    destruct (IH _ _ _ _ _ _ Hnd' Hval1 Hrun) as [Hfr [Htag [Hdesc [Hw' Hd]]]].
    assert (Hp1 : loc_at p t1 = Some (loc (F w0))).
    { unfold t1. rewrite loc_at_upd by exact HF. rewrite decide_True by reflexivity.
      rewrite Hw0; reflexivity. }
    assert (Htx' : text w = Some tx) by (unfold loc in Hloc; congruence).
    assert (Homap : omap (fun p => get_at p t) (p :: ps) =
                    w :: omap (fun p => get_at p t) ps)
      by (cbn; rewrite Hw; reflexivity).
    rewrite Homap.
    split; [|split; [|split; [|split]]].
    + intros q Hq. rewrite Hfr by (intros Hin; apply Hq; right; exact Hin).
      unfold t1. rewrite loc_at_upd by exact HF.
      rewrite decide_False by (intros ->; apply Hq; left). reflexivity.
    + intros q. rewrite Htag. unfold t1. apply tag_at_upd; exact HF.
    + rewrite Hdesc. unfold t1. apply desc_paths_upd; exact HF.
    + intros [|n] q v Hq Hv.
      * simpl in Hq; injection Hq as <-. rewrite Hw in Hv; injection Hv as <-.
        assert (Hpt : loc_at p t' = Some (loc (F w0))) by (rewrite Hfr by exact Hnotin; exact Hp1).
        destruct (loc_at_some _ _ _ Hpt) as [v' [Hv' Hl']].
        exists v'; split; [exact Hv'|].
        unfold F, loc in Hl'; simpl in Hl'. injection Hl' as _ Hat Htxt _.
        unfold get; rewrite Hat. unfold ats.
        split; [|split].
        -- rewrite lookup_insert_eq, Nat.add_0_r; reflexivity.
        -- rewrite lookup_insert_ne by discriminate. rewrite lookup_insert_eq.
           simpl. rewrite (space_len_loc w0 w Hloc). do 2 f_equal. lia.
        -- rewrite Htxt, Htx'; reflexivity.
      * simpl in Hq. destruct (Hw' n q v Hq Hv) as [v' [Hv' [Hid [Hcur Htxt]]]].
        exists v'; split; [exact Hv'|]. split; [|split].
        -- rewrite Hid; do 2 f_equal; lia.
        -- rewrite Hcur. simpl. unfold advance. rewrite Htx'; simpl.
           rewrite (space_len_loc w0 w Hloc). do 2 f_equal. lia.
        -- exact Htxt.
    + rewrite Hd. simpl. unfold removed. rewrite Htx'; simpl. lia.
Qed.

Lemma omap_length_all (f : list nat -> option Element) (ps : list (list nat)) :
  (forall p, p ∈ ps -> f p <> None) -> length (omap f ps) = length ps.
Proof.
  induction ps as [|p ps IH]; intros H; [reflexivity|].
  cbn. destruct (f p) eqn:E.
  - simpl; f_equal; apply IH; intros q Hq; apply H; right; exact Hq.
  - exfalso; apply (H p); [left | exact E].
Qed.

(** Claim C3.  After [process_man_file] runs, the n-th W element (n from
    1, here index [n] from 0) has id [str(n)] and cur equal to the sum over
    the earlier W elements of their space length plus the length of their
    unescaped text, plus its own space length; the W elements are the
    same ones; the result is the number of characters removed by
    unescaping. *)
Theorem process_man_file_spec (unescape : string -> string) (t t' : Element) (d : Z) :
  process_man_file unescape t = Ok (t', d) ->
  let ps := findall_desc "W" t in
  let ws := omap (fun p => get_at p t) ps in
  findall_desc "W" t' = ps /\
  length ws = length ps /\
  (forall n p w, ps !! n = Some p -> get_at p t = Some w ->
     exists w', get_at p t' = Some w' /\
       get "id" w' = Some (str_nat (S n)) /\
       get "cur" w' = Some (str_Z (sum_Z (map (advance unescape) (take n ws))
                                   + space_len w)) /\
       text w' = option_map unescape (text w)) /\
  d = sum_Z (map (removed unescape) ws).
Proof.
  intros Hrun ps ws.
  assert (Hval : forall p, p ∈ ps -> exists w0 w, get_at p t = Some w0 /\
                                       get_at p t = Some w /\ loc w0 = loc w).
  { intros p Hp. destruct (findall_desc_valid "W" t p Hp) as [w [Hw _]]. eauto. }
  destruct (process_words_spec unescape t ps 0 1 0 t t' d
              (findall_desc_nodup "W" t) Hval Hrun) as [_ [Htag [Hdesc [Hw Hd]]]].
  split; [|split; [|split]].
  - unfold ps, findall_desc. rewrite Hdesc. apply list_filter_iff; intros q.
    unfold has_tag. specialize (Htag q).
    destruct (get_at q t'), (get_at q t); simpl in Htag; try discriminate;
      [injection Htag as ->|]; reflexivity.
  - apply omap_length_all. intros p Hp. destruct (Hval p Hp) as [w0 [_ [H _]]].
    rewrite H; discriminate.
  - intros n p w Hn Hp. destruct (Hw n p w Hn Hp) as [w' [H1 [H2 [H3 H4]]]].
    exists w'; repeat split; auto.
  - rewrite Hd; apply Z.add_0_l.
Qed.

(** ** update_atag: removing the matched children *)

Definition rem_step (l : atag_children) (ue : nat * Element) : atag_children :=
  remove_uid ue.1 l.

Lemma fold_remove_notin (L l : atag_children) (x : nat * Element) :
  Forall (fun ue => ue.1 <> x.1) L ->
  fold_left rem_step L (x :: l) = x :: fold_left rem_step L l.
Proof.
  revert l; induction L as [|y L IH]; intros l HL; simpl; [reflexivity|].
  inversion HL as [|? ? Hy HL']; subst.
  unfold rem_step at 2; simpl.
  destruct (Nat.eqb_spec x.1 y.1) as [E|_]; [congruence|].
  apply IH; exact HL'.
Qed.

Lemma remove_filter (P : nat * Element -> bool) (l : atag_children) :
  NoDup (map fst l) ->
  fold_left rem_step (filter (fun ue => P ue = true) l) l =
  filter (fun ue => P ue = false) l.
Proof.
  induction l as [|x l IH]; intros Hnd; [reflexivity|].
  simpl in Hnd; inversion Hnd as [|? ? Hx Hnd']; subst.
  rewrite !filter_cons.
  destruct (P x) eqn:Px.
  - rewrite decide_True by reflexivity. rewrite decide_False by congruence.
    simpl. unfold rem_step at 2; simpl. rewrite Nat.eqb_refl. apply IH; exact Hnd'.
  - rewrite decide_False by congruence. rewrite decide_True by reflexivity.
    rewrite fold_remove_notin.
    + f_equal; apply IH; exact Hnd'.
    + apply Forall_forall. intros y Hy Hxy. apply Hx.
      rewrite <- Hxy. apply list_elem_of_fmap_2.
      apply list_elem_of_filter in Hy; apply Hy.
Qed.

(** ** update_atag: one matched element, all matched elements *)

Lemma get_set_ne (k k' v : string) (e : Element) :
  k <> k' -> get k (set k' v e) = get k e.
Proof. intros H; unfold get, set; simpl; apply lookup_insert_ne; congruence. Qed.

Lemma get_set_eq (k v : string) (e : Element) : get k (set k v e) = Some v.
Proof. unfold get, set; simpl; apply lookup_insert_eq. Qed.

Lemma tag_set (k v : string) (e : Element) : tag (set k v e) = tag e.
Proof. reflexivity. Qed.

Lemma remap_el_next akf tm ksrc m (ue : nat * Element) (st st' : atag_state) :
  remap_el akf tm ksrc m ue st = Next st' ->
  exists e2, st' = (remove_uid ue.1 st.1, (st.2 ++ [(ue.1, e2)])%list) /\
             remap_spec akf tm ksrc m ue.2 e2.
Proof.
  unfold remap_el. rewrite get_set_ne by discriminate.
  destruct (get "in" ue.2) as [i|] eqn:Hi; [|discriminate].
  destruct (dict_get "tgt" akf) as [ktgt|] eqn:Hk; [|discriminate].
  destruct (dict_get (Some (drop1 i)) tm) as [mm|] eqn:Hm; [|discriminate].
  intros H; injection H as <-.
  eexists; split; [reflexivity|]. exists i, ktgt, mm; repeat split; assumption.
Qed.

Lemma remap_all_next akf tm ksrc m (els : atag_children) :
  forall st st', remap_all akf tm ksrc m els st = Next st' ->
  st'.1 = fold_left rem_step els st.1 /\
  exists app, st'.2 = (st.2 ++ app)%list /\
    Forall2 (fun ue ue2 => ue2.1 = ue.1 /\ remap_spec akf tm ksrc m ue.2 ue2.2) els app.
Proof.
  induction els as [|x els IH]; intros st st' H; simpl in H.
  - injection H as <-. split; [reflexivity|]. exists []; rewrite app_nil_r; split; auto.
  - destruct (remap_el akf tm ksrc m x st) as [st1| |] eqn:E; try discriminate.
    destruct (remap_el_next _ _ _ _ _ _ _ E) as [e2 [-> Hspec]].
    destruct (IH _ _ H) as [H1 [app [H2 Happ]]].
    split; [exact H1|].
    exists ((x.1, e2) :: app). simpl in H2. rewrite <- app_assoc in H2.
    split; [exact H2|]. constructor; [split; [reflexivity | exact Hspec] | exact Happ].
Qed.

(** ** update_atag: the loop invariant *)

Lemma nodup_fst_filter (P : nat * Element -> Prop) `{!forall x, Decision (P x)}
    (l : atag_children) :
  NoDup (map fst l) -> NoDup (map fst (filter P l)).
Proof.
  induction l as [|x l IH]; intros Hl; [constructor|].
  simpl in Hl; inversion Hl as [|? ? Hx Hl']; subst.
  rewrite filter_cons. destruct (decide (P x)); [|auto].
  simpl; constructor; [|auto].
  intros Hin; apply Hx.
  apply list_elem_of_fmap in Hin as [y [-> Hy]].
  apply list_elem_of_filter in Hy as [_ Hy].
  apply list_elem_of_fmap_2; exact Hy.
Qed.

Lemma uid_unique (l : atag_children) (u : nat) (e e' : Element) :
  NoDup (map fst l) -> (u, e) ∈ l -> (u, e') ∈ l -> e = e'.
Proof.
  induction l as [|[u0 e0] l IH]; intros Hnd H1 H2; [inversion H1|].
  simpl in Hnd; inversion Hnd as [|? ? Hx Hnd']; subst.
  apply elem_of_cons in H1 as [H1|H1]; apply elem_of_cons in H2 as [H2|H2].
  - congruence.
  - injection H1 as -> ->. exfalso; apply Hx.
    apply (list_elem_of_fmap_2 fst) in H2; exact H2.
  - injection H2 as -> ->. exfalso; apply Hx.
    apply (list_elem_of_fmap_2 fst) in H1; exact H1.
  - eauto.
Qed.

Lemma unqueried_app (Q1 Q2 : list string) (ue : nat * Element) :
  unqueried (Q1 ++ Q2) ue = unqueried Q1 ue && unqueried Q2 ue.
Proof. unfold unqueried; apply forallb_app. Qed.

Lemma unqueried_one (v : string) (ue : nat * Element) :
  unqueried [v] ue = negb (is_align_out v ue).
Proof. unfold unqueried; simpl; apply andb_true_r. Qed.

Lemma Forall2_in_l {A B} (R : A -> B -> Prop) (l1 : list A) (l2 : list B) (x : A) :
  Forall2 R l1 l2 -> x ∈ l1 -> exists y, y ∈ l2 /\ R x y.
Proof.
  intros HF Hx. apply list_elem_of_lookup in Hx as [i Hi].
  destruct (Forall2_lookup_l _ _ _ _ _ HF Hi) as [y [Hy HR]].
  exists y; split; [apply list_elem_of_lookup; eauto | exact HR].
Qed.

Lemma Forall2_in_r {A B} (R : A -> B -> Prop) (l1 : list A) (l2 : list B) (y : B) :
  Forall2 R l1 l2 -> y ∈ l2 -> exists x, x ∈ l1 /\ R x y.
Proof.
  intros HF Hy. apply list_elem_of_lookup in Hy as [i Hi].
  destruct (Forall2_lookup_r _ _ _ _ _ HF Hi) as [x [Hx HR]].
  exists x; split; [apply list_elem_of_lookup; eauto | exact HR].
Qed.

Section atag_invariant.

Variable akf : list (string * option string).
Variables (so sm : sents) (sa : gmap (option string) (option string)).
(** The children of the parsed root and the non-align ones kept. *)
Variables tr0 valid0 : atag_children.
Hypothesis Hnd0 : NoDup (map fst tr0).
(** What is known of the target mapping, the src key and the manual id
    used by each remapping. *)
Variable R : list (option string * option string) -> option string -> option string -> Prop.

Definition atag_inv (Q : list string) (st : atag_state) (app : atag_children) : Prop :=
  st.1 = filter (fun ue => unqueried Q ue = true) tr0 /\
  st.2 = (valid0 ++ app)%list /\
  Forall (fun ue2 => exists e, (ue2.1, e) ∈ tr0 /\ unqueried Q (ue2.1, e) = false /\
                       exists tm ksrc m, R tm ksrc m /\ remap_spec akf tm ksrc m e ue2.2) app /\
  NoDup (map fst app) /\
  (forall u e, (u, e) ∈ tr0 -> unqueried Q (u, e) = false -> exists e2, (u, e2) ∈ app).

Lemma atag_inv_init : atag_inv [] (tr0, valid0) [].
Proof.
  split; [|split; [|split; [|split]]].
  - simpl. symmetry. clear Hnd0. induction tr0 as [|x l IH]; [reflexivity|].
    rewrite filter_cons_True by reflexivity. congruence.
  - simpl; rewrite app_nil_r; reflexivity.
  - constructor.
  - constructor.
  - intros u e _ H; discriminate.
Qed.

Lemma atag_inv_query (Q : list string) (v : string) tm ksrc m
    (st st' : atag_state) (app : atag_children) :
  R tm ksrc m ->
  atag_inv Q st app ->
  remap_all akf tm ksrc m (filter (fun ue => is_align_out v ue = true) st.1) st = Next st' ->
  exists app', atag_inv (Q ++ [v]) st' (app ++ app') /\
    Forall2 (fun ue ue2 => ue2.1 = ue.1 /\ remap_spec akf tm ksrc m ue.2 ue2.2)
            (filter (fun ue => is_align_out v ue = true) st.1) app'.
Proof.
  intros HR [H1 [H2 [H3 [H4 H5]]]] Hrun.
  destruct (remap_all_next _ _ _ _ _ _ _ Hrun) as [E1 [app' [E2 HF]]].
  set (els := filter (fun ue => is_align_out v ue = true) st.1) in *.
  assert (Hnd1 : NoDup (map fst st.1)) by (rewrite H1; apply nodup_fst_filter; exact Hnd0).
  assert (Hels : forall ue, ue ∈ els -> ue ∈ tr0 /\ unqueried Q ue = true /\
                                       is_align_out v ue = true).
  { intros ue Hue. unfold els in Hue. apply list_elem_of_filter in Hue as [Hv Hue].
    rewrite H1 in Hue. apply list_elem_of_filter in Hue as [Hq Hue]. auto. }
  exists app'. split; [|exact HF].
  split; [|split; [|split; [|split]]].
  - rewrite E1. unfold els. rewrite remove_filter by exact Hnd1.
    rewrite H1, list_filter_filter. apply list_filter_iff.
    intros ue. rewrite unqueried_app, unqueried_one.
    destruct (unqueried Q ue), (is_align_out v ue); simpl; intuition congruence.
  - rewrite E2, H2, app_assoc; reflexivity.
  - apply Forall_app; split.
    + eapply Forall_impl; [exact H3|]. intros ue2 [e [He [Hq Hr]]].
      exists e; split; [exact He|]. split; [|exact Hr].
      rewrite unqueried_app, Hq; reflexivity.
    + apply Forall_forall. intros ue2 Hue2.
      destruct (Forall2_in_r _ _ _ _ HF Hue2) as [ue [Hue [Hid Hr]]].
      destruct (Hels ue Hue) as [Hin [Hq Hv]].
      exists ue.2. rewrite Hid. destruct ue as [u e]; simpl.
      split; [exact Hin|]. split.
      * rewrite unqueried_app, unqueried_one, Hv, andb_false_r; reflexivity.
      * exists tm, ksrc, m; auto.
  - rewrite map_app. apply NoDup_app; split; [exact H4|split].
    + intros u Hu Hu'.
      apply list_elem_of_fmap in Hu as [[u1 e1] [-> Hin1]].
      apply list_elem_of_fmap in Hu' as [[u2 e2] [Hu2 Hin2]]. simpl in Hu2 |- *.
      destruct (Forall2_in_r _ _ _ _ HF Hin2) as [[u3 e3] [Hin3 [Hid _]]].
      simpl in Hid; subst u2 u3.
      rewrite Forall_forall in H3. destruct (H3 _ Hin1) as [e4 [Hin4 [Hq4 _]]].
      destruct (Hels _ Hin3) as [Hin3' [Hq3 _]]. simpl in Hin4, Hq4.
      rewrite (uid_unique tr0 u1 e4 e3 Hnd0 Hin4 Hin3') in Hq4. congruence.
    + assert (Hmap : map fst app' = map fst els).
      { clear -HF. induction HF as [|x y l1 l2 [Hxy _] _ IH]; simpl; congruence. }
      rewrite Hmap. unfold els. apply nodup_fst_filter; exact Hnd1.
  - intros u e Hin Hq. rewrite unqueried_app, unqueried_one in Hq.
    destruct (unqueried Q (u, e)) eqn:Hq0.
    + simpl in Hq. apply negb_false_iff in Hq.
      assert (Hel : (u, e) ∈ els).
      { unfold els. apply list_elem_of_filter; split; [exact Hq|].
        rewrite H1. apply list_elem_of_filter; split; assumption. }
      destruct (Forall2_in_l _ _ _ _ HF Hel) as [[u2 e2] [Hin2 [Hid _]]].
      simpl in Hid; subst u2. exists e2. apply elem_of_app; right; exact Hin2.
    + destruct (H5 u e Hin Hq0) as [e2 He2]. exists e2.
      apply elem_of_app; left; exact He2.
Qed.

Lemma qvals_cons (o m : option string) items :
  qvals akf ((o, m) :: items) = (py_str (akf_src akf) ++ py_str o) :: qvals akf items.
Proof. reflexivity. Qed.

Lemma atag_inv_tokens tm (items : list (option string * option string))
    (Q : list string) (st st' : atag_state) (app : atag_children) :
  (forall o m ksrc, (o, m) ∈ items -> dict_get "src" akf = Some ksrc -> R tm ksrc m) ->
  atag_inv Q st app ->
  remap_tokens akf tm items st = Next st' ->
  exists app', atag_inv (Q ++ qvals akf items) st' (app ++ app') /\
    (forall k o m u e, items !! k = Some (o, m) -> (u, e) ∈ tr0 ->
       unqueried (Q ++ qvals akf (take k items)) (u, e) = true ->
       is_align_out (py_str (akf_src akf) ++ py_str o) (u, e) = true ->
       exists e2, (u, e2) ∈ app' /\ remap_spec akf tm (akf_src akf) m e e2).
Proof.
  revert Q st app.
  induction items as [|[o m] items IH]; intros Q st app HRi Hinv Hrun.
  - simpl in Hrun. injection Hrun as <-. exists [].
    unfold qvals; simpl; rewrite !app_nil_r. split; [exact Hinv|].
    intros k o m u e Hk; rewrite lookup_nil in Hk; discriminate.
  - simpl in Hrun. destruct (dict_get "src" akf) as [ksrc|] eqn:Hs; [|discriminate].
    assert (Hsrc : akf_src akf = ksrc) by (unfold akf_src; rewrite Hs; reflexivity).
    destruct (remap_all akf tm ksrc m _ st) as [st1| |] eqn:Hra; try discriminate.
    assert (HR : R tm ksrc m) by (apply HRi with o; [apply list_elem_of_here | reflexivity]).
    destruct (atag_inv_query _ _ _ _ _ _ _ _ HR Hinv Hra) as [app1 [Hinv1 HF1]].
    assert (HRi' : forall o m k1, (o, m) ∈ items -> Some ksrc = Some k1 -> R tm k1 m)
      by (intros o1 m1 k1 Hin1; apply (HRi o1); apply list_elem_of_further; exact Hin1).
    destruct (IH _ _ _ HRi' Hinv1 Hrun) as [app2 [Hinv2 Hk2]].
    exists (app1 ++ app2)%list. split.
    + rewrite qvals_cons, Hsrc, app_assoc.
      rewrite <- (app_assoc Q [_] _) in Hinv2. exact Hinv2.
    + intros [|k] o' m' u e Hk Hin Hq Hv.
      * simpl in Hk. injection Hk as <- <-.
        rewrite Hsrc in Hv |- *. simpl in Hq. rewrite app_nil_r in Hq.
        destruct Hinv as [H1 _].
        assert (Hel : (u, e) ∈ filter (fun ue => is_align_out (py_str ksrc ++ py_str o) ue = true) st.1).
        { apply list_elem_of_filter; split; [exact Hv|].
          rewrite H1. apply list_elem_of_filter; split; assumption. }
        destruct (Forall2_in_l _ _ _ _ HF1 Hel) as [[u2 e2] [Hin2 [Hid Hr]]].
        simpl in Hid, Hr; subst u2. exists e2. split; [|exact Hr].
        apply elem_of_app; left; exact Hin2.
      * simpl in Hk. simpl take in Hq. rewrite qvals_cons, Hsrc in Hq.
        match type of Hq with context [ (Q ++ ?v :: ?X)%list ] =>
          change (Q ++ v :: X)%list with (Q ++ [v] ++ X)%list in Hq end.
        rewrite (app_assoc Q [_] _) in Hq.
        destruct (Hk2 k o' m' u e Hk Hin Hq Hv) as [e2 [Hin2 Hr]].
        exists e2. split; [|exact Hr]. apply elem_of_app; right; exact Hin2.
Qed.

Lemma seg_queries_cons (s : option string) segs :
  seg_queries so sm akf (s :: segs) =
    ((match orig_man_mapping so sm s Src with
      | Ok mp => qvals akf mp
      | Throw _ => []
      end) ++ seg_queries so sm akf segs)%list.
Proof. reflexivity. Qed.

Lemma atag_inv_segs (segs : list (option string))
    (Q : list string) (st st' : atag_state) (app : atag_children) :
  (forall s ts src_map tm o m ksrc, s ∈ segs -> sa !! s = Some ts ->
     orig_man_mapping so sm s Src = Ok src_map -> orig_man_mapping so sm ts Tgt = Ok tm ->
     (o, m) ∈ src_map -> dict_get "src" akf = Some ksrc -> R tm ksrc m) ->
  atag_inv Q st app ->
  remap_segs so sm sa akf segs st = Next st' ->
  exists app', atag_inv (Q ++ seg_queries so sm akf segs) st' (app ++ app') /\
    (forall j s ts src_map tm k o m u e,
       segs !! j = Some s -> sa !! s = Some ts ->
       orig_man_mapping so sm s Src = Ok src_map ->
       orig_man_mapping so sm ts Tgt = Ok tm ->
       src_map !! k = Some (o, m) -> (u, e) ∈ tr0 ->
       unqueried (Q ++ seg_queries so sm akf (take j segs) ++ qvals akf (take k src_map)) (u, e) = true ->
       is_align_out (py_str (akf_src akf) ++ py_str o) (u, e) = true ->
       exists e2, (u, e2) ∈ app' /\ remap_spec akf tm (akf_src akf) m e e2).
Proof.
  revert Q st app.
  induction segs as [|s segs IH]; intros Q st app HRs Hinv Hrun.
  - simpl in Hrun. injection Hrun as <-. exists [].
    unfold seg_queries; simpl; rewrite !app_nil_r. split; [exact Hinv|].
    intros j s ts src_map tm k o m u e Hj; rewrite lookup_nil in Hj; discriminate.
  - simpl in Hrun. destruct (sa !! s) as [ts|] eqn:Hts; [|discriminate].
    destruct (orig_man_mapping so sm s Src) as [src_map|] eqn:Hsm; [|discriminate].
    destruct (orig_man_mapping so sm ts Tgt) as [tm|] eqn:Htm; [|discriminate].
    destruct (remap_tokens akf tm src_map st) as [st1| |] eqn:Hrt; try discriminate.
    assert (HRi : forall o m ksrc, (o, m) ∈ src_map -> dict_get "src" akf = Some ksrc -> R tm ksrc m)
      by (intros o m ksrc; apply (HRs s ts); [apply list_elem_of_here | assumption..]).
    destruct (atag_inv_tokens _ _ _ _ _ _ HRi Hinv Hrt) as [app1 [Hinv1 Hk1]].
    assert (HRs' : forall s ts src_map tm o m ksrc, s ∈ segs -> sa !! s = Some ts ->
       orig_man_mapping so sm s Src = Ok src_map -> orig_man_mapping so sm ts Tgt = Ok tm ->
       (o, m) ∈ src_map -> dict_get "src" akf = Some ksrc -> R tm ksrc m)
      by (intros s1 ts1 sm1 tm1 o1 m1 k1 Hs1; apply HRs; apply list_elem_of_further; exact Hs1).
    destruct (IH _ _ _ HRs' Hinv1 Hrun) as [app2 [Hinv2 Hj2]].
    exists (app1 ++ app2)%list. split.
    + rewrite seg_queries_cons, Hsm, (app_assoc app), (app_assoc Q). exact Hinv2.
    + intros [|j] s' ts' src_map' tm' k o m u e Hj Hts' Hsm' Htm' Hk Hin Hq Hv.
      * simpl in Hj. injection Hj as <-.
        rewrite Hts in Hts'; injection Hts' as <-.
        rewrite Hsm in Hsm'; injection Hsm' as <-.
        rewrite Htm in Htm'; injection Htm' as <-.
        unfold seg_queries in Hq; simpl in Hq.
        destruct (Hk1 k o m u e Hk Hin Hq Hv) as [e2 [Hin2 Hr]].
        exists e2. split; [|exact Hr]. apply elem_of_app; left; exact Hin2.
      * simpl in Hj. simpl take in Hq. rewrite seg_queries_cons, Hsm in Hq.
        rewrite <- (app_assoc (qvals akf src_map)), (app_assoc Q) in Hq.
        destruct (Hj2 j s' ts' src_map' tm' k o m u e Hj Hts' Hsm' Htm' Hk Hin Hq Hv)
          as [e2 [Hin2 Hr]].
        exists e2. split; [|exact Hr]. apply elem_of_app; right; exact Hin2.
Qed.

End atag_invariant.

(** ** Sorting the children of the written root *)

Lemma key_lt_irrefl (k : Z * Z) : key_lt k k = false.
Proof. unfold key_lt. rewrite !Z.ltb_irrefl. rewrite andb_false_r. reflexivity. Qed.

Lemma insert_by_key_perm {A} (x : (Z * Z) * A) (l : list ((Z * Z) * A)) :
  insert_by_key x l ≡ₚ x :: l.
Proof.
  induction l as [|y l IH]; simpl; [reflexivity|].
  destruct (key_lt x.1 y.1); [reflexivity|].
  rewrite IH. apply perm_swap.
Qed.

Lemma fold_insert_perm {A} (l acc : list ((Z * Z) * A)) :
  fold_left (fun acc x => insert_by_key x acc) l acc ≡ₚ (acc ++ l)%list.
Proof.
  revert acc; induction l as [|x l IH]; intros acc; simpl.
  - rewrite app_nil_r; reflexivity.
  - rewrite IH, insert_by_key_perm.
    rewrite <- Permutation_middle. reflexivity.
Qed.

Lemma sort_by_key_perm {A} (l : list ((Z * Z) * A)) : sort_by_key l ≡ₚ l.
Proof. unfold sort_by_key. rewrite fold_insert_perm. reflexivity. Qed.

(** Entries of a key no other entry is below stay first, in order. *)
Lemma insert_by_key_app_r {A} (k0 : Z * Z) (x : (Z * Z) * A) (P S : list ((Z * Z) * A)) :
  Forall (fun y => y.1 = k0) P -> key_lt x.1 k0 = false ->
  insert_by_key x (P ++ S)%list = (P ++ insert_by_key x S)%list.
Proof.
  intros HP Hx. induction HP as [|y P Hy HP IH]; [reflexivity|].
  simpl. rewrite Hy, Hx, IH. reflexivity.
Qed.

Lemma fold_insert_prefix {A} (k0 : Z * Z) (P S R : list ((Z * Z) * A)) :
  Forall (fun y => y.1 = k0) P -> Forall (fun y => key_lt y.1 k0 = false) S ->
  fold_left (fun acc x => insert_by_key x acc) S (P ++ R)%list =
    (P ++ fold_left (fun acc x => insert_by_key x acc) S R)%list.
Proof.
  intros HP HS. revert R. induction HS as [|x S Hx HS IH]; intros R; [reflexivity|].
  simpl. rewrite insert_by_key_app_r with (k0 := k0) by assumption. apply IH.
Qed.

Lemma fold_insert_equal {A} (k0 : Z * Z) (P acc : list ((Z * Z) * A)) :
  Forall (fun y => y.1 = k0) acc -> Forall (fun y => y.1 = k0) P ->
  fold_left (fun acc x => insert_by_key x acc) P acc = (acc ++ P)%list.
Proof.
  intros Hacc HP. revert acc Hacc. induction HP as [|x P Hx HP IH]; intros acc Hacc.
  - rewrite app_nil_r; reflexivity.
  - simpl. rewrite <- (app_nil_r acc) at 1.
    rewrite insert_by_key_app_r with (k0 := k0) by (rewrite ?Hx; auto using key_lt_irrefl).
    simpl. rewrite IH; [rewrite <- app_assoc; reflexivity|].
    apply Forall_app; split; [exact Hacc|]. constructor; [exact Hx|constructor].
Qed.

Lemma sort_by_key_prefix {A} (k0 : Z * Z) (P S : list ((Z * Z) * A)) :
  Forall (fun y => y.1 = k0) P -> Forall (fun y => key_lt y.1 k0 = false) S ->
  sort_by_key (P ++ S)%list = (P ++ sort_by_key S)%list.
Proof.
  intros HP HS. unfold sort_by_key. rewrite fold_left_app.
  rewrite (fold_insert_equal k0 P []) by (constructor || exact HP).
  simpl. rewrite <- (app_nil_r P) at 1.
  apply fold_insert_prefix with (k0 := k0); assumption.
Qed.

Lemma with_ids_fst (cs : list Element) : map fst (with_ids cs) = seq 0 (length cs).
Proof. unfold with_ids. apply fst_zip. rewrite length_seq. lia. Qed.

Lemma with_ids_nodup (cs : list Element) : NoDup (map fst (with_ids cs)).
Proof. rewrite with_ids_fst. apply NoDup_seq. Qed.

Lemma with_ids_elem (cs : list Element) (u : nat) (e : Element) :
  (u, e) ∈ with_ids cs -> cs !! u = Some e.
Proof.
  unfold with_ids. intros H. apply list_elem_of_lookup in H as [i Hi].
  rewrite lookup_zip_with in Hi.
  destruct (seq 0 (length cs) !! i) as [u'|] eqn:Hu; [|discriminate]. simpl in Hi.
  destruct (cs !! i) as [e'|] eqn:He; [|discriminate]. simpl in Hi.
  injection Hi as <- <-. apply lookup_seq in Hu as [-> _]. exact He.
Qed.

(** ** A run of [update_atag] that writes the file *)

Lemma update_atag_ok (R : list (option string * option string) -> option string -> option string -> Prop)
    (so sm : sents) (sa : gmap (option string) (option string)) (root : Element)
    (segs : list (option string)) (out : atag_children) :
  (forall akf, a_keyfiles root = Ok akf ->
     forall s ts src_map tm o m ksrc, s ∈ segs -> sa !! s = Some ts ->
       orig_man_mapping so sm s Src = Ok src_map -> orig_man_mapping so sm ts Tgt = Ok tm ->
       (o, m) ∈ src_map -> dict_get "src" akf = Some ksrc -> R tm ksrc m) ->
  update_atag so sm sa root segs = Ok (false, Some out) ->
  exists akf st1 app keys,
    a_keyfiles root = Ok akf /\
    atag_inv akf (with_ids (children root)) (non_align_children root) R
      (seg_queries so sm akf segs) (st1, (non_align_children root ++ app)%list) app /\
    (forall j s ts src_map tm k o m u e,
       segs !! j = Some s -> sa !! s = Some ts ->
       orig_man_mapping so sm s Src = Ok src_map ->
       orig_man_mapping so sm ts Tgt = Ok tm ->
       src_map !! k = Some (o, m) -> (u, e) ∈ with_ids (children root) ->
       unqueried (seg_queries so sm akf (take j segs) ++ qvals akf (take k src_map)) (u, e) = true ->
       is_align_out (py_str (akf_src akf) ++ py_str o) (u, e) = true ->
       exists e2, (u, e2) ∈ app /\ remap_spec akf tm (akf_src akf) m e e2) /\
    mapM (fun ue => sort_key ue.2) (non_align_children root ++ app)%list = Some keys /\
    out = map snd (sort_by_key (zip keys (non_align_children root ++ app)%list)).
Proof.
  intros HR Hrun. unfold update_atag in Hrun.
  destruct (existsb _ (children root)); [discriminate|].
  destruct (a_keyfiles root) as [akf|] eqn:Hakf; [|discriminate]. simpl in Hrun.
  fold (non_align_children root) in Hrun.
  destruct (remap_segs so sm sa akf segs _) as [[t' valid]| |] eqn:Hrs; try discriminate.
  destruct (mapM _ valid) as [keys|] eqn:Hm; [|discriminate].
  injection Hrun as <-.
  destruct (atag_inv_segs akf so sm sa (with_ids (children root)) (non_align_children root)
              (with_ids_nodup _) R segs [] _ _ [] (HR akf eq_refl)
              (atag_inv_init _ _ _ _) Hrs) as [app [Hinv HC1]].
  simpl in Hinv. destruct Hinv as [H1 [H2 Hrest]]. simpl in H1, H2. subst valid.
  exists akf, t', app, keys. split; [reflexivity|]. split; [split; [exact H1|split; [reflexivity|exact Hrest]]|].
  split; [|split; [exact Hm|reflexivity]].
  intros. eapply HC1; eauto.
Qed.

Lemma sorted_out_perm (keys : list (Z * Z)) (V : atag_children) :
  mapM (fun ue => sort_key ue.2) V = Some keys ->
  map snd (sort_by_key (zip keys V)) ≡ₚ V.
Proof.
  intros Hm. apply mapM_Some_1, Forall2_length in Hm.
  rewrite (sort_by_key_perm (zip keys V)).
  change (map snd (zip keys V)) with ((zip keys V).*2).
  rewrite snd_zip by lia. reflexivity.
Qed.

Lemma unqueried_false (Q : list string) (ue : nat * Element) :
  unqueried Q ue = false <->
  tag ue.2 = "align" /\ exists v, v ∈ Q /\ get "out" ue.2 = Some v.
Proof.
  unfold unqueried. induction Q as [|v Q IH]; simpl.
  - split; [discriminate|]. intros [_ [v [Hv _]]]. inversion Hv.
  - destruct (is_align_out v ue) eqn:Ha; simpl.
    + unfold is_align_out in Ha. apply andb_true_iff in Ha as [Ht Hb].
      apply String.eqb_eq in Ht. apply bool_decide_eq_true in Hb.
      split; [intros _|reflexivity].
      split; [exact Ht|]. exists v; split; [apply list_elem_of_here|exact Hb].
    + rewrite IH. split.
      * intros [Ht [w [Hw Hg]]]. split; [exact Ht|]. exists w; split; [|exact Hg].
        apply list_elem_of_further; exact Hw.
      * intros [Ht [w [Hw Hg]]]. split; [exact Ht|]. exists w; split; [|exact Hg].
        apply elem_of_cons in Hw as [->|Hw]; [|exact Hw].
        unfold is_align_out in Ha. rewrite Ht, Hg in Ha.
        rewrite bool_decide_eq_true_2 in Ha by reflexivity. discriminate.
Qed.

Lemma remap_spec_tag akf tm ksrc m (e e2 : Element) :
  remap_spec akf tm ksrc m e e2 -> tag e2 = tag e.
Proof. intros (i & ktgt & m' & _ & _ & _ & ->). reflexivity. Qed.

Lemma non_align_children_elem (root : Element) (ue : nat * Element) :
  ue ∈ non_align_children root <-> ue ∈ with_ids (children root) /\ tag ue.2 <> "align".
Proof.
  unfold non_align_children. rewrite list_elem_of_filter.
  rewrite String.eqb_neq. tauto.
Qed.

Lemma no_trigger (so sm : sents) (sa : gmap (option string) (option string))
    (root : Element) (segs : list (option string)) :
  forall akf, a_keyfiles root = Ok akf ->
    forall s ts src_map tm o m ksrc, s ∈ segs -> sa !! s = Some ts ->
      orig_man_mapping so sm s Src = Ok src_map -> orig_man_mapping so sm ts Tgt = Ok tm ->
      (o, m) ∈ src_map -> dict_get "src" akf = Some ksrc ->
      (fun (_ : list (option string * option string)) (_ _ : option string) => True) tm ksrc m.
Proof. intros; exact I. Qed.

Lemma atag_out_nodup akf (root : Element) R Q st (app : atag_children) :
  atag_inv akf (with_ids (children root)) (non_align_children root) R Q st app ->
  NoDup (map fst (non_align_children root ++ app)%list).
Proof.
  intros [_ [_ [H3 [H4 _]]]]. rewrite map_app. apply NoDup_app. split; [|split; [|exact H4]].
  - apply nodup_fst_filter, with_ids_nodup.
  - intros u Hu1 Hu2.
    apply list_elem_of_fmap in Hu1 as [[u1 e1] [-> Hin1]].
    apply list_elem_of_fmap in Hu2 as [[u2 e2] [Hu Hin2]]. simpl in Hu |- *. subst u2.
    apply non_align_children_elem in Hin1 as [Hin1 Hna]. simpl in Hna.
    rewrite Forall_forall in H3. destruct (H3 _ Hin2) as [e [Hin [Hq _]]]. simpl in Hin, Hq.
    apply unqueried_false in Hq as [Ht _]. simpl in Ht.
    rewrite (uid_unique _ u1 e1 e (with_ids_nodup _) Hin1 Hin) in Hna. contradiction.
Qed.

(** C5: one run of [update_atag] remaps every align element at most once.
    When the run writes the file, every child of the written root is
    identified (by its position in the parsed file) at most once, and each
    child is either a non-align child of the original root, unchanged, or
    an original align child with [out] and then [in] set exactly once from
    its own original attributes ([remap_spec]): an element moved to the
    new root is no longer queried. *)
Theorem update_atag_single_pass (so sm : sents) (sa : gmap (option string) (option string))
    (root : Element) (segs : list (option string)) (out : atag_children) :
  update_atag so sm sa root segs = Ok (false, Some out) ->
  NoDup (map fst out) /\
  Forall (fun ue2 => ue2 ∈ non_align_children root \/
            exists e akf tm ksrc m, (ue2.1, e) ∈ with_ids (children root) /\
              tag e = "align" /\ a_keyfiles root = Ok akf /\
              remap_spec akf tm ksrc m e ue2.2) out.
Proof.
  intros Hrun.
  destruct (update_atag_ok _ so sm sa root segs out (no_trigger so sm sa root segs) Hrun)
    as (akf & st1 & app & keys & Hakf & Hinv & _ & Hm & ->).
  pose proof (sorted_out_perm keys _ Hm) as Hp.
  pose proof (atag_out_nodup _ _ _ _ _ _ Hinv) as Hnd.
  destruct Hinv as [_ [_ [H3 _]]].
  split.
  - pose proof (Permutation_map fst Hp) as Hp'. rewrite Hp'. exact Hnd.
  - apply Forall_forall. intros x Hx. rewrite Hp in Hx.
    apply elem_of_app in Hx as [Hx|Hx]; [left; exact Hx|right].
    rewrite Forall_forall in H3. destruct (H3 _ Hx) as [e [Hin [Hq [tm [ksrc [m [_ Hr]]]]]]].
    apply unqueried_false in Hq as [Ht _]. simpl in Ht.
    exists e, akf, tm, ksrc, m. auto.
Qed.

(** ** Where the values of the dictionaries come from *)

Lemma dict_get_in {K V} `{EqDecision K} (k : K) (v : V) (d : list (K * V)) :
  dict_get k d = Some v -> (k, v) ∈ d.
Proof.
  induction d as [|[k' v'] d IH]; simpl; [discriminate|].
  destruct (decide (k = k')) as [->|]; intros H.
  - injection H as ->. apply list_elem_of_here.
  - apply list_elem_of_further; auto.
Qed.

Lemma dict_set_in {K V} `{EqDecision K} (k : K) (v : V) (d : list (K * V)) (x : K * V) :
  x ∈ dict_set k v d -> x = (k, v) \/ x ∈ d.
Proof.
  induction d as [|[k' v'] d IH]; simpl.
  - intros H. apply elem_of_cons in H as [H|H]; [auto|inversion H].
  - destruct (decide (k = k')) as [->|]; intros H;
      apply elem_of_cons in H as [H|H].
    + auto.
    + right; apply list_elem_of_further; exact H.
    + right; rewrite H; apply list_elem_of_here.
    + destruct (IH H) as [H'|H']; [auto|right; apply list_elem_of_further; exact H'].
Qed.

Lemma zip_elem_r {A B} (l1 : list A) (l2 : list B) (x : A) (y : B) :
  (x, y) ∈ zip l1 l2 -> y ∈ l2.
Proof.
  intros H. apply list_elem_of_lookup in H as [i Hi].
  rewrite lookup_zip_with in Hi.
  destruct (l1 !! i); [|discriminate]. simpl in Hi.
  destruct (l2 !! i) eqn:H2; [|discriminate]. simpl in Hi. injection Hi as <- <-.
  apply list_elem_of_lookup; eauto.
Qed.

Lemma fold_dict_set_vals {A B} (f : A -> option string) (g : B -> option string)
    (l : list (A * B)) (acc : list (option string * option string)) (x : option string * option string) :
  x ∈ fold_left (fun mp '(a, b) => dict_set (f a) (g b) mp) l acc ->
  x ∈ acc \/ exists a b, (a, b) ∈ l /\ x.2 = g b.
Proof.
  revert acc; induction l as [|[a b] l IH]; intros acc H; simpl in H; [auto|].
  destruct (IH _ H) as [H'|[a' [b' [Hin Hx]]]].
  - apply dict_set_in in H' as [->|H']; [right|auto].
    exists a, b; split; [apply list_elem_of_here|reflexivity].
  - right. exists a', b'; split; [apply list_elem_of_further; exact Hin|exact Hx].
Qed.

Lemma orig_man_mapping_vals (so sm : sents) (s : option string) (d : direction)
    (mp : list (option string * option string)) (x : option string * option string) :
  orig_man_mapping so sm s d = Ok mp -> x ∈ mp ->
  exists t w, seg_tree sm s d = Ok t /\ w ∈ children t /\ x.2 = get "id" w.
Proof.
  unfold orig_man_mapping. intros H Hx.
  destruct (seg_tree so s d) as [t0|]; [|discriminate]. simpl in H.
  destruct (seg_tree sm s d) as [t1|]; [|discriminate]. simpl in H.
  injection H as <-. apply fold_dict_set_vals in Hx as [Hx|[a [b [Hin Hx]]]].
  - inversion Hx.
  - exists t1, b. split; [reflexivity|]. split; [|exact Hx].
    eapply zip_elem_r; exact Hin.
Qed.

Lemma fold_res_throw {A B} (F : res A -> B -> res A) (l : list B) (e : py_exc) :
  (forall b, F (Throw e) b = Throw e) -> fold_left F l (Throw e) = Throw e.
Proof. intros HF. induction l as [|b l IH]; simpl; [reflexivity|]. rewrite HF; exact IH. Qed.

Lemma a_keyfiles_vals (root : Element) (akf : list (string * option string))
    (x : string * option string) :
  a_keyfiles root = Ok akf -> x ∈ akf ->
  exists p el, p ∈ findall_desc "alignFile" root /\ get_at p root = Some el /\ x.2 = get "key" el.
Proof.
  unfold a_keyfiles.
  assert (Hgen : forall ps acc akf,
    (forall p, p ∈ ps -> p ∈ findall_desc "alignFile" root) ->
    (forall a0, acc = Ok a0 -> forall x, x ∈ a0 -> exists p el,
       p ∈ findall_desc "alignFile" root /\ get_at p root = Some el /\ x.2 = get "key" el) ->
    fold_left (fun acc p =>
               let! akf := acc in
               match get_at p root with
               | Some el =>
                   match get "href" el with
                   | Some href => Ok (dict_set (path_suffix_key href) (get "key" el) akf)
                   | None => Throw TypeError
                   end
               | None => Ok akf
               end) ps acc = Ok akf ->
    forall x, x ∈ akf -> exists p el,
       p ∈ findall_desc "alignFile" root /\ get_at p root = Some el /\ x.2 = get "key" el).
  { induction ps as [|p ps IH]; intros acc akf' Hps Hacc Hrun; simpl in Hrun.
    - subst acc. apply Hacc; reflexivity.
    - destruct acc as [a0|ex]; simpl in Hrun.
      2:{ rewrite fold_res_throw in Hrun by reflexivity. discriminate. }
      eapply IH; [|intros a1 Ha1 y Hy|exact Hrun].
      + intros q Hq; apply Hps, list_elem_of_further, Hq.
      + destruct (get_at p root) as [el|] eqn:Hel.
        * destruct (get "href" el); [|discriminate]. injection Ha1 as <-.
          apply dict_set_in in Hy as [->|Hy].
          -- exists p, el. split; [apply Hps, list_elem_of_here|]. split; [exact Hel|reflexivity].
          -- eapply Hacc; [reflexivity|exact Hy].
        * injection Ha1 as <-. eapply Hacc; [reflexivity|exact Hy]. }
  intros Hrun Hx. eapply Hgen; [| |exact Hrun|exact Hx].
  - auto.
  - intros a0 Ha0 y Hy. injection Ha0 as <-. inversion Hy.
Qed.

(** ** Sort keys of the written children *)

Lemma no_minus_app (a b : string) : no_minus (a ++ b) = no_minus a && no_minus b.
Proof. induction a as [|c a IH]; simpl; [reflexivity|]. rewrite IH, andb_assoc. reflexivity. Qed.

Lemma no_minus_drop1 (s : string) : no_minus s = true -> no_minus (drop1 s) = true.
Proof. destruct s as [|c s]; simpl; [auto|]. intros H; apply andb_true_iff in H; tauto. Qed.

Lemma Z_of_uint_nonneg (d : Decimal.uint) : (0 <= Z.of_uint d)%Z.
Proof. unfold Z.of_uint. destruct (Pos.of_uint d); simpl; lia. Qed.

Lemma py_int_not_plus (c : ascii) (s : string) :
  c <> "+"%char ->
  py_int (String c s) = option_map Z.of_int (NilZero.int_of_string (String c s)).
Proof. intros H. destruct c as [[] [] [] [] [] [] [] []]; reflexivity || congruence. Qed.

Lemma py_int_nonneg (s : string) (z : Z) :
  no_minus s = true -> py_int s = Some z -> (0 <= z)%Z.
Proof.
  destruct s as [|c s]; [discriminate|].
  intros Hm. simpl in Hm. apply andb_true_iff in Hm as [Hc _].
  destruct (Ascii.eqb_spec c "+"%char) as [->|Hp].
  - simpl. destruct (NilZero.uint_of_string s); simpl; [|discriminate].
    intros H; injection H as <-. apply Z_of_uint_nonneg.
  - rewrite py_int_not_plus by exact Hp. unfold NilZero.int_of_string.
    destruct (Ascii.eqb c "-"%char); [discriminate|].
    destruct (NilZero.uint_of_string (String c s)); simpl; [|discriminate].
    intros H; injection H as <-. apply Z_of_uint_nonneg.
Qed.

Lemma sort_key_unkeyed (e : Element) :
  get "in" e = None -> get "out" e = None -> sort_key e = Some (0, 0)%Z.
Proof. intros Hi Ho. unfold sort_key, get_default. rewrite Hi, Ho. reflexivity. Qed.

Lemma key_lt_nonneg (a b : Z) : (0 <= a)%Z -> (0 <= b)%Z -> key_lt (a, b) (0, 0)%Z = false.
Proof.
  intros Ha Hb. unfold key_lt; simpl. apply orb_false_iff. split; [apply Z.ltb_ge; lia|].
  destruct (Z.eqb a 0); simpl; [apply Z.ltb_ge; lia|reflexivity].
Qed.

Lemma sort_key_remap akf tm ksrc m (e e2 : Element) (k : Z * Z) :
  remap_spec akf tm ksrc m e e2 ->
  (forall x, x ∈ akf -> no_minus (py_str x.2) = true) ->
  no_minus (py_str ksrc) = true -> no_minus (py_str m) = true ->
  (forall k v, dict_get k tm = Some v -> no_minus (py_str v) = true) ->
  sort_key e2 = Some k -> key_lt k (0, 0)%Z = false.
Proof.
  intros (i & ktgt & m' & Hi & Hkt & Hm' & ->) Hakf Hks Hmm Htm.
  unfold sort_key, get_default.
  rewrite get_set_eq, get_set_ne, get_set_eq by discriminate. simpl.
  destruct (py_int (drop1 (py_str ktgt ++ py_str m'))) as [a|] eqn:Ha; [|discriminate].
  destruct (py_int (drop1 (py_str ksrc ++ py_str m))) as [b|] eqn:Hb; [|discriminate].
  intros H; injection H as <-. apply key_lt_nonneg.
  - eapply py_int_nonneg; [|exact Ha]. apply no_minus_drop1. rewrite no_minus_app.
    apply andb_true_iff; split.
    + apply (Hakf ("tgt", ktgt)). apply dict_get_in; exact Hkt.
    + eapply Htm; exact Hm'.
  - eapply py_int_nonneg; [|exact Hb]. apply no_minus_drop1. rewrite no_minus_app.
    apply andb_true_iff; split; assumption.
Qed.

Lemma man_ids_ok_spec (sm : sents) (s : option string) (d : direction) (t w : Element) :
  man_ids_ok sm = true -> seg_tree sm s d = Ok t -> w ∈ children t ->
  no_minus (py_str (get "id" w)) = true.
Proof.
  unfold man_ids_ok, seg_tree. intros Hok Ht Hw.
  destruct (sm !! s) as [se|] eqn:Hse; [|discriminate]. simpl in Ht.
  destruct (seg_dir d se) as [t'|] eqn:Hd; [|discriminate]. simpl in Ht. injection Ht as ->.
  apply forallb_forall with (x := (s, se)) in Hok.
  2:{ apply list_elem_of_In, elem_of_map_to_list; exact Hse. }
  unfold seg_ids_ok in Hok. simpl in Hok.
  destruct d; simpl in Hd; rewrite Hd in Hok; simpl in Hok;
    rewrite ?andb_true_r in Hok; apply andb_true_iff in Hok as [Hok1 Hok2];
    [ apply forallb_forall with (x := w) in Hok1
    | apply forallb_forall with (x := w) in Hok2 ];
    auto; apply list_elem_of_In; exact Hw.
Qed.

Lemma akf_vals_ok (root : Element) (akf : list (string * option string)) :
  align_keys_ok root = true -> a_keyfiles root = Ok akf ->
  forall x, x ∈ akf -> no_minus (py_str x.2) = true.
Proof.
  intros Hok Hakf x Hx.
  destruct (a_keyfiles_vals root akf x Hakf Hx) as [p [el [Hp [Hel ->]]]].
  unfold align_keys_ok in Hok. apply forallb_forall with (x := p) in Hok.
  - rewrite Hel in Hok. exact Hok.
  - apply list_elem_of_In; exact Hp.
Qed.

Lemma zip_keys_Forall {A} (f : A -> option (Z * Z)) (Q : Z * Z -> Prop)
    (l : list A) (ks : list (Z * Z)) :
  Forall2 (fun x y => f x = Some y) l ks ->
  Forall (fun x => forall k, f x = Some k -> Q k) l ->
  Forall (fun p => Q p.1) (zip ks l).
Proof.
  intros HF. induction HF as [|x y l ks Hxy HF IH]; intros HQ; simpl; [constructor|].
  inversion HQ as [|? ? Hx HQ']; subst. constructor; [apply Hx; exact Hxy|auto].
Qed.

Lemma update_atag_ids_ok (so sm : sents) (sa : gmap (option string) (option string))
    (root : Element) (segs : list (option string)) :
  align_keys_ok root = true -> man_ids_ok sm = true ->
  forall akf, a_keyfiles root = Ok akf ->
    forall s ts src_map tm o m ksrc, s ∈ segs -> sa !! s = Some ts ->
      orig_man_mapping so sm s Src = Ok src_map -> orig_man_mapping so sm ts Tgt = Ok tm ->
      (o, m) ∈ src_map -> dict_get "src" akf = Some ksrc ->
      no_minus (py_str ksrc) = true /\ no_minus (py_str m) = true /\
      (forall k v, dict_get k tm = Some v -> no_minus (py_str v) = true).
Proof.
  intros Hkeys Hids akf Hakf s ts src_map tm o m ksrc _ _ Hsm Htm Hom Hks.
  split; [|split].
  - apply (akf_vals_ok root akf Hkeys Hakf ("src", ksrc)). apply dict_get_in; exact Hks.
  - destruct (orig_man_mapping_vals _ _ _ _ _ _ Hsm Hom) as [t [w [Ht [Hw Hx]]]].
    simpl in Hx; subst m. eapply man_ids_ok_spec; eauto.
  - intros k v Hkv. apply dict_get_in in Hkv.
    destruct (orig_man_mapping_vals _ _ _ _ _ _ Htm Hkv) as [t [w [Ht [Hw Hx]]]].
    simpl in Hx; subst v. eapply man_ids_ok_spec; eauto.
Qed.

(** C4: [update_atag] leaves the salign and alignFile children of the atag
    root as they are and writes them first, in their order; after them come
    exactly the align children whose [out] one of the queries for the
    valid segments matched, each once and remapped; every other align
    child is dropped.  This holds for files in the Translog format:
    the non-align children carry no [in] or [out] attribute, and the
    alignFile keys and the manual word ids have no minus sign (the sort
    key of a written align is then at least that of the non-align ones). *)
Theorem update_atag_frame (so sm : sents) (sa : gmap (option string) (option string))
    (root : Element) (segs : list (option string)) (out : atag_children) :
  non_aligns_unkeyed root = true -> align_keys_ok root = true -> man_ids_ok sm = true ->
  update_atag so sm sa root segs = Ok (false, Some out) ->
  exists S,
    out = (non_align_children root ++ S)%list /\
    Forall (fun ue => tag ue.2 = "align") S /\
    NoDup (map fst S) /\
    (forall u e, (u, e) ∈ with_ids (children root) -> tag e = "align" ->
       ((exists e2, (u, e2) ∈ S) <->
        exists akf v, a_keyfiles root = Ok akf /\ v ∈ seg_queries so sm akf segs /\
                      get "out" e = Some v)).
Proof.
  intros Hna Hkeys Hids Hrun.
  destruct (update_atag_ok _ so sm sa root segs out
              (update_atag_ids_ok so sm sa root segs Hkeys Hids) Hrun)
    as (akf & st1 & app & keys & Hakf & Hinv & _ & Hm & ->).
  destruct Hinv as [H1 [H2 [H3 [H4 H5]]]].
  apply mapM_Some_1 in Hm. apply Forall2_app_inv_l in Hm as (k1 & k2 & Hk1 & Hk2 & ->).
  pose proof (Forall2_length _ _ _ Hk1) as Hl1.
  pose proof (Forall2_length _ _ _ Hk2) as Hl2.
  rewrite zip_with_app by lia.
  rewrite (sort_by_key_prefix (0, 0)%Z).
  2:{ apply (zip_keys_Forall (fun ue => sort_key ue.2) (fun k => k = (0, 0)%Z)); [exact Hk1|].
      apply Forall_forall. intros [u e] Hue k Hk.
      apply non_align_children_elem in Hue as [Hin Hne]. simpl in Hne, Hk.
      apply with_ids_elem in Hin.
      unfold non_aligns_unkeyed in Hna. apply forallb_forall with (x := e) in Hna.
      2:{ apply list_elem_of_In, list_elem_of_lookup; eauto. }
      apply String.eqb_neq in Hne. rewrite Hne in Hna. simpl in Hna.
      apply andb_true_iff in Hna as [Hi Ho].
      apply bool_decide_eq_true in Hi, Ho.
      rewrite sort_key_unkeyed in Hk by assumption. congruence. }
  2:{ apply (zip_keys_Forall (fun ue : nat * Element => sort_key ue.2)
               (fun k => key_lt k (0, 0)%Z = false)); [exact Hk2|].
      apply Forall_forall. intros [u e2] Hue k Hk. simpl in Hk.
      rewrite Forall_forall in H3. destruct (H3 _ Hue) as [e [_ [_ [tm [ksrc [m [HR Hr]]]]]]].
      destruct HR as [Hks [Hmm Htm]].
      eapply sort_key_remap; [exact Hr|exact (akf_vals_ok root akf Hkeys Hakf)|..]; eauto. }
  rewrite map_app.
  change (map snd (zip k1 (non_align_children root))) with ((zip k1 (non_align_children root)).*2).
  rewrite snd_zip by lia.
  exists (map snd (sort_by_key (zip k2 app))). split; [reflexivity|].
  assert (Hp : map snd (sort_by_key (zip k2 app)) ≡ₚ app)
    by (apply sorted_out_perm, mapM_Some_2; exact Hk2).
  rewrite Hp. split; [|split; [exact H4|]].
  - apply Forall_forall. intros [u e2] Hue.
    rewrite Forall_forall in H3. destruct (H3 _ Hue) as [e [_ [Hq [tm [ksrc [m [_ Hr]]]]]]].
    apply unqueried_false in Hq as [Ht _]. simpl in Ht, Hr |- *.
    rewrite (remap_spec_tag _ _ _ _ _ _ Hr). exact Ht.
  - intros u e Hin Ht. split.
    + intros [e2 He2]. rewrite Hp in He2.
      rewrite Forall_forall in H3. destruct (H3 _ He2) as [e' [Hin' [Hq _]]]. simpl in Hin', Hq.
      rewrite (uid_unique _ u e' e (with_ids_nodup _) Hin' Hin) in Hq.
      apply unqueried_false in Hq as [_ [v [Hv Hg]]].
      exists akf, v. auto.
    + intros [akf' [v [Hakf' [Hv Hg]]]]. rewrite Hakf in Hakf'. injection Hakf' as <-.
      destruct (H5 u e Hin) as [e2 He2].
      { apply unqueried_false. split; [exact Ht|]. exists v; auto. }
      exists e2. rewrite Hp. exact He2.
Qed.

(** ** [orig_man_mapping] is positional when the original ids are distinct *)

Lemma dict_set_fresh {K V} `{EqDecision K} (k : K) (v : V) (d : list (K * V)) :
  k ∉ map fst d -> dict_set k v d = (d ++ [(k, v)])%list.
Proof.
  induction d as [|[k' v'] d IH]; simpl; intros Hk; [reflexivity|].
  destruct (decide (k = k')) as [->|Hne].
  - exfalso; apply Hk; apply list_elem_of_here.
  - rewrite IH; [reflexivity|]. intros H; apply Hk; apply list_elem_of_further; exact H.
Qed.

Lemma fold_dict_zip {A B} (f : A -> option string) (g : B -> option string)
    (z : list (A * B)) (acc : list (option string * option string)) :
  NoDup (map fst acc ++ map (fun p => f p.1) z)%list ->
  fold_left (fun mp '(a, b) => dict_set (f a) (g b) mp) z acc =
    (acc ++ map (fun p => (f p.1, g p.2)) z)%list.
Proof.
  revert acc; induction z as [|[a b] z IH]; intros acc Hnd; simpl.
  - rewrite app_nil_r; reflexivity.
  - simpl in Hnd. apply NoDup_app in Hnd as [Hacc [Hdis Hrest]].
    rewrite dict_set_fresh.
    2:{ intros H. apply (Hdis _ H). apply list_elem_of_here. }
    rewrite IH.
    + rewrite <- app_assoc; reflexivity.
    + rewrite map_app, <- app_assoc. simpl. apply NoDup_app. split; [exact Hacc|split; [|exact Hrest]].
      intros x Hx Hx'. apply (Hdis x Hx). exact Hx'.
Qed.

Lemma zip_elem_l {A B} (l1 : list A) (l2 : list B) (x : A) (y : B) :
  (x, y) ∈ zip l1 l2 -> x ∈ l1.
Proof.
  intros H. apply list_elem_of_lookup in H as [i Hi].
  rewrite lookup_zip_with in Hi.
  destruct (l1 !! i) eqn:H1; [|discriminate]. simpl in Hi.
  destruct (l2 !! i); [|discriminate]. simpl in Hi. injection Hi as <- <-.
  apply list_elem_of_lookup; eauto.
Qed.

Lemma nodup_zip_keys {A B} (f : A -> option string) (a : list A) (b : list B) :
  NoDup (map f a) -> NoDup (map (fun p => f p.1) (zip a b)).
Proof.
  revert b; induction a as [|x a IH]; intros [|y b] Hnd; simpl; [constructor..|].
  simpl in Hnd. inversion Hnd as [|? ? Hx Hnd']; subst.
  constructor; [|auto].
  intros Hin. apply list_elem_of_fmap in Hin as [[x' y'] [Hf Hin]]. simpl in Hf.
  apply Hx. rewrite Hf. apply list_elem_of_fmap_2. eapply zip_elem_l; exact Hin.
Qed.

Lemma orig_man_mapping_zip (so sm : sents) (s : option string) (d : direction) (to tmn : Element) :
  seg_tree so s d = Ok to -> seg_tree sm s d = Ok tmn ->
  NoDup (map (get "id") (children to)) ->
  orig_man_mapping so sm s d =
    Ok (map (fun p => (get "id" p.1, get "id" p.2)) (zip (children to) (children tmn))).
Proof.
  intros Ho Hm Hnd. unfold orig_man_mapping. rewrite Ho, Hm. simpl. f_equal.
  apply (fold_dict_zip (get "id") (get "id") _ []). simpl. apply nodup_zip_keys; exact Hnd.
Qed.

Lemma dict_get_lookup {K V} `{EqDecision K} (k : K) (v : V) (d : list (K * V)) :
  dict_get k d = Some v -> exists i, d !! i = Some (k, v).
Proof.
  induction d as [|[k' v'] d IH]; simpl; [discriminate|].
  destruct (decide (k = k')) as [->|]; intros H.
  - injection H as ->. exists 0; reflexivity.
  - destruct (IH H) as [i Hi]. exists (S i); exact Hi.
Qed.

Lemma string_app_cancel (a b c : string) : (a ++ b)%string = (a ++ c)%string -> b = c.
Proof. induction a as [|x a IH]; simpl; [auto|]. intros H; injection H; auto. Qed.

Lemma unqueried_true (Q : list string) (u : nat) (e : Element) (v : string) :
  get "out" e = Some v -> v ∉ Q -> unqueried Q (u, e) = true.
Proof.
  intros Hg Hv. destruct (unqueried Q (u, e)) eqn:Hq; [reflexivity|].
  apply unqueried_false in Hq as [_ [v' [Hv' Hg']]]. simpl in Hg'.
  rewrite Hg in Hg'. injection Hg' as <-. contradiction.
Qed.

Lemma nodup_map_compose {A B C} (f : A -> B) (g : B -> C) (l : list A) :
  NoDup (map (fun x => g (f x)) l) -> NoDup (map f l).
Proof.
  induction l as [|x l IH]; simpl; intros H; [constructor|].
  inversion H as [|? ? Hx H']; subst. constructor; [|auto].
  intros Hin. apply Hx. apply list_elem_of_fmap in Hin as [y [-> Hy]].
  apply (list_elem_of_fmap_2 (fun x => g (f x))); exact Hy.
Qed.

Lemma lookup_id_map (l1 l2 : list Element) (i : nat) (om : option string * option string) :
  map (fun p => (get "id" p.1, get "id" p.2)) (zip l1 l2) !! i = Some om ->
  exists w1 w2, l1 !! i = Some w1 /\ l2 !! i = Some w2 /\ om = (get "id" w1, get "id" w2).
Proof.
  intros H. apply list_lookup_fmap_Some in H as [[w1 w2] [-> Hz]].
  apply lookup_zip_with_Some in Hz as [x [y [Hxy [H1 H2]]]]. injection Hxy as -> ->.
  exists x, y; auto.
Qed.

Lemma dict_get_set_eq {K V} `{EqDecision K} (k : K) (v : V) (d : list (K * V)) :
  dict_get k (dict_set k v d) = Some v.
Proof.
  induction d as [|[k' v'] d IH]; simpl; [rewrite decide_True by reflexivity; reflexivity|].
  destruct (decide (k = k')) as [->|Hne]; simpl.
  - rewrite decide_True by reflexivity; reflexivity.
  - rewrite decide_False by exact Hne. exact IH.
Qed.

Lemma dict_get_set_ne {K V} `{EqDecision K} (k k' : K) (v : V) (d : list (K * V)) :
  k <> k' -> dict_get k (dict_set k' v d) = dict_get k d.
Proof.
  intros Hkk. induction d as [|[k'' v'] d IH]; simpl.
  - rewrite decide_False by exact Hkk. reflexivity.
  - destruct (decide (k' = k'')) as [->|Hne]; simpl.
    + rewrite !decide_False by exact Hkk. reflexivity.
    + destruct (decide (k = k'')); [reflexivity|exact IH].
Qed.

Lemma fold_dict_set_get {A B} (f : A -> option string) (g : B -> option string)
    (z : list (A * B)) :
  forall (acc : list (option string * option string)) k,
  dict_get k (fold_left (fun mp '(a, b) => dict_set (f a) (g b) mp) z acc) =
    match last (filter (fun p => f p.1 = k) z) with
    | Some p => Some (g p.2)
    | None => dict_get k acc
    end.
Proof.
  induction z as [|[a b] z IH]; intros acc k; simpl; [reflexivity|].
  rewrite IH, filter_cons. simpl.
  destruct (decide (f a = k)) as [<-|Hne].
  - rewrite last_cons. destruct (last _); [reflexivity|]. apply dict_get_set_eq.
  - destruct (last _); [reflexivity|]. apply dict_get_set_ne. congruence.
Qed.

Lemma last_filter_lookup {A} (P : A -> Prop) `{forall x, Decision (P x)} (l : list A) (x : A) :
  last (filter P l) = Some x ->
  exists i, l !! i = Some x /\ P x /\ forall j y, i < j -> l !! j = Some y -> ~ P y.
Proof.
  revert x; induction l as [|a l IH]; intros x; simpl; [discriminate|].
  rewrite filter_cons. intros Hl.
  assert (Hrest : forall x, last (filter P l) = Some x ->
            exists i, (a :: l) !! i = Some x /\ P x /\
                      forall j y, i < j -> (a :: l) !! j = Some y -> ~ P y).
  { intros x' Hx'. destruct (IH x' Hx') as [i [Hi [Hp Hj]]].
    exists (S i). split; [exact Hi|]. split; [exact Hp|].
    intros [|j] y Hij Hy; [lia|]. apply (Hj j y); [lia|exact Hy]. }
  destruct (decide (P a)) as [Ha|Ha].
  - rewrite last_cons in Hl. destruct (last (filter P l)) as [x'|] eqn:Hf.
    + injection Hl as ->. apply Hrest; reflexivity.
    + injection Hl as <-. exists 0. split; [reflexivity|]. split; [exact Ha|].
      intros [|j] y Hij Hy; [lia|]. simpl in Hy. intros Hp.
      apply last_None in Hf.
      assert (Hy' : y ∈ filter P l).
      { apply list_elem_of_filter. split; [exact Hp|]. eapply list_elem_of_lookup_2; exact Hy. }
      rewrite Hf in Hy'. inversion Hy'.
  - apply Hrest; exact Hl.
Qed.

(** C1 (as the code behaves): when [update_atag] writes the file (no
    error), then for a valid segment [s] at position [j], its aligned
    target segment [ts], and the source word [wo] at position [k] of the
    original tree of [s] (original source word ids distinct), every align
    child [e] whose [out] is the src key followed by the id of [wo] is
    written once, with [out] the src key followed by the id of the manual
    word at position [k], and [in] the tgt key followed by the id of the
    manual target word at the last position [k'] whose original target
    word has [e]'s previous [in] without its first character as id (the
    dict keeps the last value of a repeated key).  The value of [out] must
    not have been queried for an earlier valid segment: the first query
    that matches an element moves it. *)
Theorem update_atag_remaps (so sm : sents) (sa : gmap (option string) (option string))
    (root : Element) (segs : list (option string)) (out : atag_children)
    (akf : list (string * option string)) (ksrc : option string)
    (j : nat) (s ts : option string) (to tmn tto ttm : Element)
    (k : nat) (wo wm : Element) (u : nat) (e : Element) :
  update_atag so sm sa root segs = Ok (false, Some out) ->
  a_keyfiles root = Ok akf -> dict_get "src" akf = Some ksrc ->
  segs !! j = Some s -> sa !! s = Some ts ->
  seg_tree so s Src = Ok to -> seg_tree sm s Src = Ok tmn ->
  seg_tree so ts Tgt = Ok tto -> seg_tree sm ts Tgt = Ok ttm ->
  NoDup (map (fun w => py_str (get "id" w)) (children to)) ->
  children to !! k = Some wo -> children tmn !! k = Some wm ->
  (u, e) ∈ with_ids (children root) -> tag e = "align" ->
  get "out" e = Some (py_str ksrc ++ py_str (get "id" wo)) ->
  (py_str ksrc ++ py_str (get "id" wo)) ∉ seg_queries so sm akf (take j segs) ->
  exists e2 i ktgt k' wo' wm',
    (u, e2) ∈ out /\ get "in" e = Some i /\ dict_get "tgt" akf = Some ktgt /\
    children tto !! k' = Some wo' /\ get "id" wo' = Some (drop1 i) /\
    children ttm !! k' = Some wm' /\
    (forall k'' w1 w2, k' < k'' -> children tto !! k'' = Some w1 ->
       children ttm !! k'' = Some w2 -> get "id" w1 <> Some (drop1 i)) /\
    e2 = set "in" (py_str ktgt ++ py_str (get "id" wm'))
           (set "out" (py_str ksrc ++ py_str (get "id" wm)) e).
Proof.
  intros Hrun Hakf Hks Hj Hts Hto Htmn Htto Httm Hnds Hwo Hwm Hin Ht Hout Hfresh.
  assert (Hnds' : NoDup (map (get "id") (children to)))
    by (eapply nodup_map_compose; exact Hnds).
  pose proof (orig_man_mapping_zip so sm s Src to tmn Hto Htmn Hnds') as Hsm.
  set (src_map := map (fun p => (get "id" p.1, get "id" p.2)) (zip (children to) (children tmn))) in Hsm.
  set (tz := zip (children tto) (children ttm)).
  set (tm := fold_left (fun mp '(oe, me) => dict_set (get "id" oe) (get "id" me) mp) tz []).
  assert (Htm : orig_man_mapping so sm ts Tgt = Ok tm).
  { unfold orig_man_mapping. rewrite Htto, Httm. reflexivity. }
  assert (Hk : src_map !! k = Some (get "id" wo, get "id" wm)).
  { unfold src_map. rewrite list_lookup_fmap, lookup_zip_with, Hwo, Hwm. reflexivity. }
  destruct (update_atag_ok _ so sm sa root segs out (no_trigger so sm sa root segs) Hrun)
    as (akf' & st1 & app & keys & Hakf' & Hinv & HC1 & Hm & ->).
  rewrite Hakf in Hakf'. injection Hakf' as <-.
  assert (Hsrc : akf_src akf = ksrc) by (unfold akf_src; rewrite Hks; reflexivity).
  destruct (HC1 j s ts src_map tm k (get "id" wo) (get "id" wm) u e Hj Hts Hsm Htm Hk Hin)
    as [e2 [Hin2 Hr]].
  - apply (unqueried_true _ _ _ _ Hout). intros Hv.
    apply elem_of_app in Hv as [Hv|Hv]; [contradiction|].
    unfold qvals in Hv. apply list_elem_of_fmap in Hv as [om [Heq Hom]].
    rewrite Hsrc in Heq. apply string_app_cancel in Heq.
    apply list_elem_of_lookup in Hom as [i Hi].
    apply lookup_take_Some in Hi as [Hi Hik].
    destruct (lookup_id_map _ _ _ _ Hi) as [w1 [w2 [Hw1 [_ ->]]]]. simpl in Heq.
    assert (i = k); [|lia].
    eapply NoDup_lookup; [exact Hnds| |].
    + rewrite list_lookup_fmap, Hw1. reflexivity.
    + rewrite list_lookup_fmap, Hwo. simpl. rewrite Heq. reflexivity.
  - unfold is_align_out. simpl. rewrite Ht, Hsrc, Hout.
    rewrite bool_decide_eq_true_2 by reflexivity. reflexivity.
  - rewrite Hsrc in Hr.
    destruct Hr as (i & ktgt & m' & Hi & Hkt & Hm' & ->).
    unfold tm in Hm'. rewrite (fold_dict_set_get (get "id") (get "id")) in Hm'.
    destruct (last (filter (fun p => get "id" p.1 = Some (drop1 i)) tz)) as [[wo' wm']|] eqn:Hlast;
      [|discriminate].
    injection Hm' as <-.
    destruct (last_filter_lookup _ tz _ Hlast) as [k' [Hk' [Hid' Hafter]]].
    apply lookup_zip_with_Some in Hk' as [x [y [Hxy [Hwo' Hwm']]]].
    injection Hxy as <- <-.
    exists (set "in" (py_str ktgt ++ py_str (get "id" wm')) (set "out" (py_str ksrc ++ py_str (get "id" wm)) e)),
      i, ktgt, k', wo', wm'.
    split; [|repeat split; try assumption].
    + rewrite (sorted_out_perm keys _ Hm). apply elem_of_app; right; exact Hin2.
    + intros k'' w1 w2 Hlt Hw1 Hw2. apply (Hafter k'' (w1, w2) Hlt).
      unfold tz. rewrite lookup_zip_with, Hw1, Hw2. reflexivity.
Qed.

(** ** decrease_segid: the window of re-indexed segments *)

(** C2. With an end index, a line whose segId is at most the end index is
    written out unchanged, and a line whose segId is at least the start
    index and above the end index is re-indexed. *)
Theorem process_line_end_idx (start_idx end_idx : Z) (do_increase : bool)
    (line ds : string) (n : Z) :
  re_search line = Some ds -> py_int ds = Some n ->
  ((n <= end_idx)%Z -> process_line start_idx (Some end_idx) do_increase line = line) /\
  ((start_idx <= n)%Z -> (end_idx < n)%Z ->
   process_line start_idx (Some end_idx) do_increase line =
   re_sub (segid_open ++ str_Z (if do_increase then n + 1 else n - 1)%Z
           ++ String dq EmptyString) line).
Proof.
  intros Hs Hi. unfold process_line. rewrite Hs, Hi. split.
  - intros H. destruct (Z.geb n start_idx); [|reflexivity].
    rewrite (proj2 (Z.ltb_ge _ _) H). reflexivity.
  - intros H1 H2. rewrite (proj2 (Z.geb_le _ _) H1), (proj2 (Z.ltb_lt _ _) H2).
    reflexivity.
Qed.

Lemma process_line_end_idx_witness :
  re_search (segid_open ++ "3" ++ String dq EmptyString) = Some "3" /\
  py_int "3" = Some 3%Z /\
  process_line 2 (Some 5%Z) false (segid_open ++ "3" ++ String dq EmptyString) =
  segid_open ++ "3" ++ String dq EmptyString.
Proof.
  split; [vm_compute; reflexivity|]. split; [reflexivity|].
  apply (proj1 (process_line_end_idx 2 5 false (segid_open ++ "3" ++ String dq EmptyString)
                  "3" 3 ltac:(vm_compute; reflexivity) eq_refl)).
  lia.
Defined.

(** ** fix_char_pos *)

Lemma elem_of_concat_map {A B} (g : A -> list B) (l : list A) (y : B) :
  y ∈ concat (map g l) <-> exists x, x ∈ l /\ y ∈ g x.
Proof.
  induction l as [|x l IH]; simpl.
  - split; [intros H; inversion H | intros [x [H _]]; inversion H].
  - rewrite elem_of_app, IH. split.
    + intros [H|[x' [H1 H2]]].
      * exists x; split; [apply elem_of_cons; left; reflexivity | exact H].
      * exists x'; split; [apply elem_of_cons; right; exact H1 | exact H2].
    + intros [x' [H1 H2]]. apply elem_of_cons in H1 as [->|H1]; [left; exact H2|].
      right; exists x'; split; assumption.
Qed.

Lemma NoDup_concat_map {A B} (g : A -> list B) (l : list A) :
  NoDup l -> (forall x, NoDup (g x)) ->
  (forall x x' y, y ∈ g x -> y ∈ g x' -> x = x') ->
  NoDup (concat (map g l)).
Proof.
  intros Hl Hg Hdis. induction Hl as [|x l Hx Hl IH]; simpl; [constructor|].
  apply NoDup_app; split; [apply Hg|split; [|exact IH]].
  intros y Hy1 Hy2. apply elem_of_concat_map in Hy2 as [x' [Hx' Hy2]].
  rewrite (Hdis x x' y Hy1 Hy2) in Hx. contradiction.
Qed.

Lemma child_step_nodup (tg : string) (e : Element) (ctx : list (list nat)) :
  NoDup ctx -> NoDup (child_step tg e ctx).
Proof.
  intros H. unfold child_step. apply NoDup_concat_map; [exact H| |].
  - intros p. apply NoDup_filter. apply NoDup_fmap; [|apply NoDup_seq].
    intros i j Hij. apply app_inj_tail in Hij as [_ Hij]. exact Hij.
  - intros p p' q Hq Hq'.
    apply list_elem_of_filter in Hq as [_ Hq]. apply list_elem_of_filter in Hq' as [_ Hq'].
    apply list_elem_of_fmap in Hq as [i [-> _]].
    apply list_elem_of_fmap in Hq' as [i' [Hq' _]].
    apply app_inj_tail in Hq' as [Hq' _]. exact Hq'.
Qed.

Lemma findall_xpath_nodup (t1 : string) (ts : list string) (e : Element) :
  NoDup (findall_xpath t1 ts e).
Proof.
  unfold findall_xpath. generalize (findall_desc_nodup t1 e).
  generalize (findall_desc t1 e). induction ts as [|tg ts IH]; intros ctx H; simpl.
  - exact H.
  - apply IH, child_step_nodup, H.
Qed.

Lemma n_children_at_upd (p q : list nat) (f : Element -> Element) (e : Element) :
  keeps_shape f -> n_children_at q (upd_at p f e) = n_children_at q e.
Proof.
  intros Hf; unfold n_children_at; revert p e; induction q as [|j q IH]; intros p e.
  - destruct p as [|i p]; simpl.
    + destruct (Hf e) as [_ Hc]; rewrite Hc; reflexivity.
    + apply length_alter.
  - destruct p as [|i p]; simpl.
    + destruct (Hf e) as [_ Hc]; rewrite Hc; reflexivity.
    + destruct e as [tg ats tx tl cs]; simpl.
      destruct (decide (j = i)) as [->|Hji].
      * rewrite list_lookup_alter. destruct (cs !! i); simpl;
          rewrite ?decide_True by reflexivity; [apply IH | reflexivity].
      * rewrite list_lookup_alter_ne by congruence. reflexivity.
Qed.

Lemma findall_xpath_upd (t1 : string) (ts : list string) (p : list nat)
    (f : Element -> Element) (e : Element) :
  keeps_shape f -> findall_xpath t1 ts (upd_at p f e) = findall_xpath t1 ts e.
Proof.
  intros Hf. unfold findall_xpath. rewrite findall_desc_upd by exact Hf.
  generalize (findall_desc t1 e). induction ts as [|tg ts IH]; intros ctx; simpl.
  - reflexivity.
  - rewrite IH. f_equal. unfold child_step. f_equal. apply map_ext; intros q.
    rewrite n_children_at_upd by exact Hf.
    apply list_filter_iff; intros r. rewrite has_tag_upd by exact Hf. reflexivity.
Qed.

Lemma keeps_shape_set (k v : string) : keeps_shape (set k v).
Proof. intros x; split; reflexivity. Qed.

Lemma loc_get (k : string) (x y : Element) : loc x = loc y -> get k x = get k y.
Proof.
  destruct x, y; unfold loc, get; simpl. intros H. injection H as _ Ha _ _.
  rewrite Ha; reflexivity.
Qed.

Lemma set_id (k v : string) (e : Element) : get k e = Some v -> set k v e = e.
Proof.
  destruct e as [tg ats tx tl cs]; unfold set, get; simpl. intros H.
  rewrite insert_id by exact H. reflexivity.
Qed.

Lemma upd_at_id (p : list nat) (f : Element -> Element) (t x : Element) :
  get_at p t = Some x -> f x = x -> upd_at p f t = t.
Proof.
  revert t; induction p as [|i p IH]; intros t Hx Hf; simpl in *.
  - injection Hx as ->. exact Hf.
  - destruct t as [tg ats tx tl cs]; simpl in *. f_equal.
    destruct (cs !! i) as [c|] eqn:Hc; [|discriminate].
    apply list_eq; intros j. destruct (decide (j = i)) as [->|Hji].
    + rewrite list_lookup_alter, Hc; simpl. rewrite decide_True by reflexivity.
      f_equal. apply IH; assumption.
    + rewrite list_lookup_alter_ne by congruence. reflexivity.
Qed.

Lemma py_int_str_Z (z : Z) : py_int (str_Z z) = Some z.
Proof.
  unfold str_Z.
  assert (H : NilZero.int_of_string (NilZero.string_of_int (Z.to_int z)) = Some (Z.to_int z)).
  { apply NilZero.isi; destruct z as [|q|q]; simpl; try discriminate;
      intros Hq; injection Hq; apply DecimalPos.Unsigned.to_uint_nonnil. }
  destruct (NilZero.string_of_int (Z.to_int z)) as [|a s] eqn:E; [discriminate|].
  destruct (Ascii.eqb_spec a "+"%char) as [->|Hp].
  - simpl in H. destruct (NilEmpty.uint_of_string s); discriminate.
  - rewrite py_int_not_plus by exact Hp. rewrite H; simpl. rewrite DecimalZ.of_to.
    reflexivity.
Qed.

Lemma get_at_upd_eq (p : list nat) (f : Element -> Element) (t x : Element) :
  get_at p t = Some x -> get_at p (upd_at p f t) = Some (f x).
Proof.
  revert t; induction p as [|i p IH]; intros t Hx; simpl in *.
  - injection Hx as ->. reflexivity.
  - destruct t as [tg ats tx tl cs]; simpl in *.
    rewrite list_lookup_alter. destruct (cs !! i) as [c|]; simpl; [|discriminate].
    rewrite ?decide_True by reflexivity. apply IH; exact Hx.
Qed.

(** The Cursor of the element at [q], if any, is the [str] of an int. *)
Definition canon_at (q : list nat) (t : Element) : Prop :=
  forall x c, get_at q t = Some x -> get "Cursor" x = Some c -> exists z, c = str_Z z.

Lemma canon_at_loc (q : list nat) (t t' : Element) :
  loc_at q t' = loc_at q t -> canon_at q t -> canon_at q t'.
Proof.
  intros Hl Hc x c Hx Hg. unfold loc_at in Hl. rewrite Hx in Hl. simpl in Hl.
  destruct (get_at q t) as [y|] eqn:Hy; simpl in Hl; [|discriminate].
  injection Hl as _ Ha _ _. apply (Hc y c Hy). unfold get in *. rewrite <- Ha. exact Hg.
Qed.

Lemma fix_char_step_cases (z : Z) (p : list nat) (t t1 : Element) :
  fix_char_step z p t = Ok t1 -> t1 = t \/ exists v, t1 = upd_at p (set "Cursor" v) t.
Proof.
  unfold fix_char_step. destruct (get_at p t) as [x|]; [|intros H; injection H; auto].
  destruct (get "Cursor" x) as [c|]; [|intros H; injection H; auto].
  destruct (py_int c); [|discriminate]. intros H; injection H as <-. right; eauto.
Qed.

Lemma fix_char_step_canon (z : Z) (p : list nat) (t t1 : Element) :
  fix_char_step z p t = Ok t1 -> canon_at p t1.
Proof.
  unfold fix_char_step. destruct (get_at p t) as [x|] eqn:Hx.
  - destruct (get "Cursor" x) as [c|] eqn:Hc.
    + destruct (py_int c) as [zc|]; [|discriminate]. intros H; injection H as <-.
      intros y c' Hy Hg. rewrite (get_at_upd_eq p _ t x Hx) in Hy. injection Hy as <-.
      rewrite get_set_eq in Hg. injection Hg as <-. eauto.
    + intros H; injection H as <-. intros y c' Hy Hg. rewrite Hx in Hy.
      injection Hy as <-. congruence.
  - intros H; injection H as <-. intros y c' Hy. congruence.
Qed.

Lemma fix_char_loop_shape (z : Z) (ps : list (list nat)) (t t' : Element) :
  fix_char_loop z ps t = Ok t' ->
  forall t1 ts, findall_xpath t1 ts t' = findall_xpath t1 ts t.
Proof.
  revert t; induction ps as [|p ps IH]; intros t H t1 ts; simpl in H.
  - injection H as <-. reflexivity.
  - destruct (fix_char_step z p t) as [u|] eqn:Hs; simpl in H; [|discriminate].
    rewrite (IH u H). destruct (fix_char_step_cases z p t u Hs) as [->|[v ->]];
      [reflexivity|]. apply findall_xpath_upd, keeps_shape_set.
Qed.

Lemma fix_char_loop_off (z : Z) (ps : list (list nat)) (t t' : Element) (q : list nat) :
  fix_char_loop z ps t = Ok t' -> q ∉ ps -> loc_at q t' = loc_at q t.
Proof.
  revert t; induction ps as [|p ps IH]; intros t H Hq; simpl in H.
  - injection H as <-. reflexivity.
  - destruct (fix_char_step z p t) as [u|] eqn:Hs; simpl in H; [|discriminate].
    rewrite (IH u H) by (intros Hin; apply Hq, elem_of_cons; right; exact Hin).
    destruct (fix_char_step_cases z p t u Hs) as [->|[v ->]]; [reflexivity|].
    rewrite loc_at_upd by apply keeps_shape_set.
    rewrite decide_False; [reflexivity|].
    intros ->. apply Hq, elem_of_cons; left; reflexivity.
Qed.

Lemma fix_char_loop_canon (z : Z) (ps : list (list nat)) (t t' : Element) :
  fix_char_loop z ps t = Ok t' -> forall q, q ∈ ps -> canon_at q t'.
Proof.
  revert t; induction ps as [|p ps IH]; intros t H q Hq; simpl in H.
  - inversion Hq.
  - destruct (fix_char_step z p t) as [u|] eqn:Hs; simpl in H; [|discriminate].
    destruct (decide (q ∈ ps)) as [Hin|Hnin]; [exact (IH u H q Hin)|].
    apply elem_of_cons in Hq as [->|Hq]; [|contradiction].
    apply (canon_at_loc p u t' (fix_char_loop_off z ps u t' p H Hnin)).
    exact (fix_char_step_canon z p t u Hs).
Qed.

Lemma fix_char_loop_first (z : Z) (p : list nat) (ps : list (list nat)) (t t' x : Element)
    (c : string) :
  fix_char_loop z (p :: ps) t = Ok t' -> p ∉ ps ->
  get_at p t = Some x -> get "Cursor" x = Some c -> py_int c = Some z ->
  exists y, get_at p t' = Some y /\ get "Cursor" y = Some (str_Z 0).
Proof.
  intros H Hp Hx Hc Hz. simpl in H. unfold fix_char_step in H.
  rewrite Hx, Hc, Hz in H. simpl in H.
  pose proof (fix_char_loop_off z ps _ t' p H Hp) as Hl.
  unfold loc_at in Hl. rewrite (get_at_upd_eq p _ t x Hx) in Hl.
  destruct (get_at p t') as [y|]; simpl in Hl; [|discriminate].
  exists y; split; [reflexivity|]. injection Hl as _ Ha _ _.
  assert (E : get "Cursor" y = get "Cursor" (set "Cursor" (str_Z (z - z)) x))
    by (unfold get; rewrite Ha; reflexivity).
  rewrite E, get_set_eq, Z.sub_diag. reflexivity.
Qed.

Lemma fix_char_loop_fixed (ps : list (list nat)) (t : Element) :
  (forall q, q ∈ ps -> canon_at q t) -> fix_char_loop 0 ps t = Ok t.
Proof.
  induction ps as [|p ps IH]; intros Hc; simpl; [reflexivity|].
  unfold fix_char_step. destruct (get_at p t) as [x|] eqn:Hx.
  - destruct (get "Cursor" x) as [c|] eqn:Hg.
    + destruct (Hc p (list_elem_of_here p ps) x c Hx Hg) as [zc ->].
      rewrite py_int_str_Z, Z.sub_0_r. simpl.
      rewrite (upd_at_id p _ t x Hx (set_id "Cursor" _ x Hg)).
      apply IH. intros q Hq; apply Hc, elem_of_cons; right; exact Hq.
    + apply IH. intros q Hq; apply Hc, elem_of_cons; right; exact Hq.
  - apply IH. intros q Hq; apply Hc, elem_of_cons; right; exact Hq.
Qed.

(** C9. [fix_char_pos] with an xpath [.//t1/t2/.../tn] is idempotent:
    running it on its own output gives the same tree back (and when the
    first run raises, so does the composition). *)
Theorem fix_char_pos_idempotent (t1 : string) (ts : list string) (t : Element) :
  res_bind (fix_char_pos t1 ts t) (fix_char_pos t1 ts) = fix_char_pos t1 ts t.
Proof.
  destruct (fix_char_pos t1 ts t) as [t'|ex] eqn:Hrun; simpl; [|reflexivity].
  unfold fix_char_pos in Hrun |- *.
  remember (findall_xpath t1 ts t) as ps eqn:Hps.
  destruct (first_cursor ps t) as [z|ex] eqn:Hfirst; simpl in Hrun; [|discriminate].
  rewrite (fix_char_loop_shape z ps t t' Hrun t1 ts), <- Hps.
  pose proof (fix_char_loop_canon z ps t t' Hrun) as Hcanon.
  assert (Hnd : NoDup ps) by (rewrite Hps; apply findall_xpath_nodup).
  unfold first_cursor in Hfirst. destruct ps as [|p ps']; simpl in Hfirst; [discriminate|].
  destruct (get_at p t) as [x|] eqn:Hx; [|discriminate].
  destruct (get "Cursor" x) as [c|] eqn:Hc; [|discriminate].
  destruct (py_int c) as [zc|] eqn:Hz; [|discriminate]. injection Hfirst as <-.
  apply NoDup_cons in Hnd as [Hp _].
  destruct (fix_char_loop_first zc p ps' t t' x c Hrun Hp Hx Hc Hz) as [y [Hy Hyc]].
  unfold first_cursor; simpl. rewrite Hy, Hyc, py_int_str_Z. simpl.
  exact (fix_char_loop_fixed (p :: ps') t' Hcanon).
Qed.

(** ** add_lang_tag *)

Lemma get_at_app (p q : list nat) (e : Element) :
  get_at (p ++ q) e = match get_at p e with Some x => get_at q x | None => None end.
Proof.
  revert e; induction p as [|i p IH]; intros e; simpl; [reflexivity|].
  destruct (children e !! i); [apply IH | reflexivity].
Qed.

(** Mutating the element at [p] leaves what every element off the subtree
    of [p] holds apart from its children. *)
Lemma loc_at_upd_off (p q : list nat) (f : Element -> Element) (e : Element) :
  ~ p `prefix_of` q -> loc_at q (upd_at p f e) = loc_at q e.
Proof.
  unfold loc_at; revert q e; induction p as [|i p IH]; intros q e Hpq.
  - exfalso; apply Hpq, prefix_nil.
  - destruct q as [|j q]; destruct e as [tg ats tx tl cs]; simpl; [reflexivity|].
    destruct (decide (j = i)) as [->|Hji].
    + rewrite list_lookup_alter. destruct (cs !! i) as [c|]; simpl;
        rewrite ?decide_True by reflexivity; [|reflexivity].
      apply IH. intros Hp; apply Hpq, prefix_cons; exact Hp.
    + rewrite list_lookup_alter_ne by congruence. reflexivity.
Qed.

(** C6. When the tree has a Languages descendant, [process_file] skips the
    file.  Otherwise, when the first lockWindows descendant is the [i]-th
    child of the element at [pp], the written tree has the Languages
    element inserted as child [i + 1] of that element, with the tail of
    lockWindows, and every element off the subtree of [pp] holds what it
    held before.  Without a lockWindows descendant it raises [KeyError]. *)
Theorem add_lang_process_file_spec (src_lang tgt_lang task : string) (root : Element) :
  (forall p, find_desc "Languages" root = Some p ->
     add_lang_tag.process_file src_lang tgt_lang task root = Ok None) /\
  (forall pp i lw par,
     find_desc "Languages" root = None ->
     find_desc "lockWindows" root = Some (pp ++ [i])%list ->
     get_at (pp ++ [i]) root = Some lw -> get_at pp root = Some par ->
     children par !! i = Some lw /\
     exists t', add_lang_tag.process_file src_lang tgt_lang task root = Ok (Some t') /\
       get_at pp t' =
         Some (mkEl (tag par) (attrib par) (text par) (tail par)
                 (take (S i) (children par) ++
                  languages_el src_lang tgt_lang task (tail lw) :: drop (S i) (children par))) /\
       (forall q, ~ pp `prefix_of` q -> loc_at q t' = loc_at q root)) /\
  (find_desc "Languages" root = None -> find_desc "lockWindows" root = None ->
   add_lang_tag.process_file src_lang tgt_lang task root = Throw KeyError).
Proof.
  split; [|split].
  - intros p H. unfold add_lang_tag.process_file. rewrite H. reflexivity.
  - intros pp i lw par H1 H2 H3 H4. split.
    + rewrite get_at_app, H4 in H3. simpl in H3.
      destruct (children par !! i); [exact H3 | discriminate].
    + unfold add_lang_tag.process_file. rewrite H1, H2.
      destruct (pp ++ [i])%list as [|a l] eqn:E; [destruct pp; discriminate|].
      rewrite <- E in H3 |- *. rewrite H3, removelast_last, last_last.
      eexists; split; [reflexivity|]. split.
      * rewrite (get_at_upd_eq pp _ root par H4). reflexivity.
      * intros q Hq. apply loc_at_upd_off; exact Hq.
  - intros H1 H2. unfold add_lang_tag.process_file. rewrite H1, H2. reflexivity.
Qed.

Lemma add_lang_process_file_spec_witness :
  find_desc "Languages" ex_log = None /\
  find_desc "lockWindows" ex_log = Some ([0] ++ [1])%list /\
  children ex_project !! 1 = Some ex_lock /\
  exists t', add_lang_tag.process_file "en" "nl" "translating" ex_log = Ok (Some t') /\
    get_at [0] t' =
      Some (mkEl (tag ex_project) (attrib ex_project) (text ex_project) (tail ex_project)
              (take 2 (children ex_project) ++
               languages_el "en" "nl" "translating" (tail ex_lock)
                 :: drop 2 (children ex_project))) /\
    (forall q, ~ [0] `prefix_of` q -> loc_at q t' = loc_at q ex_log).
Proof.
  assert (H1 : find_desc "Languages" ex_log = None) by (vm_compute; reflexivity).
  assert (H2 : find_desc "lockWindows" ex_log = Some ([0] ++ [1])%list)
    by (vm_compute; reflexivity).
  assert (H3 : get_at ([0] ++ [1]) ex_log = Some ex_lock) by reflexivity.
  assert (H4 : get_at [0] ex_log = Some ex_project) by reflexivity.
  split; [exact H1|]. split; [exact H2|].
  exact (proj1 (proj2 (add_lang_process_file_spec "en" "nl" "translating" ex_log))
           [0] 1 ex_lock ex_project H1 H2 H3 H4).
Defined.

(** C6, the top-level element: [.//] never matches the root, so a root
    lockWindows makes [process_file] raise, and a root Languages element
    does not make it skip the file. *)
Lemma add_lang_process_file_root_cex :
  find_desc "Languages" (ex_el "lockWindows" [] []) = None /\
  add_lang_tag.process_file "en" "nl" "translating" (ex_el "lockWindows" [] []) = Throw KeyError /\
  add_lang_tag.process_file "en" "nl" "translating"
    (ex_el "Languages" [] [ex_el "lockWindows" [] []]) <> Ok None.
Proof.
  split; [vm_compute; reflexivity|]. split; [vm_compute; reflexivity|].
  vm_compute. discriminate.
Qed.

(** ** The batch loops *)

Lemma py_for_throw {A B} (f : A -> res B) (l : list A) (e : py_exc) :
  py_for f l = Throw e <-> first_failure f l e.
Proof.
  unfold first_failure. induction l as [|x l IH]; simpl.
  - split; [discriminate|]. intros (k & y & Hk & _). rewrite lookup_nil in Hk. discriminate.
  - destruct (f x) as [y|e'] eqn:Hx; simpl.
    + destruct (py_for f l) as [ys|e''] eqn:Hl; simpl.
      * split; [discriminate|]. intros (k & z & Hk & Hz & Hb).
        destruct k as [|k]; simpl in Hk.
        -- injection Hk as <-. congruence.
        -- enough (Ok ys = Throw e) by discriminate. apply IH.
           exists k, z; split; [exact Hk|]; split; [exact Hz|].
           intros j w Hj Hw. apply (Hb (S j) w); [lia | exact Hw].
      * split.
        -- intros He. destruct (proj1 IH He) as (k & z & Hk & Hz & Hb).
           exists (S k), z; split; [exact Hk|]; split; [exact Hz|].
           intros [|j] w Hj Hw; simpl in Hw.
           ++ injection Hw as <-. eauto.
           ++ apply (Hb j w); [lia | exact Hw].
        -- intros (k & z & Hk & Hz & Hb). destruct k as [|k]; simpl in Hk.
           ++ injection Hk as <-. congruence.
           ++ apply IH. exists k, z; split; [exact Hk|]; split; [exact Hz|].
              intros j w Hj Hw. apply (Hb (S j) w); [lia | exact Hw].
    + split.
      * intros He. injection He as <-. exists 0, x.
        split; [reflexivity|]; split; [exact Hx|]. intros j w Hj; lia.
      * intros (k & z & Hk & Hz & Hb). destruct k as [|k]; simpl in Hk.
        -- injection Hk as <-. congruence.
        -- destruct (Hb 0 x ltac:(lia) eq_refl) as [r Hr]. congruence.
Qed.

Lemma replace_one_throw (repl_files : list (string * string)) (np : string * string) :
  replace_multiling_src.replace_one repl_files np = Throw StopIteration <->
  Forall (fun rp => ends_with np.1 rp.1 = false) repl_files.
Proof.
  unfold replace_multiling_src.replace_one.
  destruct (List.find (fun rp => ends_with np.1 rp.1) repl_files) as [rp|] eqn:E.
  - split; [discriminate|]. intros Hall.
    apply find_some in E as [Hin Hrp]. rewrite Forall_forall in Hall.
    rewrite (Hall rp (proj2 (list_elem_of_In _ _) Hin)) in Hrp. discriminate.
  - split; [intros _|reflexivity]. apply Forall_forall. intros rp Hrp.
    apply (find_none _ _ E). apply list_elem_of_In; exact Hrp.
Qed.

(** C7. No [main] catches an exception: the run of each batch [main]
    raises exactly when one of its files raises, and it then stops at the
    first such file.  A file of replace_multiling_src with no counterpart
    raises [StopIteration], and a T04/T05/T06 file of reset_xml_counter
    with no counterpart raises [KeyError] (add_lang_tag: see C6). *)
Theorem batch_failure_aborts :
  (forall src_lang tgt_lang task files e,
     add_lang_main src_lang tgt_lang task files = Throw e <->
     first_failure (add_lang_tag.process_file src_lang tgt_lang task) files e) /\
  (forall repl_files data_files e,
     replace_multiling_src.main repl_files data_files = Throw e <->
     first_failure (replace_multiling_src.replace_one repl_files) data_files e) /\
  (forall repl_files np,
     replace_multiling_src.replace_one repl_files np = Throw StopIteration <->
     Forall (fun rp => ends_with np.1 rp.1 = false) repl_files) /\
  (forall process_file inp_files orig_files e,
     reset_xml_counter_main.main process_file inp_files orig_files = Throw e <->
     first_failure (reset_xml_counter_main.main_one process_file orig_files) inp_files e) /\
  (forall process_file orig_files np,
     reset_xml_counter_main.affected np.1 = true -> dict_get np.1 orig_files = None ->
     reset_xml_counter_main.main_one process_file orig_files np = Throw KeyError).
Proof.
  split; [intros; apply py_for_throw|].
  split; [intros; apply py_for_throw|].
  split; [exact replace_one_throw|].
  split; [intros; apply py_for_throw|].
  intros process_file orig_files np Ha Hd.
  unfold reset_xml_counter_main.main_one. rewrite Ha, Hd. reflexivity.
Qed.

(** C7: one failing file stops each of the three batch runs. *)
Lemma batch_failure_cex :
  add_lang_main "en" "nl" "translating" [ex_el "LogFile" [] []; ex_log] = Throw KeyError /\
  replace_multiling_src.main [("T01.src", "r/T01.src")] [("P01_T02.src", "d/P01_T02.src")] =
    Throw StopIteration /\
  reset_xml_counter_main.main (fun _ _ => Ok tt) [("P01_T04.xml", "i/P01_T04.xml")] [] =
    Throw KeyError.
Proof. split; [|split]; vm_compute; reflexivity. Qed.

(** ** tmx2txt *)

Lemma count_nl_app (s1 s2 : string) : count_nl (s1 ++ s2) = count_nl s1 + count_nl s2.
Proof. induction s1 as [|c s1 IH]; simpl; [reflexivity|]. rewrite IH. lia. Qed.

Lemma count_nl_lines (g : tmx_unit -> string) (units : list tmx_unit) :
  count_nl (str_concat (map (fun node => g node ++ nl) units)) =
  length units + sum_list_with (fun node => count_nl (g node)) units.
Proof.
  induction units as [|u units IH]; simpl; [reflexivity|].
  rewrite count_nl_app, count_nl_app, IH. simpl. lia.
Qed.

Lemma sum_list_with_zero {A} (g : A -> nat) (l : list A) :
  Forall (fun x => g x = 0) l -> sum_list_with g l = 0.
Proof. induction 1 as [|x l Hx _ IH]; simpl; lia. Qed.

(** C8. Each output file has one newline per unit plus the newlines inside
    the units' texts; the two files have one line per unit when no source
    or target text contains a newline. *)
Theorem tmx_process_lines (units : list tmx_unit) :
  count_nl (tmx_process units).1 =
    length units + sum_list_with (fun node => count_nl (py_str node.1)) units /\
  count_nl (tmx_process units).2 =
    length units + sum_list_with (fun node => count_nl (py_str node.2)) units /\
  (Forall (fun node => count_nl (py_str node.1) = 0 /\ count_nl (py_str node.2) = 0) units ->
   count_nl (tmx_process units).1 = length units /\
   count_nl (tmx_process units).2 = length units).
Proof.
  unfold tmx_process; simpl. rewrite !count_nl_lines.
  split; [reflexivity|]. split; [reflexivity|]. intros Hall.
  rewrite !sum_list_with_zero; [lia | |].
  - eapply Forall_impl; [exact Hall|]. intros x [_ H]; exact H.
  - eapply Forall_impl; [exact Hall|]. intros x [H _]; exact H.
Qed.

(** C8: a source text with a line break gives the source file one more
    line than the target file. *)
Lemma tmx_process_multiline_cex :
  count_nl (tmx_process [(Some ("a" ++ nl ++ "b"), Some "c")]).1 = 2 /\
  count_nl (tmx_process [(Some ("a" ++ nl ++ "b"), Some "c")]).2 = 1.
Proof. split; vm_compute; reflexivity. Qed.

(** ** Witnesses and counterexamples on the small atag and word files *)

Lemma process_man_file_spec_witness :
  process_man_file ex_unescape ex_wtree = Ok (ex_pm_out.1, ex_pm_out.2) /\
  findall_desc "W" ex_pm_out.1 = findall_desc "W" ex_wtree.
Proof.
  assert (H : process_man_file ex_unescape ex_wtree = Ok (ex_pm_out.1, ex_pm_out.2))
    by (vm_compute; reflexivity).
  split; [exact H|]. exact (proj1 (process_man_file_spec ex_unescape _ _ _ H)).
Defined.

Lemma update_atag_single_pass_witness :
  update_atag ex_so ex_sm ex_sa ex_root [Some "1"] = Ok (false, Some ex_out) /\
  NoDup (map fst ex_out).
Proof.
  assert (H : update_atag ex_so ex_sm ex_sa ex_root [Some "1"] = Ok (false, Some ex_out))
    by (vm_compute; reflexivity).
  split; [exact H|]. exact (proj1 (update_atag_single_pass _ _ _ _ _ _ H)).
Defined.

Lemma update_atag_frame_witness :
  non_aligns_unkeyed ex_root = true /\ align_keys_ok ex_root = true /\
  man_ids_ok ex_sm = true /\
  update_atag ex_so ex_sm ex_sa ex_root [Some "1"] = Ok (false, Some ex_out) /\
  exists S, ex_out = (non_align_children ex_root ++ S)%list /\
            Forall (fun ue => tag ue.2 = "align") S.
Proof.
  assert (H1 : non_aligns_unkeyed ex_root = true) by (vm_compute; reflexivity).
  assert (H2 : align_keys_ok ex_root = true) by (vm_compute; reflexivity).
  assert (H3 : man_ids_ok ex_sm = true) by (vm_compute; reflexivity).
  assert (H4 : update_atag ex_so ex_sm ex_sa ex_root [Some "1"] = Ok (false, Some ex_out))
    by (vm_compute; reflexivity).
  split; [exact H1|]. split; [exact H2|]. split; [exact H3|]. split; [exact H4|].
  destruct (update_atag_frame ex_so ex_sm ex_sa ex_root [Some "1"] ex_out H1 H2 H3 H4)
    as [S [HS [HF _]]].
  exists S; split; assumption.
Defined.

Lemma update_atag_remaps_witness :
  exists e2 i ktgt k' wo' wm',
    (4, e2) ∈ ex_out /\
    get "in" (ex_el "align" [("in", "b1"); ("out", "a1")] []) = Some i /\
    dict_get "tgt" [("src", Some "a"); ("tgt", Some "b")] = Some ktgt /\
    children ex_tgt_orig !! k' = Some wo' /\ get "id" wo' = Some (drop1 i) /\
    children ex_tgt_man !! k' = Some wm' /\
    (forall k'' w1 w2, k' < k'' -> children ex_tgt_orig !! k'' = Some w1 ->
       children ex_tgt_man !! k'' = Some w2 -> get "id" w1 <> Some (drop1 i)) /\
    e2 = set "in" (py_str ktgt ++ py_str (get "id" wm'))
           (set "out" (py_str (Some "a") ++ py_str (get "id" (ex_word "2" "de")))
              (ex_el "align" [("in", "b1"); ("out", "a1")] [])).
Proof.
  apply (update_atag_remaps ex_so ex_sm ex_sa ex_root [Some "1"] ex_out
           [("src", Some "a"); ("tgt", Some "b")] (Some "a") 0 (Some "1") (Some "1")
           ex_src_orig ex_src_man ex_tgt_orig ex_tgt_man 0
           (ex_word "1" "de") (ex_word "2" "de") 4
           (ex_el "align" [("in", "b1"); ("out", "a1")] [])).
  all: try (vm_compute; reflexivity).
  - apply (bool_decide_unpack _). vm_compute. exact I.
  - apply list_elem_of_lookup. exists 4. reflexivity.
  - vm_compute. apply not_elem_of_nil.
Defined.

(** C1: three runs on element-equal segment trees where an align element
    whose [out] is the source key and an original source token id is not
    given the manual id of the positionally corresponding source word.
    First, its [in] names no original target word: the run stops with
    [has_error] and the file is not written.  Second, the two original
    source words share the id 1: the element gets the manual id 3 of the
    last one, not the id 2 of the first.  Third, both valid segments
    (taken in the order 2, 1) have an original source word with id 1: the
    query of segment 2 moves the element, which gets its manual id 7, not
    the id 5 of segment 1. *)
Lemma update_atag_remaps_cex :
  (elements_equal ex_src_orig ex_src_man = true /\
   elements_equal ex_tgt_orig ex_tgt_man = true /\
   get "out" (ex_el "align" [("in", "b9"); ("out", "a2")] []) = Some ("a" ++ "2") /\
   children ex_root_bad !! 3 = Some (ex_el "align" [("in", "b9"); ("out", "a2")] []) /\
   update_atag ex_so ex_sm ex_sa ex_root_bad [Some "1"] = Ok (true, None)) /\
  (valid_src_segs ex_dup_so ex_sm ex_sa [] (map_to_list ex_dup_so) = Ok [Some "1"] /\
   children ex_dup_src_orig !! 0 = Some (ex_word "1" "de") /\
   children ex_src_man !! 0 = Some (ex_word "2" "de") /\
   children ex_root_one !! 3 = Some (ex_el "align" [("in", "b1"); ("out", "a1")] []) /\
   written_links (update_atag ex_dup_so ex_sm ex_sa ex_root_one [Some "1"]) =
     Some [(0, None, None); (1, None, None); (2, None, None); (3, Some "a3", Some "b1")]) /\
  (valid_src_segs ex_two_so ex_two_sm ex_two_sa [] (map_to_list ex_two_so) = Ok [Some "2"; Some "1"] /\
   seg_tree ex_two_so (Some "1") Src = Ok (ex_el "tree" [] [ex_word "1" "de"]) /\
   seg_tree ex_two_sm (Some "1") Src = Ok (ex_el "tree" [] [ex_word "5" "de"]) /\
   written_links (update_atag ex_two_so ex_two_sm ex_two_sa ex_root_one [Some "2"; Some "1"]) =
     Some [(0, None, None); (1, None, None); (2, None, None); (3, Some "a7", Some "b1")]).
Proof.
  split; [|split].
  - split; [vm_compute; reflexivity|]. split; [vm_compute; reflexivity|].
    split; [vm_compute; reflexivity|]. split; [reflexivity|].
    vm_compute; reflexivity.
  - repeat split; vm_compute; reflexivity.
  - repeat split; vm_compute; reflexivity.
Qed.

(* ===================================================================== *)
(** * Further properties of the scripts *)
(* ===================================================================== *)

(** ** reset_xml_counter.py: [fix_char_pos] rebases every Cursor *)

Lemma loc_set (k v : string) (x y : Element) : loc x = loc y -> loc (set k v x) = loc (set k v y).
Proof.
  destruct x, y; unfold loc, set; simpl. intros H. injection H as -> -> -> ->. reflexivity.
Qed.

Lemma fix_char_loop_spec (z : Z) (t0 : Element) :
  forall (ps : list (list nat)) (t t' : Element),
  NoDup ps ->
  (forall q, q ∈ ps -> loc_at q t = loc_at q t0) ->
  fix_char_loop z ps t = Ok t' ->
  (forall q x c zc, q ∈ ps -> get_at q t0 = Some x -> get "Cursor" x = Some c ->
     py_int c = Some zc ->
     exists y, get_at q t' = Some y /\ loc y = loc (set "Cursor" (str_Z (zc - z)) x)) /\
  (forall q x, q ∈ ps -> get_at q t0 = Some x -> get "Cursor" x = None ->
     loc_at q t' = loc_at q t0).
Proof.
  induction ps as [|p ps IH]; intros t t' Hnd Hl Hrun.
  - split; intros *; intros Hq; inversion Hq.
  - inversion Hnd as [|? ? Hp Hnd']; subst. simpl in Hrun.
    destruct (fix_char_step z p t) as [t1|ex] eqn:Hs; simpl in Hrun; [|discriminate].
    assert (Hl1 : forall q, q ∈ ps -> loc_at q t1 = loc_at q t0).
    { intros q Hq. rewrite <- (Hl q (list_elem_of_further _ _ _ Hq)).
      destruct (fix_char_step_cases z p t t1 Hs) as [->|[v ->]]; [reflexivity|].
      rewrite loc_at_upd by apply keeps_shape_set.
      rewrite decide_False; [reflexivity|]. intros ->; contradiction. }
    destruct (IH t1 t' Hnd' Hl1 Hrun) as [IH1 IH2].
    pose proof (Hl p (list_elem_of_here _ _)) as Hlp.
    pose proof (fix_char_loop_off z ps t1 t' p Hrun Hp) as Hoff.
    split.
    + intros q x c zc Hq Hx Hc Hz. apply elem_of_cons in Hq as [->|Hq]; [|exact (IH1 q x c zc Hq Hx Hc Hz)].
      unfold loc_at in Hlp. rewrite Hx in Hlp.
      destruct (get_at p t) as [x'|] eqn:Hx'; simpl in Hlp; [|discriminate].
      assert (Hlx : loc x' = loc x) by congruence.
      unfold fix_char_step in Hs. rewrite Hx' in Hs.
      rewrite (loc_get "Cursor" x' x Hlx), Hc, Hz in Hs. injection Hs as <-.
      unfold loc_at in Hoff. rewrite (get_at_upd_eq p _ t x' Hx') in Hoff.
      destruct (get_at p t') as [y|]; simpl in Hoff; [|discriminate].
      exists y; split; [reflexivity|].
      transitivity (loc (set "Cursor" (str_Z (zc - z)) x')); [congruence | apply loc_set; exact Hlx].
    + intros q x Hq Hx Hc. apply elem_of_cons in Hq as [->|Hq]; [|exact (IH2 q x Hq Hx Hc)].
      rewrite Hoff. unfold loc_at in Hlp |- *. rewrite Hx in Hlp |- *.
      destruct (get_at p t) as [x'|] eqn:Hx'; simpl in Hlp; [|discriminate].
      assert (Hlx : loc x' = loc x) by congruence.
      unfold fix_char_step in Hs. rewrite Hx' in Hs.
      rewrite (loc_get "Cursor" x' x Hlx), Hc in Hs. injection Hs as <-.
      rewrite Hx'. simpl. rewrite Hlx. reflexivity.
Qed.

(** [fix_char_pos] with [.//t1/.../tn]: the first matched element carries
    an int Cursor [z0]; every matched element with an int Cursor [zc] ends
    with Cursor [str(zc - z0)] and nothing else changed; every other
    element, and every matched element without a Cursor, is left as it
    was. *)
Theorem fix_char_pos_rebase (t1 : string) (ts : list string) (t t' : Element) :
  fix_char_pos t1 ts t = Ok t' ->
  exists p0 x0 c0 z0,
    head (findall_xpath t1 ts t) = Some p0 /\ get_at p0 t = Some x0 /\
    get "Cursor" x0 = Some c0 /\ py_int c0 = Some z0 /\
    (forall q x c zc, q ∈ findall_xpath t1 ts t -> get_at q t = Some x ->
       get "Cursor" x = Some c -> py_int c = Some zc ->
       exists y, get_at q t' = Some y /\ loc y = loc (set "Cursor" (str_Z (zc - z0)) x)) /\
    (forall q, (q ∉ findall_xpath t1 ts t \/
                exists x, get_at q t = Some x /\ get "Cursor" x = None) ->
       loc_at q t' = loc_at q t).
Proof.
  unfold fix_char_pos. intros Hrun.
  destruct (first_cursor (findall_xpath t1 ts t) t) as [z0|ex] eqn:Hf; simpl in Hrun; [|discriminate].
  pose proof (findall_xpath_nodup t1 ts t) as Hnd.
  destruct (fix_char_loop_spec z0 t _ t t' Hnd (fun _ _ => eq_refl) Hrun) as [H1 H2].
  unfold first_cursor in Hf.
  destruct (head (findall_xpath t1 ts t)) as [p0|] eqn:Hh; [|discriminate].
  destruct (get_at p0 t) as [x0|] eqn:Hx0; [|discriminate].
  destruct (get "Cursor" x0) as [c0|] eqn:Hc0; [|discriminate].
  destruct (py_int c0) as [zc0|] eqn:Hz0; [|discriminate]. injection Hf as <-.
  exists p0, x0, c0, zc0. split; [reflexivity|]. split; [exact Hx0|].
  split; [exact Hc0|]. split; [exact Hz0|]. split; [exact H1|].
  intros q [Hq|[x [Hx Hc]]].
  - exact (fix_char_loop_off zc0 _ t t' q Hrun Hq).
  - destruct (decide (q ∈ findall_xpath t1 ts t)) as [Hin|Hnin].
    + exact (H2 q x Hin Hx Hc).
    + exact (fix_char_loop_off zc0 _ t t' q Hrun Hnin).
Qed.

Lemma fix_char_pos_rebase_witness :
  exists t', fix_char_pos "SourceTextChar" ["CharPos"] ex_chars = Ok t' /\
  exists p0 x0 c0 z0,
    head (findall_xpath "SourceTextChar" ["CharPos"] ex_chars) = Some p0 /\
    get_at p0 ex_chars = Some x0 /\ get "Cursor" x0 = Some c0 /\ py_int c0 = Some z0 /\
    (forall q x c zc, q ∈ findall_xpath "SourceTextChar" ["CharPos"] ex_chars ->
       get_at q ex_chars = Some x -> get "Cursor" x = Some c -> py_int c = Some zc ->
       exists y, get_at q t' = Some y /\ loc y = loc (set "Cursor" (str_Z (zc - z0)) x)) /\
    (forall q, (q ∉ findall_xpath "SourceTextChar" ["CharPos"] ex_chars \/
                exists x, get_at q ex_chars = Some x /\ get "Cursor" x = None) ->
       loc_at q t' = loc_at q ex_chars).
Proof.
  eexists. split; [reflexivity|].
  apply (fix_char_pos_rebase "SourceTextChar" ["CharPos"] ex_chars). reflexivity.
Defined.

(** ** fix_tokenization.py: [verify_cursor] after [process_man_file] *)

Lemma sum_Z_app (l1 l2 : list Z) : sum_Z (l1 ++ l2) = (sum_Z l1 + sum_Z l2)%Z.
Proof. induction l1 as [|x l1 IH]; simpl; [reflexivity|]. rewrite IH; lia. Qed.

Lemma sum_Z_map_add {A} (f g : A -> Z) (l : list A) :
  sum_Z (map (fun x => f x + g x)%Z l) = (sum_Z (map f l) + sum_Z (map g l))%Z.
Proof. induction l as [|x l IH]; simpl; [reflexivity|]. rewrite IH; lia. Qed.

Lemma process_words_texts (unescape : string -> string) (t : Element) :
  forall (ps : list (list nat)) (cur : Z) (id : nat) (diff : Z) (t0 t' : Element) (d : Z),
  NoDup ps ->
  (forall p, p ∈ ps -> exists w0 w, get_at p t0 = Some w0 /\ get_at p t = Some w /\
                                    loc w0 = loc w) ->
  process_words unescape ps cur id diff t0 = Ok (t', d) ->
  forall p w, p ∈ ps -> get_at p t = Some w -> exists tx, text w = Some tx.
Proof.
  induction ps as [|p ps IH]; intros cur id diff t0 t' d Hnd Hval Hrun q v Hq Hv;
    [inversion Hq|].
  simpl in Hrun. inversion Hnd as [|? ? Hnotin Hnd']; subst.
  destruct (Hval p (list_elem_of_here _ _)) as [w0 [w [Hw0 [Hw Hloc]]]].
  rewrite Hw0 in Hrun.
  destruct (text w0) as [tx|] eqn:Htx; [|discriminate].
  apply elem_of_cons in Hq as [->|Hq].
  - rewrite Hw in Hv; injection Hv as <-. exists tx. unfold loc in Hloc; congruence.
  - set (ats := <["id" := str_nat id]> (<["cur" := str_Z (cur + space_len w0)]> (attrib w0))) in Hrun.
    set (F := fun x => mkEl (tag x) ats (Some (unescape tx)) (tail x) (children x)) in Hrun.
    assert (HF : keeps_shape F) by apply keeps_shape_word.
    set (t1 := upd_at p F t0) in Hrun.
    assert (Hval1 : forall q, q ∈ ps -> exists w0 w, get_at q t1 = Some w0 /\
                                          get_at q t = Some w /\ loc w0 = loc w).
    { intros r Hr. destruct (Hval r (list_elem_of_further _ _ _ Hr)) as [v0 [v' [Hv0 [Hv' Hl]]]].
      pose proof (loc_at_upd p r F t0 HF) as E.
      rewrite decide_False in E by (intros ->; contradiction).
      unfold loc_at in E at 2; rewrite Hv0 in E; simpl in E.
      destruct (loc_at_some _ _ _ E) as [v1 [Hv1 Hl1]].
      exists v1, v'; repeat split; auto. congruence. }
    exact (IH _ _ _ _ _ _ Hnd' Hval1 Hrun q v Hq Hv).
Qed.

Lemma process_man_file_findall (unescape : string -> string) (m m' : Element) (d : Z) :
  process_man_file unescape m = Ok (m', d) -> findall_desc "W" m' = findall_desc "W" m.
Proof.
  intros Hrun.
  assert (Hval : forall p, p ∈ findall_desc "W" m -> exists w0 w, get_at p m = Some w0 /\
                                       get_at p m = Some w /\ loc w0 = loc w).
  { intros p Hp. destruct (findall_desc_valid "W" m p Hp) as [w [Hw _]]. eauto. }
  destruct (process_words_spec unescape m _ 0 1 0 m m' d
              (findall_desc_nodup "W" m) Hval Hrun) as [_ [Htag [Hdesc _]]].
  unfold findall_desc at 1. rewrite Hdesc. apply list_filter_iff; intros q.
  unfold has_tag. specialize (Htag q).
  destruct (get_at q m'), (get_at q m); simpl in Htag; try discriminate;
    [injection Htag as ->|]; reflexivity.
Qed.

(** [verify_cursor] after [process_man_file]: when the original's last W
    element gives the cursor [oc], the check run by [main] on the
    processed manual file returns whether [oc] is the sum over the manual
    W elements, as they were before processing, of their space length
    plus the length of their text: the characters removed by unescaping
    are added back through [char_diff]. *)
Theorem verify_cursor_after_process (unescape : string -> string) (o m m' ow : Element)
    (d oc : Z) :
  process_man_file unescape m = Ok (m', d) ->
  words m <> [] ->
  last (words o) = Some ow -> last_cursor ow = Ok oc ->
  verify_cursor o m' d =
    inr (Z.eqb oc (sum_Z (map (fun w => space_len w +
                                         Z.of_nat (String.length (default EmptyString (text w))))%Z
                              (words m)))).
Proof.
  intros Hrun Hne How Hoc.
  assert (Hval : forall p, p ∈ findall_desc "W" m -> exists w0 w, get_at p m = Some w0 /\
                                       get_at p m = Some w /\ loc w0 = loc w).
  { intros p Hp. destruct (findall_desc_valid "W" m p Hp) as [w [Hw _]]. eauto. }
  destruct (process_words_spec unescape m _ 0 1 0 m m' d
              (findall_desc_nodup "W" m) Hval Hrun) as [_ [_ [_ [Hw Hd]]]].
  pose proof (process_words_texts unescape m _ 0 1 0 m m' d
                (findall_desc_nodup "W" m) Hval Hrun) as Htexts.
  pose proof (process_man_file_findall unescape m m' d Hrun) as Hps'.
  unfold verify_cursor, words in Hne, How |- *. rewrite Hps'.
  remember (findall_desc "W" m) as ps eqn:Hps.
  destruct (last ps) as [pl|] eqn:Hl;
    [|apply last_None in Hl; subst ps; rewrite Hl in Hne; contradiction].
  apply last_Some in Hl as [ps0 ->].
  assert (Hpl : pl ∈ (ps0 ++ [pl])%list) by (apply elem_of_app; right; left).
  destruct (Hval pl Hpl) as [wl [_ [Hwl _]]].
  destruct (Htexts pl wl Hpl Hwl) as [tx Htx].
  assert (Hws : omap (fun p => get_at p m) (ps0 ++ [pl])%list =
                (omap (fun p => get_at p m) ps0 ++ [wl])%list)
    by (rewrite omap_app; simpl; rewrite Hwl; reflexivity).
  assert (Hlen : length (omap (fun p => get_at p m) ps0) = length ps0).
  { apply omap_length_all. intros p Hp.
    assert (Hp' : p ∈ (ps0 ++ [pl])%list) by (apply elem_of_app; left; exact Hp).
    destruct (Hval p Hp') as [w0 [_ [H _]]]. rewrite H; discriminate. }
  destruct (Hw (length ps0) pl wl (list_lookup_middle _ _ _ _ eq_refl) Hwl)
    as [w' [Hw' [_ [Hcur Htext]]]].
  rewrite Hws, (take_app_length' _ _ _ (eq_sym Hlen)) in Hcur.
  rewrite How, omap_app. simpl (omap _ [pl]). rewrite Hw', last_snoc.
  rewrite Hoc. unfold last_cursor. rewrite Hcur, py_int_str_Z, Htext, Htx. simpl.
  do 2 f_equal. rewrite Hd, Hws, !map_app, !sum_Z_app. simpl.
  set (ws0 := omap (fun p => get_at p m) ps0).
  assert (E : sum_Z (map (fun w => space_len w +
                                   Z.of_nat (String.length (default EmptyString (text w))))%Z ws0) =
              (sum_Z (map (advance unescape) ws0) + sum_Z (map (removed unescape) ws0))%Z).
  { rewrite <- sum_Z_map_add. f_equal. apply map_ext. intros w.
    unfold advance, removed. lia. }
  rewrite E. unfold advance, removed. rewrite Htx. simpl. lia.
Qed.

Lemma verify_cursor_after_process_witness :
  process_man_file ex_unescape ex_wtree = Ok (ex_pm_out.1, ex_pm_out.2) /\
  words ex_wtree <> [] /\
  last (words ex_orig_words) = Some ex_orig_last /\ last_cursor ex_orig_last = Ok 11%Z /\
  verify_cursor ex_orig_words ex_pm_out.1 ex_pm_out.2 =
    inr (Z.eqb 11 (sum_Z (map (fun w => space_len w +
                                Z.of_nat (String.length (default EmptyString (text w))))%Z
                              (words ex_wtree)))).
Proof.
  assert (H1 : process_man_file ex_unescape ex_wtree = Ok (ex_pm_out.1, ex_pm_out.2))
    by (vm_compute; reflexivity).
  assert (H2 : words ex_wtree <> []) by (vm_compute; discriminate).
  assert (H3 : last (words ex_orig_words) = Some ex_orig_last) by (vm_compute; reflexivity).
  assert (H4 : last_cursor ex_orig_last = Ok 11%Z) by (vm_compute; reflexivity).
  split; [exact H1|]. split; [exact H2|]. split; [exact H3|]. split; [exact H4|].
  exact (verify_cursor_after_process ex_unescape ex_orig_words ex_wtree ex_pm_out.1
           ex_orig_last ex_pm_out.2 11 H1 H2 H3 H4).
Defined.

(** ** atag_fix.py: the sentence tables *)

Lemma dict_get_notin {K V} `{EqDecision K} (k : K) (d : list (K * V)) :
  k ∉ map fst d -> dict_get k d = None.
Proof.
  induction d as [|[k' v'] d IH]; simpl; intros Hk; [reflexivity|].
  destruct (decide (k = k')) as [->|Hne].
  - exfalso; apply Hk, list_elem_of_here.
  - apply IH. intros H; apply Hk, list_elem_of_further; exact H.
Qed.

Lemma dict_set_keys {K V} `{EqDecision K} (k : K) (v : V) (d : list (K * V)) :
  NoDup (map fst d) -> NoDup (map fst (dict_set k v d)).
Proof.
  induction d as [|[k' v'] d IH]; simpl; intros Hnd.
  - constructor; [apply not_elem_of_nil | constructor].
  - inversion Hnd as [|? ? Hn Hnd']; subst.
    destruct (decide (k = k')) as [->|Hne]; simpl; [exact Hnd|].
    constructor; [|apply IH; exact Hnd'].
    intros Hin. apply list_elem_of_fmap in Hin as [[k2 v2] [Hk2 Hin]]. simpl in Hk2; subst k2.
    apply dict_set_in in Hin as [Hin|Hin].
    + injection Hin as -> _. contradiction.
    + apply Hn, list_elem_of_fmap. exists (k', v2); split; [reflexivity|exact Hin].
Qed.

Lemma extract_fold (s : option string) (ws : list Element) :
  forall (acc : list (option string * Element)),
  dict_get s (fold_left extract_step ws acc) =
  match dict_get s acc with
  | Some tr => Some (mkEl (tag tr) (attrib tr) (text tr) (tail tr)
                          (children tr ++ filter (fun w => get "segId" w = s) ws))
  | None => match filter (fun w => get "segId" w = s) ws with
            | [] => None
            | l => Some (mkEl "tree" ∅ None None l)
            end
  end.
Proof.
  induction ws as [|w ws IH]; intros acc; simpl.
  - destruct (dict_get s acc) as [[]|]; simpl; [rewrite app_nil_r|]; reflexivity.
  - rewrite IH. unfold extract_step. rewrite filter_cons.
    destruct (decide (get "segId" w = s)) as [Hs|Hs].
    + rewrite Hs, dict_get_set_eq.
      destruct (dict_get s acc) as [tr|]; simpl; [|reflexivity].
      rewrite <- app_assoc. reflexivity.
    + rewrite dict_get_set_ne by (intros E; apply Hs; symmetry; exact E). reflexivity.
Qed.

Lemma extract_fold_keys (ws : list Element) :
  forall (acc : list (option string * Element)),
  NoDup (map fst acc) -> NoDup (map fst (fold_left extract_step ws acc)).
Proof.
  induction ws as [|w ws IH]; intros acc Hnd; simpl; [exact Hnd|].
  apply IH. unfold extract_step. apply dict_set_keys; exact Hnd.
Qed.

(** [_extract_sents]: every segment id occurs once; the tree stored for
    [s] is a fresh <tree> whose children are the W elements of the file
    with segId [s], in document order, and there is an entry for [s]
    exactly when some W element has segId [s]. *)
Theorem extract_sents_file_spec (t : Element) (s : option string) :
  NoDup (map fst (extract_sents_file t)) /\
  dict_get s (extract_sents_file t) =
    match filter (fun w => get "segId" w = s) (words t) with
    | [] => None
    | l => Some (mkEl "tree" ∅ None None l)
    end.
Proof.
  unfold extract_sents_file. split.
  - apply extract_fold_keys. constructor.
  - rewrite extract_fold. reflexivity.
Qed.

Lemma pair_fold_src (s : option string) (S : list (option string * Element)) :
  forall (acc : list (option string * seg_entry)),
  NoDup (map fst S) ->
  dict_get s (fold_left (fun r '(seg_id, sent) => dict_set seg_id (mkSeg (Some sent) None) r) S acc) =
  match dict_get s S with
  | Some sent => Some (mkSeg (Some sent) None)
  | None => dict_get s acc
  end.
Proof.
  induction S as [|[k v] S IH]; intros acc Hnd; simpl; [reflexivity|].
  inversion Hnd as [|? ? Hk Hnd']; subst. rewrite IH by exact Hnd'.
  destruct (decide (s = k)) as [->|Hne].
  - rewrite (dict_get_notin k S Hk), dict_get_set_eq. reflexivity.
  - rewrite dict_get_set_ne by exact Hne. reflexivity.
Qed.

Lemma pair_fold_tgt (s : option string) (T : list (option string * Element)) :
  forall (acc : list (option string * seg_entry)),
  NoDup (map fst T) ->
  dict_get s (fold_left (fun r '(seg_id, sent) =>
                match dict_get seg_id r with
                | Some se => dict_set seg_id (mkSeg (seg_src se) (Some sent)) r
                | None => dict_set seg_id (mkSeg None (Some sent)) r
                end) T acc) =
  match dict_get s T with
  | Some sent => Some (mkSeg (match dict_get s acc with Some se => seg_src se | None => None end)
                             (Some sent))
  | None => dict_get s acc
  end.
Proof.
  induction T as [|[k v] T IH]; intros acc Hnd; simpl; [reflexivity|].
  inversion Hnd as [|? ? Hk Hnd']; subst. rewrite IH by exact Hnd'.
  destruct (decide (s = k)) as [->|Hne].
  - rewrite (dict_get_notin k T Hk).
    destruct (dict_get k acc) as [se|]; rewrite dict_get_set_eq; reflexivity.
  - destruct (dict_get k acc); rewrite dict_get_set_ne by exact Hne; reflexivity.
Qed.

(** [extract_sents]: the entry of a segment holds, under [src] and [tgt],
    the trees [_extract_sents] built for it from the .src and from the
    .tgt file; a segment found in neither file has no entry. *)
Theorem extract_sents_pair_spec (tsrc ttgt : Element) (s : option string) :
  dict_get s (extract_sents_pair (extract_sents_file tsrc) (extract_sents_file ttgt)) =
  match dict_get s (extract_sents_file tsrc), dict_get s (extract_sents_file ttgt) with
  | None, None => None
  | a, b => Some (mkSeg a b)
  end.
Proof.
  unfold extract_sents_pair.
  rewrite pair_fold_tgt by (apply extract_fold_keys; constructor).
  rewrite pair_fold_src by (apply extract_fold_keys; constructor).
  simpl. destruct (dict_get s (extract_sents_file tsrc)), (dict_get s (extract_sents_file ttgt));
    reflexivity.
Qed.

Lemma sent_align_fold (s : option string) (l : list Element) :
  forall (acc : gmap (option string) (option string)),
  fold_left (fun al el => <[get "src" el := get "tgt" el]> al) l acc !! s =
  match last (filter (fun el => get "src" el = s) l) with
  | Some el => Some (get "tgt" el)
  | None => acc !! s
  end.
Proof.
  induction l as [|x l IH]; intros acc; simpl; [reflexivity|].
  rewrite IH, filter_cons.
  destruct (last (filter (fun el => get "src" el = s) l)) as [el|] eqn:Hl.
  - destruct (decide (get "src" x = s)); [rewrite last_cons|]; rewrite Hl; reflexivity.
  - destruct (decide (get "src" x = s)) as [Hs|Hs].
    + rewrite last_cons, Hl, <- Hs. apply lookup_insert_eq.
    + rewrite Hl. apply lookup_insert_ne. intros E; apply Hs; exact E.
Qed.

(** [get_sent_align]: the target segment recorded for a source segment
    [s] is the [tgt] of the last salign element whose [src] is [s]; a
    source segment of no salign element has no entry. *)
Theorem get_sent_align_file_spec (t : Element) (s : option string) :
  get_sent_align_file t !! s =
  option_map (get "tgt")
    (last (filter (fun el => get "src" el = s)
                  (omap (fun p => get_at p t) (findall_desc "salign" t)))).
Proof.
  unfold get_sent_align_file. rewrite sent_align_fold.
  destruct (last _); reflexivity.
Qed.

(** ** atag_fix.py: the segments [fix_atag_alignments] passes on *)

Lemma valid_src_segs_gen (so sm : sents) (sa : gmap (option string) (option string))
    (items : list (option string * seg_entry)) :
  forall (valid segs : list (option string)),
  valid_src_segs so sm sa valid items = Ok segs ->
  exists added, segs = (valid ++ added)%list /\ added `sublist_of` map fst items /\
  forall s, s ∈ added ->
    exists se to tm ts tto ttm,
      (s, se) ∈ items /\ seg_src se = Some to /\ seg_tree sm s Src = Ok tm /\
      sa !! s = Some ts /\ seg_tree so ts Tgt = Ok tto /\ seg_tree sm ts Tgt = Ok ttm /\
      elements_equal to tm = true /\ elements_equal tto ttm = true.
Proof.
  induction items as [|[k d] items IH]; intros valid segs Hrun; simpl in Hrun.
  - injection Hrun as <-. exists []. rewrite app_nil_r.
    split; [reflexivity|]. split; [apply sublist_nil_l|]. intros s Hs; inversion Hs.
  - assert (Hskip : forall valid', valid_src_segs so sm sa valid' items = Ok segs ->
                      valid' = valid ->
              exists added, segs = (valid ++ added)%list /\ added `sublist_of` map fst ((k, d) :: items) /\
              forall s, s ∈ added ->
                exists se to tm ts tto ttm,
                  (s, se) ∈ (k, d) :: items /\ seg_src se = Some to /\ seg_tree sm s Src = Ok tm /\
                  sa !! s = Some ts /\ seg_tree so ts Tgt = Ok tto /\ seg_tree sm ts Tgt = Ok ttm /\
                  elements_equal to tm = true /\ elements_equal tto ttm = true).
    { intros valid' H ->. destruct (IH valid segs H) as [added [-> [Hsub Hall]]].
      exists added. split; [reflexivity|]. split; [simpl; apply sublist_cons; exact Hsub|].
      intros s Hs. destruct (Hall s Hs) as (se & to & tm & ts & tto & ttm & Hin & Hrest).
      exists se, to, tm, ts, tto, ttm. split; [apply list_elem_of_further; exact Hin|exact Hrest]. }
    destruct (seg_src d) as [to|] eqn:Hto; [|exact (Hskip valid Hrun eq_refl)].
    destruct (seg_tree sm k Src) as [tm|ex] eqn:Htm; simpl in Hrun; [|discriminate].
    destruct (sa !! k) as [ts|] eqn:Hts; simpl in Hrun; [|discriminate].
    destruct (seg_tree so ts Tgt) as [tto|[]] eqn:Htto;
      try discriminate; [|exact (Hskip valid Hrun eq_refl)].
    destruct (seg_tree sm ts Tgt) as [ttm|ex] eqn:Httm; simpl in Hrun; [|discriminate].
    destruct (elements_equal to tm && elements_equal tto ttm) eqn:Heq;
      [|exact (Hskip valid Hrun eq_refl)].
    apply andb_prop in Heq as [Heq1 Heq2].
    destruct (IH _ segs Hrun) as [added [-> [Hsub Hall]]].
    exists (k :: added). rewrite <- app_assoc. split; [reflexivity|].
    split; [simpl; apply sublist_skip; exact Hsub|].
    intros s Hs. apply elem_of_cons in Hs as [->|Hs].
    + exists d, to, tm, ts, tto, ttm. split; [apply list_elem_of_here|]. auto 10.
    + destruct (Hall s Hs) as (se & to' & tm' & ts' & tto' & ttm' & Hin & Hrest).
      exists se, to', tm', ts', tto', ttm'. split; [apply list_elem_of_further; exact Hin|exact Hrest].
Qed.

(** The segments [fix_atag_alignments] hands to [update_atag] for an
    identifier are source segments of the original file, in its order,
    each with an original src tree, a manual src tree, a target segment in
    [sent_aligns], an original and a manual tgt tree, and both pairs of
    trees element-equal; a segment missing a tree on the original side is
    skipped. *)
Theorem valid_src_segs_equal (so sm : sents) (sa : gmap (option string) (option string))
    (items : list (option string * seg_entry)) (segs : list (option string)) :
  valid_src_segs so sm sa [] items = Ok segs ->
  segs `sublist_of` map fst items /\
  forall s, s ∈ segs ->
    exists se to tm ts tto ttm,
      (s, se) ∈ items /\ seg_src se = Some to /\ seg_tree sm s Src = Ok tm /\
      sa !! s = Some ts /\ seg_tree so ts Tgt = Ok tto /\ seg_tree sm ts Tgt = Ok ttm /\
      elements_equal to tm = true /\ elements_equal tto ttm = true.
Proof.
  intros Hrun. destruct (valid_src_segs_gen so sm sa items [] segs Hrun) as [added [-> [Hsub Hall]]].
  simpl. split; [exact Hsub | exact Hall].
Qed.

Lemma valid_src_segs_equal_witness :
  valid_src_segs ex_so ex_so ex_sa [] [(Some "1", mkSeg (Some ex_src_orig) (Some ex_tgt_orig))]
    = Ok [Some "1"] /\
  [Some "1"] `sublist_of` map fst [(Some "1", mkSeg (Some ex_src_orig) (Some ex_tgt_orig))] /\
  forall s, s ∈ [Some "1"] ->
    exists se to tm ts tto ttm,
      (s, se) ∈ [(Some "1", mkSeg (Some ex_src_orig) (Some ex_tgt_orig))] /\
      seg_src se = Some to /\ seg_tree ex_so s Src = Ok tm /\
      ex_sa !! s = Some ts /\ seg_tree ex_so ts Tgt = Ok tto /\ seg_tree ex_so ts Tgt = Ok ttm /\
      elements_equal to tm = true /\ elements_equal tto ttm = true.
Proof.
  split; [vm_compute; reflexivity|].
  apply (valid_src_segs_equal ex_so ex_so ex_sa). vm_compute. reflexivity.
Defined.

(** ** add_lang_tag.py: running [process_file] on its own output *)

Lemma desc_go_elem (dp : Element -> list (list nat)) (cs : list Element) :
  forall n j c q, cs !! j = Some c -> (q = [] \/ q ∈ dp c) ->
  (n + j) :: q ∈ desc_go dp n cs.
Proof.
  induction cs as [|c0 cs IH]; intros n j c q Hc Hq; [discriminate|].
  destruct j as [|j]; simpl in Hc |- *.
  - injection Hc as <-. rewrite Nat.add_0_r.
    destruct Hq as [->|Hq]; [apply list_elem_of_here|].
    apply list_elem_of_further, elem_of_app. left.
    apply list_elem_of_fmap. exists q; split; [reflexivity|exact Hq].
  - apply list_elem_of_further, elem_of_app. right. replace (n + S j) with (S n + j) by lia.
    apply (IH (S n) j c q Hc Hq).
Qed.

(** Every element of the tree but the root is visited by [iter()]. *)
Lemma get_at_desc (e : Element) :
  forall q x, get_at q e = Some x -> q <> [] -> q ∈ desc_paths e.
Proof.
  induction e as [tg ats tx tl cs IH]; intros q x Hq Hne.
  destruct q as [|j q]; [contradiction|]. simpl in Hq.
  destruct (cs !! j) as [c|] eqn:Hc; [|discriminate].
  simpl. change j with (0 + j). apply (desc_go_elem desc_paths cs 0 j c q Hc).
  destruct q as [|k q]; [left; reflexivity|right].
  rewrite Forall_lookup in IH. apply (IH j c Hc _ x Hq). discriminate.
Qed.

(** A file that [process_file] has written is skipped when it is processed
    again, with whatever languages and task: the inserted Languages element
    is found by [find(".//Languages")]. *)
Theorem add_lang_process_file_twice (src_lang tgt_lang task src_lang' tgt_lang' task' : string)
    (root t' : Element) :
  add_lang_tag.process_file src_lang tgt_lang task root = Ok (Some t') ->
  add_lang_tag.process_file src_lang' tgt_lang' task' t' = Ok None.
Proof.
  unfold add_lang_tag.process_file at 1.
  destruct (find_desc "Languages" root); [discriminate|].
  destruct (find_desc "lockWindows" root) as [p0|]; [|discriminate].
  intros H. assert (Hp0 : p0 <> []) by (destruct p0; [discriminate|congruence]).
  replace (match p0 with [] => Throw KeyError | _ => _ end) with
    (match get_at p0 root with
     | None => Throw KeyError
     | Some lock_windows =>
         Ok (Some (upd_at (removelast p0)
                     (fun parent => mkEl (tag parent) (attrib parent) (text parent) (tail parent)
                        (py_insert (S (List.last p0 0))
                           (languages_el src_lang tgt_lang task (tail lock_windows))
                           (children parent))) root))
     end) in H by (destruct p0; [contradiction|reflexivity]).
  destruct (get_at p0 root) as [lw|] eqn:Hlw; [|discriminate].
  injection H as <-.
  pose proof (app_removelast_last 0 Hp0) as Hsplit.
  set (pp := removelast p0) in *. set (i := List.last p0 0) in *.
  rewrite Hsplit, get_at_app in Hlw.
  destruct (get_at pp root) as [par|] eqn:Hpar; [|discriminate].
  simpl in Hlw. destruct (children par !! i) as [lw'|] eqn:Hi; [|discriminate].
  injection Hlw as ->.
  set (t' := upd_at pp _ root).
  assert (Hins : get_at (pp ++ [S i]) t' =
                 Some (languages_el src_lang tgt_lang task (tail lw))).
  { unfold t'. rewrite get_at_app. erewrite get_at_upd_eq by exact Hpar. simpl.
    unfold py_insert. rewrite list_lookup_middle; [reflexivity|].
    apply lookup_lt_Some in Hi. rewrite length_take. lia. }
  unfold add_lang_tag.process_file.
  destruct (find_desc "Languages" t') eqn:E; [reflexivity|exfalso].
  unfold find_desc in E.
  assert (Hin : (pp ++ [S i])%list ∈ findall_desc "Languages" t').
  { unfold findall_desc. apply list_elem_of_filter. split.
    - unfold has_tag. rewrite Hins. reflexivity.
    - apply (get_at_desc t' _ _ Hins). destruct pp; discriminate. }
  destruct (findall_desc "Languages" t'); [inversion Hin | discriminate].
Qed.

Lemma add_lang_process_file_twice_witness :
  (exists t', add_lang_tag.process_file "en" "nl" "translating" ex_log = Ok (Some t') /\
              add_lang_tag.process_file "de" "fr" "postediting" t' = Ok None).
Proof.
  eexists. split; [vm_compute; reflexivity|].
  apply (add_lang_process_file_twice "en" "nl" "translating" "de" "fr" "postediting" ex_log).
  vm_compute. reflexivity.
Defined.

(** ** add_lang_tag.py: [main] on a file and on a directory *)

Lemma add_lang_insert (src_lang tgt_lang task : string) (root lw : Element) (pp : list nat) (i : nat) :
  find_desc "Languages" root = None ->
  find_desc "lockWindows" root = Some (pp ++ [i])%list ->
  get_at (pp ++ [i]) root = Some lw ->
  exists t', add_lang_tag.process_file src_lang tgt_lang task root = Ok (Some t') /\
    get_at (pp ++ [S i]) t' = Some (languages_el src_lang tgt_lang task (tail lw)).
Proof.
  intros H1 H2 H3. unfold add_lang_tag.process_file. rewrite H1, H2.
  destruct (pp ++ [i])%list as [|a l] eqn:E; [destruct pp; discriminate|].
  rewrite <- E in H3 |- *. rewrite H3, removelast_last, last_last.
  eexists; split; [reflexivity|].
  rewrite get_at_app in H3 |- *.
  destruct (get_at pp root) as [par|] eqn:Hpar; [|discriminate].
  simpl in H3. destruct (children par !! i) as [lw'|] eqn:Hi; [|discriminate].
  injection H3 as ->.
  erewrite get_at_upd_eq by exact Hpar. simpl.
  unfold py_insert. rewrite list_lookup_middle; [reflexivity|].
  apply lookup_lt_Some in Hi. rewrite length_take. lia.
Qed.

(** Given a single file, [main] ignores the languages and the task it is
    called with: the inserted Languages element says en, nl and
    translating, where a directory holding the same file gets the given
    ones. *)
Theorem add_lang_main_file_defaults (src_lang tgt_lang task : string) (t lw : Element)
    (pp : list nat) (i : nat) :
  find_desc "Languages" t = None ->
  find_desc "lockWindows" t = Some (pp ++ [i])%list ->
  get_at (pp ++ [i]) t = Some lw ->
  (exists t', add_lang_main_path (File t) src_lang tgt_lang task = Ok [Some t'] /\
     get_at (pp ++ [S i]) t' = Some (languages_el "en" "nl" "translating" (tail lw))) /\
  (exists t', add_lang_main_path (Dir [t]) src_lang tgt_lang task = Ok [Some t'] /\
     get_at (pp ++ [S i]) t' = Some (languages_el src_lang tgt_lang task (tail lw))).
Proof.
  intros H1 H2 H3. split.
  - destruct (add_lang_insert "en" "nl" "translating" t lw pp i H1 H2 H3) as [t' [Hp Hg]].
    exists t'. simpl. rewrite Hp. split; [reflexivity | exact Hg].
  - destruct (add_lang_insert src_lang tgt_lang task t lw pp i H1 H2 H3) as [t' [Hp Hg]].
    exists t'. unfold add_lang_main_path, add_lang_main. simpl. rewrite Hp.
    split; [reflexivity | exact Hg].
Qed.

Lemma add_lang_main_file_defaults_witness :
  find_desc "Languages" ex_log = None /\
  find_desc "lockWindows" ex_log = Some ([0] ++ [1])%list /\
  get_at ([0] ++ [1]) ex_log = Some ex_lock /\
  (exists t', add_lang_main_path (File ex_log) "de" "fr" "postediting" = Ok [Some t'] /\
     get_at ([0] ++ [2]) t' = Some (languages_el "en" "nl" "translating" (tail ex_lock))) /\
  (exists t', add_lang_main_path (Dir [ex_log]) "de" "fr" "postediting" = Ok [Some t'] /\
     get_at ([0] ++ [2]) t' = Some (languages_el "de" "fr" "postediting" (tail ex_lock))).
Proof.
  split; [vm_compute; reflexivity|]. split; [vm_compute; reflexivity|].
  split; [vm_compute; reflexivity|].
  apply (add_lang_main_file_defaults "de" "fr" "postediting" ex_log ex_lock [0] 1);
    vm_compute; reflexivity.
Defined.

(** ** atag_fix.py: the order of the written children of [update_atag] *)

Lemma key_lt_asym (a b : Z * Z) : key_lt a b = true -> key_lt b a = false.
Proof.
  destruct a as [a1 a2], b as [b1 b2]. unfold key_lt; simpl.
  destruct (Z.ltb_spec a1 b1), (Z.eqb_spec a1 b1), (Z.ltb_spec a2 b2),
           (Z.ltb_spec b1 a1), (Z.eqb_spec b1 a1), (Z.ltb_spec b2 a2);
    simpl; intros Hk; try reflexivity; try discriminate; lia.
Qed.

Lemma insert_by_key_sorted {A} (x : (Z * Z) * A) (l : list ((Z * Z) * A)) :
  Sorted (fun a b => key_lt b.1 a.1 = false) l ->
  Sorted (fun a b => key_lt b.1 a.1 = false) (insert_by_key x l).
Proof.
  induction l as [|y l IH]; intros Hs; simpl.
  - repeat constructor.
  - inversion Hs as [|? ? Hs' Hhd]; subst.
    destruct (key_lt x.1 y.1) eqn:E.
    + constructor; [exact Hs|]. constructor. apply key_lt_asym; exact E.
    + constructor; [apply IH; exact Hs'|].
      destruct l as [|z l]; simpl; [constructor; exact E|].
      destruct (key_lt x.1 z.1); constructor; [exact E|].
      inversion Hhd; assumption.
Qed.

Lemma sort_by_key_sorted {A} (l : list ((Z * Z) * A)) :
  Sorted (fun a b => key_lt b.1 a.1 = false) (sort_by_key l).
Proof.
  unfold sort_by_key.
  assert (Hgen : forall acc, Sorted (fun a b : (Z * Z) * A => key_lt b.1 a.1 = false) acc ->
            Sorted (fun a b : (Z * Z) * A => key_lt b.1 a.1 = false)
                   (fold_left (fun acc x => insert_by_key x acc) l acc)).
  { induction l as [|x l IH]; intros acc Hacc; simpl; [exact Hacc|].
    apply IH, insert_by_key_sorted; exact Hacc. }
  apply Hgen. constructor.
Qed.

Lemma sorted_map_fst {A B} (R : A -> A -> Prop) (l : list (A * B)) :
  Sorted (fun a b => R a.1 b.1) l -> Sorted R (map fst l).
Proof.
  induction l as [|x l IH]; intros Hs; simpl; [constructor|].
  inversion Hs as [|? ? Hs' Hhd]; subst. constructor; [apply IH; exact Hs'|].
  destruct l as [|y l]; simpl; constructor. inversion Hhd; assumption.
Qed.

Lemma zip_keys_match {A} (f : A -> option (Z * Z)) (l : list A) (ks : list (Z * Z)) :
  Forall2 (fun x y => f x = Some y) l ks ->
  Forall (fun p => f p.2 = Some p.1) (zip ks l).
Proof.
  intros HF. induction HF as [|x y l ks Hxy HF IH]; simpl; constructor; [exact Hxy|exact IH].
Qed.

Lemma mapM_map_snd {A} (f : A -> option (Z * Z)) (l : list ((Z * Z) * A)) :
  Forall (fun p => f p.2 = Some p.1) l -> mapM f (map snd l) = Some (map fst l).
Proof.
  induction 1 as [|p l Hp Hl IH]; simpl; [reflexivity|].
  rewrite Hp. simpl. rewrite IH. reflexivity.
Qed.

(** When [update_atag] writes the file, the children of the written root
    come in the order of their keys [(int(in[1:]), int(out[1:]))], the
    missing [in] and [out] read as [b0] and [a0]. *)
Theorem update_atag_sorted (so sm : sents) (sa : gmap (option string) (option string))
    (root : Element) (segs : list (option string)) (out : atag_children) :
  update_atag so sm sa root segs = Ok (false, Some out) ->
  exists ks, mapM (fun ue => sort_key ue.2) out = Some ks /\
    Sorted (fun a b => key_lt b a = false) ks.
Proof.
  unfold update_atag.
  destruct (existsb _ (children root)); [discriminate|].
  destruct (a_keyfiles root) as [akf|e]; simpl; [|discriminate].
  destruct (remap_segs _ _ _ _ _ _) as [[t v]| |e]; try discriminate.
  destruct (mapM (fun ue => sort_key ue.2) v) as [keys|] eqn:Hm; [|discriminate].
  intros H; injection H as <-.
  exists (map fst (sort_by_key (zip keys v))). split.
  - apply mapM_map_snd. rewrite sort_by_key_perm.
    apply (zip_keys_match (fun ue : nat * Element => sort_key ue.2)), mapM_Some_1; exact Hm.
  - apply (sorted_map_fst (fun a b => key_lt b a = false)), sort_by_key_sorted.
Qed.

Lemma update_atag_sorted_witness :
  update_atag ex_so ex_sm ex_sa ex_root [Some "1"] = Ok (false, Some ex_out) /\
  exists ks, mapM (fun ue => sort_key ue.2) ex_out = Some ks /\
    Sorted (fun a b => key_lt b a = false) ks.
Proof.
  split; [vm_compute; reflexivity|].
  apply (update_atag_sorted ex_so ex_sm ex_sa ex_root [Some "1"]). vm_compute. reflexivity.
Defined.

(** ** The batch loops when no file raises *)

Lemma py_for_ok {A B} (f : A -> res B) (l : list A) (ys : list B) :
  py_for f l = Ok ys -> Forall2 (fun x y => f x = Ok y) l ys.
Proof.
  revert ys; induction l as [|x l IH]; intros ys H; simpl in H.
  - injection H as <-. constructor.
  - destruct (f x) as [y|e] eqn:Hf; simpl in H; [|discriminate].
    destruct (py_for f l) as [ys'|e] eqn:Hl; simpl in H; [|discriminate].
    injection H as <-. constructor; [exact Hf | apply IH; reflexivity].
Qed.

Lemma list_find_some_first {A} (f : A -> bool) (l : list A) (x : A) :
  List.find f l = Some x ->
  exists l1 l2, l = (l1 ++ x :: l2)%list /\ f x = true /\ Forall (fun y => f y = false) l1.
Proof.
  induction l as [|y l IH]; simpl; [discriminate|].
  destruct (f y) eqn:Hy.
  - intros H; injection H as <-. exists [], l. split; [reflexivity|]. split; [exact Hy|constructor].
  - intros H. destruct (IH H) as [l1 [l2 [-> [Hx Hl1]]]].
    exists (y :: l1), l2. split; [reflexivity|]. split; [exact Hx|constructor; assumption].
Qed.

(** [replace_multiling_src.main] that does not raise overwrites every data
    file, in order, each with the bytes of the first replacement file
    whose name its own name ends with. *)
Theorem replace_main_ok (repl_files data_files writes : list (string * string)) :
  replace_multiling_src.main repl_files data_files = Ok writes ->
  Forall2 (fun np w => w.1 = np.2 /\
             exists r1 rp r2, repl_files = (r1 ++ rp :: r2)%list /\
               ends_with np.1 rp.1 = true /\ w.2 = rp.2 /\
               Forall (fun rq => ends_with np.1 rq.1 = false) r1)
          data_files writes.
Proof.
  intros H. apply py_for_ok in H. eapply Forall2_impl; [exact H|].
  intros np w Hw. unfold replace_multiling_src.replace_one in Hw.
  destruct (List.find (fun rp => ends_with np.1 rp.1) repl_files) as [rp|] eqn:Hf;
    [|discriminate].
  injection Hw as <-. split; [reflexivity|].
  destruct (list_find_some_first _ _ _ Hf) as [r1 [r2 [Hr [Hx Hr1]]]].
  exists r1, rp, r2. auto.
Qed.

Lemma replace_main_ok_witness :
  replace_multiling_src.main [("T01.src", "r/T01.src"); ("01.src", "r/01.src")]
                             [("P01_T01.src", "d/P01_T01.src")] =
    Ok [("d/P01_T01.src", "r/T01.src")] /\
  Forall2 (fun np w => w.1 = np.2 /\
             exists r1 rp r2, [("T01.src", "r/T01.src"); ("01.src", "r/01.src")] = (r1 ++ rp :: r2)%list /\
               ends_with np.1 rp.1 = true /\ w.2 = rp.2 /\
               Forall (fun rq => ends_with np.1 rq.1 = false) r1)
          [("P01_T01.src", "d/P01_T01.src")] [("d/P01_T01.src", "r/T01.src")].
Proof.
  split; [vm_compute; reflexivity|].
  apply replace_main_ok. vm_compute. reflexivity.
Defined.

(** [reset_xml_counter.main] that does not raise has called [process_file]
    on every affected input file (a name ending with T04.xml, T05.xml or
    T06.xml) with the original file of the same name; a directory without
    affected files is left alone, whatever [process_file] does. *)
Theorem reset_main_processed (process_file : string -> string -> res unit)
    (inp_files orig_files : list (string * string)) :
  (forall rs, reset_xml_counter_main.main process_file inp_files orig_files = Ok rs ->
     forall np, np ∈ inp_files -> reset_xml_counter_main.affected np.1 = true ->
       exists porig, dict_get np.1 orig_files = Some porig /\ process_file np.2 porig = Ok tt) /\
  (Forall (fun np => reset_xml_counter_main.affected np.1 = false) inp_files ->
   reset_xml_counter_main.main process_file inp_files orig_files = Ok (map (fun _ => tt) inp_files)).
Proof.
  split.
  - intros rs H np Hin Ha. apply py_for_ok in H.
    apply list_elem_of_lookup_1 in Hin as [k Hk].
    destruct (Forall2_lookup_l _ _ _ _ _ H Hk) as [r [_ Hr]].
    unfold reset_xml_counter_main.main_one in Hr. rewrite Ha in Hr.
    destruct (dict_get np.1 orig_files) as [porig|]; simpl in Hr; [|discriminate].
    exists porig. split; [reflexivity|]. destruct r. exact Hr.
  - intros Hall. unfold reset_xml_counter_main.main.
    induction Hall as [|np l Hnp Hl IH]; simpl; [reflexivity|].
    unfold reset_xml_counter_main.main_one at 1. rewrite Hnp. simpl. rewrite IH. reflexivity.
Qed.

Lemma reset_main_processed_witness :
  reset_xml_counter_main.main (fun _ _ => Ok tt)
    [("P01_T04.xml", "i/P01_T04.xml"); ("P01_T01.xml", "i/P01_T01.xml")]
    [("P01_T04.xml", "o/P01_T04.xml")] = Ok [tt; tt] /\
  (forall np, np ∈ [("P01_T04.xml", "i/P01_T04.xml"); ("P01_T01.xml", "i/P01_T01.xml")] ->
     reset_xml_counter_main.affected np.1 = true ->
     exists porig, dict_get np.1 [("P01_T04.xml", "o/P01_T04.xml")] = Some porig /\
       (fun _ _ : string => Ok tt : res unit) np.2 porig = Ok tt) /\
  reset_xml_counter_main.main (fun _ _ => Throw ValueError)
    [("P01_T01.xml", "i/P01_T01.xml")] [] = Ok [tt].
Proof.
  split; [vm_compute; reflexivity|]. split.
  - apply (proj1 (reset_main_processed (fun _ _ => Ok tt) _ _) [tt; tt]).
    vm_compute. reflexivity.
  - apply (proj2 (reset_main_processed (fun _ _ => Throw ValueError)
                   [("P01_T01.xml", "i/P01_T01.xml")] [])).
    repeat constructor.
Defined.

(** ** atag_fix.py: the suffix keys of [a_keyfiles] *)

Lemma path_name_go_app (l1 l2 acc : list ascii) :
  fold_left (fun acc c => if Ascii.eqb c "/" then [] else (acc ++ [c])%list) (l1 ++ l2) acc =
  fold_left (fun acc c => if Ascii.eqb c "/" then [] else (acc ++ [c])%list) l2
    (fold_left (fun acc c => if Ascii.eqb c "/" then [] else (acc ++ [c])%list) l1 acc).
Proof. apply fold_left_app. Qed.

Lemma path_name_go_noslash (l acc : list ascii) :
  Forall (fun c => c <> "/"%char) l ->
  fold_left (fun acc c => if Ascii.eqb c "/" then [] else (acc ++ [c])%list) l acc = (acc ++ l)%list.
Proof.
  revert acc; induction l as [|c l IH]; intros acc Hl; simpl; [rewrite app_nil_r; reflexivity|].
  inversion Hl as [|? ? Hc Hl']; subst.
  destruct (Ascii.eqb_spec c "/") as [->|_]; [contradiction|].
  rewrite IH by exact Hl'. rewrite <- app_assoc. reflexivity.
Qed.

Lemma rfind_dot_nodot (i : nat) (l : list ascii) (best : option nat) :
  Forall (fun c => c <> "."%char) l -> rfind_dot i l best = best.
Proof.
  revert i best; induction l as [|c l IH]; intros i best Hl; simpl; [reflexivity|].
  inversion Hl as [|? ? Hc Hl']; subst.
  destruct (Ascii.eqb_spec c ".") as [->|_]; [contradiction|]. apply IH; exact Hl'.
Qed.

Lemma rfind_dot_last (i : nat) (l1 l2 : list ascii) (best : option nat) :
  Forall (fun c => c <> "."%char) l2 ->
  rfind_dot i (l1 ++ "."%char :: l2) best = Some (i + length l1).
Proof.
  revert i best; induction l1 as [|c l1 IH]; intros i best Hl2; simpl.
  - rewrite Nat.add_0_r. apply rfind_dot_nodot; exact Hl2.
  - rewrite IH by exact Hl2. f_equal; lia.
Qed.

(** [Path(href).suffix] with its dot removed: for a file name [stem.ext]
    (after the last '/', if any) with a non-empty stem and an extension
    without dots, [a_keyfiles] keys the file by [ext]. *)
Theorem path_suffix_key_ext (pre stem ext : list ascii) :
  (pre = [] \/ exists d, pre = (d ++ ["/"%char])%list) ->
  stem <> [] -> ext <> [] ->
  Forall (fun c => c <> "/"%char) stem ->
  Forall (fun c => c <> "/"%char /\ c <> "."%char) ext ->
  path_suffix_key (string_of_list_ascii (pre ++ stem ++ "."%char :: ext)) = string_of_list_ascii ext.
Proof.
  intros Hpre Hs He Hs1 He1.
  assert (He2 : Forall (fun c => c <> "/"%char) ext) by (eapply Forall_impl; [exact He1|]; intros c [H _]; exact H).
  assert (He3 : Forall (fun c => c <> "."%char) ext) by (eapply Forall_impl; [exact He1|]; intros c [_ H]; exact H).
  assert (Hname : path_name (pre ++ stem ++ "."%char :: ext) = (stem ++ "."%char :: ext)%list).
  { unfold path_name. rewrite path_name_go_app.
    assert (Hp : fold_left (fun acc c => if Ascii.eqb c "/" then [] else (acc ++ [c])%list) pre [] = []).
    { destruct Hpre as [->|[d ->]]; [reflexivity|]. rewrite fold_left_app. reflexivity. }
    rewrite Hp. rewrite path_name_go_noslash; [reflexivity|].
    apply Forall_app; split; [exact Hs1|]. constructor; [discriminate|exact He2]. }
  unfold path_suffix_key. rewrite list_ascii_of_string_of_list_ascii, Hname.
  rewrite rfind_dot_last by exact He3. simpl.
  rewrite length_app. simpl.
  destruct stem as [|c stem]; [contradiction|]. destruct ext as [|e ext]; [contradiction|].
  simpl length.
  replace (Nat.ltb 0 (S (length stem))) with true by (symmetry; apply Nat.ltb_lt; lia).
  replace (Nat.ltb (S (length stem)) (S (length stem) + S (S (length ext)) - 1)) with true
    by (symmetry; apply Nat.ltb_lt; lia).
  simpl. change (S (length stem)) with (length (c :: stem)).
  rewrite drop_app_length.
  assert (Hf : forall l, Forall (fun c => c <> "."%char) l ->
                 filter (fun c => Ascii.eqb c "." = false) l = l).
  { intros l Hl. induction Hl as [|x l Hx Hl IH]; [reflexivity|].
    rewrite filter_cons, decide_True, IH; [reflexivity|].
    destruct (Ascii.eqb_spec x "."); [contradiction|reflexivity]. }
  rewrite filter_cons, decide_False by (simpl; discriminate).
  rewrite Hf by exact He3. reflexivity.
Qed.

Lemma path_suffix_key_ext_witness :
  path_suffix_key (string_of_list_ascii (list_ascii_of_string "/x/" ++ list_ascii_of_string "P01_T01" ++
                     "."%char :: list_ascii_of_string "tgt")) =
    string_of_list_ascii (list_ascii_of_string "tgt") /\
  path_suffix_key "/x/P01_T01.tgt" = "tgt".
Proof.
  split; [|vm_compute; reflexivity].
  apply path_suffix_key_ext.
  - right. exists (list_ascii_of_string "/x"). reflexivity.
  - discriminate.
  - discriminate.
  - repeat constructor; discriminate.
  - repeat constructor; discriminate.
Defined.

(** ** fix_tokenization.py: [group_files] *)

Lemma group_files_fold (manfs : list string) (origfs : list string) (acc : list (string * string)) :
  fold_left (fun groups pf =>
               match List.find (fun f => ends_with f (path_file_name pf)) manfs with
               | Some f => (groups ++ [(pf, f)])%list
               | None => groups
               end) origfs acc =
  (acc ++ omap (fun pf => option_map (pair pf)
                  (List.find (fun f => ends_with f (path_file_name pf)) manfs)) origfs)%list.
Proof.
  revert acc; induction origfs as [|pf origfs IH]; intros acc; simpl; [rewrite app_nil_r; reflexivity|].
  rewrite IH. destruct (List.find _ manfs); simpl; [rewrite <- app_assoc; reflexivity|reflexivity].
Qed.

Lemma list_find_none_Forall {A} (f : A -> bool) (l : list A) :
  List.find f l = None -> Forall (fun y => f y = false) l.
Proof.
  induction l as [|y l IH]; simpl; [constructor|].
  destruct (f y) eqn:Hy; [discriminate|]. intros H. constructor; [exact Hy|apply IH; exact H].
Qed.

(** [group_files] keeps the original files that have a counterpart, in
    their order, each at most as often as it is listed; the counterpart of
    [pf] is the first manual file whose path ends with [pf.name], and an
    original file with such a manual file is never left out. *)
Theorem group_files_spec (origfs manfs : list string) :
  map fst (group_files origfs manfs) `sublist_of` origfs /\
  (forall pf f, (pf, f) ∈ group_files origfs manfs ->
     exists m1 m2, manfs = (m1 ++ f :: m2)%list /\ ends_with f (path_file_name pf) = true /\
       Forall (fun g => ends_with g (path_file_name pf) = false) m1) /\
  (forall pf, pf ∈ origfs -> Exists (fun f => ends_with f (path_file_name pf) = true) manfs ->
     pf ∈ map fst (group_files origfs manfs)).
Proof.
  unfold group_files. rewrite group_files_fold. simpl.
  induction origfs as [|pf origfs [IH1 [IH2 IH3]]]; simpl.
  - split; [constructor|]. split; [intros pf f H; inversion H|]. intros pf H; inversion H.
  - destruct (List.find (fun f => ends_with f (path_file_name pf)) manfs) as [f|] eqn:Hf; simpl.
    + split; [apply sublist_skip; exact IH1|]. split.
      * intros pf' f' H. apply elem_of_cons in H as [H|H]; [|apply IH2; exact H].
        injection H as <- <-.
        destruct (list_find_some_first _ _ _ Hf) as (m1 & m2 & Hm & Hx & Hm1).
        exists m1, m2. auto.
      * intros pf' H Hex. apply elem_of_cons in H as [<-|H]; [apply list_elem_of_here|].
        apply list_elem_of_further, IH3; assumption.
    + split; [apply sublist_cons; exact IH1|]. split; [exact IH2|].
      intros pf' H Hex. apply elem_of_cons in H as [<-|H]; [|apply IH3; assumption].
      exfalso. apply list_find_none_Forall in Hf.
      rewrite Exists_exists in Hex. destruct Hex as [g [Hg Hgt]].
      rewrite Forall_forall in Hf. rewrite Hf in Hgt by exact Hg. discriminate.
Qed.

(** ** atag_fix.py: [a_keyfiles] *)

Section a_keyfiles_fold.
Variable root : Element.

Let akf_step (acc : res (list (string * option string))) (p : list nat) :=
  let! akf := acc in
  match get_at p root with
  | Some el =>
      match get "href" el with
      | Some href => Ok (dict_set (path_suffix_key href) (get "key" el) akf)
      | None => Throw TypeError
      end
  | None => Ok akf
  end.

Let key_of (el : Element) : option string := option_map path_suffix_key (get "href" el).

Lemma akf_fold_throw (ps : list (list nat)) (e : py_exc) :
  fold_left akf_step ps (Throw e) = Throw e.
Proof. induction ps as [|p ps IH]; simpl; [reflexivity|exact IH]. Qed.

Lemma akf_fold_err (ps : list (list nat)) :
  forall akf e, fold_left akf_step ps (Ok akf) = Throw e ->
  e = TypeError /\ Exists (fun el => get "href" el = None) (omap (fun p => get_at p root) ps).
Proof.
  induction ps as [|p ps IH]; intros akf e H; simpl in H |- *; [discriminate|].
  idtac.
  destruct (get_at p root) as [el|]; simpl; [|exact (IH _ _ H)].
  destruct (get "href" el) as [href|] eqn:Hh.
  - destruct (IH _ _ H) as [-> Hex]. split; [reflexivity|]. right; exact Hex.
  - rewrite akf_fold_throw in H. injection H as <-. split; [reflexivity|]. left; exact Hh.
Qed.

Lemma akf_fold_raises (ps : list (list nat)) :
  forall akf, Exists (fun el => get "href" el = None) (omap (fun p => get_at p root) ps) ->
  exists e, fold_left akf_step ps (Ok akf) = Throw e.
Proof.
  induction ps as [|p ps IH]; intros akf Hex; simpl in Hex |- *; [inversion Hex|].
  idtac.
  destruct (get_at p root) as [el|]; simpl in Hex; [|exact (IH _ Hex)].
  destruct (get "href" el) as [href|] eqn:Hh.
  - apply IH. inversion Hex as [? ? Hel|? ? Hrest]; subst; [congruence|exact Hrest].
  - rewrite akf_fold_throw. eexists; reflexivity.
Qed.

Lemma akf_fold_ok (ps : list (list nat)) :
  forall akf, Forall (fun el => get "href" el <> None) (omap (fun p => get_at p root) ps) ->
  exists akf', fold_left akf_step ps (Ok akf) = Ok akf' /\
    forall k, dict_get k akf' =
      match last (filter (fun el => key_of el = Some k) (omap (fun p => get_at p root) ps)) with
      | Some el => Some (get "key" el)
      | None => dict_get k akf
      end.
Proof.
  induction ps as [|p ps IH]; intros akf Hall; simpl in Hall |- *.
  - exists akf. split; [reflexivity|]. intros k. reflexivity.
  - idtac.
    destruct (get_at p root) as [el|]; simpl in Hall; [|exact (IH _ Hall)].
    inversion Hall as [|? ? Hel Hrest]; subst.
    destruct (get "href" el) as [href|] eqn:Hh; [|contradiction].
    destruct (IH (dict_set (path_suffix_key href) (get "key" el) akf) Hrest) as [akf' [Hf Hk]].
    exists akf'. split; [exact Hf|]. intros k. rewrite Hk, filter_cons.
    assert (Hko : key_of el = Some (path_suffix_key href)) by (unfold key_of; rewrite Hh; reflexivity).
    rewrite Hko.
    destruct (decide (Some (path_suffix_key href) = Some k)) as [Heq|Hne].
    + injection Heq as <-. rewrite last_cons.
      destruct (last _); [reflexivity|]. apply dict_get_set_eq.
    + destruct (last _); [reflexivity|]. apply dict_get_set_ne. congruence.
Qed.

End a_keyfiles_fold.

(** [a_keyfiles] raises exactly when an alignFile element has no href
    ([Path(None)] raises [TypeError]), and no other exception; otherwise
    the key of every suffix is that of the last alignFile with that
    suffix. *)
Theorem a_keyfiles_spec (root : Element) :
  (forall e, a_keyfiles root = Throw e <->
     e = TypeError /\
     Exists (fun el => get "href" el = None)
            (omap (fun p => get_at p root) (findall_desc "alignFile" root))) /\
  (Forall (fun el => get "href" el <> None)
          (omap (fun p => get_at p root) (findall_desc "alignFile" root)) ->
   exists akf, a_keyfiles root = Ok akf /\
     forall k, dict_get k akf =
       option_map (get "key")
         (last (filter (fun el => option_map path_suffix_key (get "href" el) = Some k)
                       (omap (fun p => get_at p root) (findall_desc "alignFile" root))))).
Proof.
  unfold a_keyfiles. split.
  - intros e. split.
    + apply akf_fold_err.
    + intros [-> Hex]. destruct (akf_fold_raises root _ [] Hex) as [e' He'].
      pose proof (akf_fold_err root _ [] e' He') as [-> _]. exact He'.
  - intros Hall. destruct (akf_fold_ok root _ [] Hall) as [akf [Hf Hk]].
    exists akf. split; [exact Hf|]. intros k. rewrite Hk.
    destruct (last _); reflexivity.
Qed.

(** ** atag_fix.py: [orig_man_mapping] with repeated original ids *)

(** [orig_man_mapping] pairs the words of the two trees by position, up to
    the shorter one; an original id that occurs more than once is mapped
    to the manual id paired with its last occurrence, and every key occurs
    once. *)
Theorem orig_man_mapping_last (so sm : sents) (s : option string) (d : direction)
    (to tmn : Element) :
  seg_tree so s d = Ok to -> seg_tree sm s d = Ok tmn ->
  exists mp, orig_man_mapping so sm s d = Ok mp /\ NoDup (map fst mp) /\
    forall k, dict_get k mp =
      option_map (fun p => get "id" p.2)
        (last (filter (fun p => get "id" p.1 = k) (zip (children to) (children tmn)))).
Proof.
  intros Ho Hm. unfold orig_man_mapping. rewrite Ho, Hm. simpl.
  eexists. split; [reflexivity|]. split.
  - assert (Hgen : forall (z : list (Element * Element)) (acc : list (option string * option string)),
              NoDup (map fst acc) ->
              NoDup (map fst (fold_left (fun mp '(oe, me) => dict_set (get "id" oe) (get "id" me) mp) z acc))).
    { induction z as [|[a b] z IH]; intros acc Hacc; simpl; [exact Hacc|].
      apply IH, dict_set_keys; exact Hacc. }
    apply Hgen. constructor.
  - intros k. rewrite (fold_dict_set_get (get "id") (get "id")).
    destruct (last _); reflexivity.
Qed.

Lemma orig_man_mapping_last_witness :
  exists mp,
    orig_man_mapping {[ Some "1" := mkSeg (Some (ex_el "tree" [] [ex_word "1" "de"; ex_word "1" "kat"])) None ]}
                     ex_sm (Some "1") Src = Ok mp /\ NoDup (map fst mp) /\
    forall k, dict_get k mp =
      option_map (fun p => get "id" p.2)
        (last (filter (fun p => get "id" p.1 = k)
                      (zip (children (ex_el "tree" [] [ex_word "1" "de"; ex_word "1" "kat"]))
                           (children ex_src_man)))).
Proof.
  apply (orig_man_mapping_last _ ex_sm (Some "1") Src
           (ex_el "tree" [] [ex_word "1" "de"; ex_word "1" "kat"]) ex_src_man);
    vm_compute; reflexivity.
Defined.

(** ** reset_xml_counter.py: the two [fix_char_pos] calls of [process_file] *)

Lemma child_step_elem (tg : string) (e : Element) (ctx : list (list nat)) (q : list nat) :
  q ∈ child_step tg e ctx -> exists p i, q = (p ++ [i])%list /\ p ∈ ctx.
Proof.
  unfold child_step. induction ctx as [|p ctx IH]; simpl; intros Hq; [inversion Hq|].
  apply elem_of_app in Hq as [Hq|Hq].
  - apply list_elem_of_filter in Hq as [_ Hq]. apply list_elem_of_fmap in Hq as [i [-> _]].
    exists p, i. split; [reflexivity|apply list_elem_of_here].
  - destruct (IH Hq) as [p' [i [-> Hp']]]. exists p', i.
    split; [reflexivity|apply list_elem_of_further; exact Hp'].
Qed.

Lemma char_pos_disjoint (t : Element) (q : list nat) :
  q ∈ findall_xpath "SourceTextChar" ["CharPos"] t ->
  q ∉ findall_xpath "FinalTextChar" ["CharPos"] t.
Proof.
  unfold findall_xpath; simpl. intros Hs Hf.
  destruct (child_step_elem _ _ _ _ Hs) as [p [i [-> Hp]]].
  destruct (child_step_elem _ _ _ _ Hf) as [p' [i' [Hq Hp']]].
  apply app_inj_tail in Hq as [<- _].
  destruct (findall_desc_valid _ _ _ Hp) as [w [Hw Htw]].
  destruct (findall_desc_valid _ _ _ Hp') as [w' [Hw' Htw']].
  rewrite Hw in Hw'. injection Hw' as <-. rewrite Htw in Htw'. discriminate.
Qed.

Lemma first_cursor_ok (ps : list (list nat)) (t : Element) (z : Z) :
  first_cursor ps t = Ok z ->
  exists p0 x0 c0, head ps = Some p0 /\ get_at p0 t = Some x0 /\
    get "Cursor" x0 = Some c0 /\ py_int c0 = Some z.
Proof.
  unfold first_cursor. destruct (head ps) as [p0|] eqn:Hh; [|discriminate].
  destruct (get_at p0 t) as [x0|] eqn:Hx; [|discriminate].
  destruct (get "Cursor" x0) as [c0|] eqn:Hc; [|discriminate].
  destruct (py_int c0) as [z'|] eqn:Hz; [|discriminate]. intros H; injection H as <-.
  exists p0, x0, c0. split; [reflexivity|]. split; [exact Hx|]. split; [exact Hc|exact Hz].
Qed.

Lemma first_cursor_loc (ps : list (list nat)) (t t' : Element) :
  (forall q, q ∈ ps -> loc_at q t' = loc_at q t) -> first_cursor ps t' = first_cursor ps t.
Proof.
  intros Hl. unfold first_cursor. destruct ps as [|p ps]; simpl; [reflexivity|].
  pose proof (Hl p (list_elem_of_here _ _)) as Hp. unfold loc_at in Hp.
  destruct (get_at p t') as [x'|], (get_at p t) as [x|]; simpl in Hp; try discriminate; [|reflexivity].
  assert (Hlx : loc x' = loc x) by congruence.
  rewrite (loc_get "Cursor" x' x Hlx). reflexivity.
Qed.

(** The two [fix_char_pos] calls of [process_file] do not interfere: a
    CharPos under SourceTextChar is never one under FinalTextChar, so every
    source CharPos is rebased on the first source CharPos, every final
    CharPos on the first final CharPos, both read in the tree before the
    calls, and every other element is left as it was. *)
Theorem fix_char_both_spec (t t2 : Element) :
  fix_char_both t = Ok t2 ->
  (forall q, q ∉ findall_xpath "SourceTextChar" ["CharPos"] t ->
             q ∉ findall_xpath "FinalTextChar" ["CharPos"] t -> loc_at q t2 = loc_at q t) /\
  (exists zs, first_cursor (findall_xpath "SourceTextChar" ["CharPos"] t) t = Ok zs /\
     forall q x c zc, q ∈ findall_xpath "SourceTextChar" ["CharPos"] t -> get_at q t = Some x ->
       get "Cursor" x = Some c -> py_int c = Some zc ->
       exists y, get_at q t2 = Some y /\ loc y = loc (set "Cursor" (str_Z (zc - zs)) x)) /\
  (exists zf, first_cursor (findall_xpath "FinalTextChar" ["CharPos"] t) t = Ok zf /\
     forall q x c zc, q ∈ findall_xpath "FinalTextChar" ["CharPos"] t -> get_at q t = Some x ->
       get "Cursor" x = Some c -> py_int c = Some zc ->
       exists y, get_at q t2 = Some y /\ loc y = loc (set "Cursor" (str_Z (zc - zf)) x)).
Proof.
  unfold fix_char_both.
  destruct (fix_char_pos "SourceTextChar" ["CharPos"] t) as [t1|ex] eqn:H1; simpl; [|discriminate].
  intros H2. unfold fix_char_pos in H1, H2.
  destruct (first_cursor (findall_xpath "SourceTextChar" ["CharPos"] t) t) as [zs|ex] eqn:Hfs;
    simpl in H1; [|discriminate].
  rewrite (fix_char_loop_shape zs _ t t1 H1) in H2.
  assert (HF1 : forall q, q ∈ findall_xpath "FinalTextChar" ["CharPos"] t -> loc_at q t1 = loc_at q t).
  { intros q Hq. apply (fix_char_loop_off zs _ t t1 q H1).
    intros Hs. exact (char_pos_disjoint t q Hs Hq). }
  rewrite (first_cursor_loc _ t t1 HF1) in H2.
  destruct (first_cursor (findall_xpath "FinalTextChar" ["CharPos"] t) t) as [zf|ex] eqn:Hff;
    simpl in H2; [|discriminate].
  destruct (fix_char_loop_spec zs t _ t t1 (findall_xpath_nodup _ _ _) (fun _ _ => eq_refl) H1)
    as [S1 _].
  destruct (fix_char_loop_spec zf t _ t1 t2 (findall_xpath_nodup _ _ _) HF1 H2) as [F1 _].
  split; [|split].
  - intros q Hs Hf. rewrite (fix_char_loop_off zf _ t1 t2 q H2 Hf).
    exact (fix_char_loop_off zs _ t t1 q H1 Hs).
  - exists zs. split; [reflexivity|]. intros q x c zc Hq Hx Hc Hz.
    destruct (S1 q x c zc Hq Hx Hc Hz) as [y [Hy Hly]].
    pose proof (fix_char_loop_off zf _ t1 t2 q H2 (char_pos_disjoint t q Hq)) as Hoff.
    unfold loc_at in Hoff. rewrite Hy in Hoff.
    destruct (get_at q t2) as [y'|]; simpl in Hoff; [|discriminate].
    exists y'. split; [reflexivity|]. congruence.
  - exists zf. split; [reflexivity|]. exact F1.
Qed.

Lemma fix_char_both_spec_witness :
  exists t2, fix_char_both ex_both_chars = Ok t2 /\
  (forall q, q ∉ findall_xpath "SourceTextChar" ["CharPos"] ex_both_chars ->
             q ∉ findall_xpath "FinalTextChar" ["CharPos"] ex_both_chars -> loc_at q t2 = loc_at q ex_both_chars) /\
  (exists zs, first_cursor (findall_xpath "SourceTextChar" ["CharPos"] ex_both_chars) ex_both_chars = Ok zs /\
     forall q x c zc, q ∈ findall_xpath "SourceTextChar" ["CharPos"] ex_both_chars -> get_at q ex_both_chars = Some x ->
       get "Cursor" x = Some c -> py_int c = Some zc ->
       exists y, get_at q t2 = Some y /\ loc y = loc (set "Cursor" (str_Z (zc - zs)) x)) /\
  (exists zf, first_cursor (findall_xpath "FinalTextChar" ["CharPos"] ex_both_chars) ex_both_chars = Ok zf /\
     forall q x c zc, q ∈ findall_xpath "FinalTextChar" ["CharPos"] ex_both_chars -> get_at q ex_both_chars = Some x ->
       get "Cursor" x = Some c -> py_int c = Some zc ->
       exists y, get_at q t2 = Some y /\ loc y = loc (set "Cursor" (str_Z (zc - zf)) x)).
Proof.
  eexists. split; [vm_compute; reflexivity|].
  apply fix_char_both_spec. vm_compute. reflexivity.
Defined.
